(** * bspatch.js: a streaming BSDIFF40 patch applier

    A shallow embedding of [src/bspatch.js] and the properties of its
    integer decoder ([getInt64]), its reader shim ([emulateBYOB]), its bit
    reader ([bitReaderFromStreamReader]) and its control loop ([bspatch]),
    and of the helpers around them: [add], [getAsciiString], [read], the
    two header readers, the source of the streams
    ([asyncIteratorToStream]) and the generator around the decompressor
    ([bzip2]).

    Conventions of the embedding:
    - a JavaScript number that holds an integer is a [Z]; the 32-bit
      behaviour of the bit operators is written out in [JS];
    - a [Uint8Array] is a [list Z]; reading past its end gives [undefined],
      which every consumer below turns into [0];
    - a reader is a state together with a [read] function that returns the
      new state, so that every upstream pull is visible in the result; the
      destination of a read is passed in and handed back, since the
      source writes into the caller's memory;
    - promises are resolved in place: the module never has more than the
      two reads of the add phase in flight, and those are on different
      readers;
    - the generator [bspatch] is a machine that steps from one loop test
      to the next and records what it read and what it yielded.

    The bzip2 decoder is the package [bzip2-async]; the blocks it yields
    are a parameter.  The platform's [ReadableStream] is not modelled:
    every reader of the engine is the shim over the chunks of its
    stream, which is what [getBYOBReader] falls back to, and the source
    of a stream is described by what each call of its [pull] tells the
    controller. *)

From Stdlib Require Import ZArith Zbitwise Lia String Ascii.
From stdpp Require Import base tactics option list numbers.

Local Open Scope Z_scope.

(** ** JavaScript integer operators *)

Module JS.

(** [ToInt32] of the language standard, on integral numbers. *)
Definition ToInt32 (z : Z) : Z := (z + 2 ^ 31) `mod` 2 ^ 32 - 2 ^ 31.

(** [a & b] *)
Definition band (a b : Z) : Z := Z.land (ToInt32 a) (ToInt32 b).

(** [a | b] *)
Definition bor (a b : Z) : Z := Z.lor (ToInt32 a) (ToInt32 b).

(** [a << n]: the shift count is taken modulo 32 and the result is
    brought back into the signed 32-bit range. *)
Definition shl (a n : Z) : Z := ToInt32 (Z.shiftl (ToInt32 a) (Z.land n 31)).

(** [a >> n] *)
Definition sar (a n : Z) : Z := Z.shiftr (ToInt32 a) (Z.land n 31).

(** A boolean used as a number. *)
Definition of_bool (b : bool) : Z := if b then 1 else 0.

(** A number used as a condition. *)
Definition truthy (z : Z) : bool := negb (z =? 0).

(** [a != b] on numbers. *)
Definition neq (a b : Z) : bool := negb (a =? b).

End JS.

(** ** Typed arrays *)

(** [bytes[i]] where the value is next used as a number: [undefined]
    (an index past the end) counts as [0] under [&] and in a store. *)
Definition at_index (bytes : list Z) (i : nat) : Z := default 0 (bytes !! i).

(** [new Uint8Array(n)] *)
Definition new_Uint8Array (n : nat) : list Z := replicate n 0.

(** [a.subarray(from, to)] as a value. *)
Definition subarray (a : list Z) (from to : nat) : list Z :=
  take (to - from)%nat (drop from a).

(** [dest.set(src)]: [src] overwrites the start of [dest]. *)
Definition typed_set (dest src : list Z) : list Z :=
  take (length dest) (src ++ drop (length src) dest).

(** ** getInt64  (bspatch.js, lines 125-137) *)

(** The expression is embedded with the grouping the language gives it:
    [<<] binds tighter than [|], and in
    [bytes[offset + 7] & 0x80 != 0] the comparison [0x80 != 0] binds
    tighter than [&]. *)
Definition getInt64 (bytes : list Z) (offset : nat) : Z :=
  let b (k : nat) := at_index bytes (offset + k) in
  let result :=
    JS.bor (JS.bor (JS.bor (JS.bor (JS.bor (JS.bor (JS.bor
      (JS.shl (JS.band (b 0%nat) 0xff) (0 * 8))
      (JS.shl (JS.band (b 1%nat) 0xff) (1 * 8)))
      (JS.shl (JS.band (b 2%nat) 0xff) (2 * 8)))
      (JS.shl (JS.band (b 3%nat) 0xff) (3 * 8)))
      (JS.shl (JS.band (b 4%nat) 0xff) (4 * 8)))
      (JS.shl (JS.band (b 5%nat) 0xff) (5 * 8)))
      (JS.shl (JS.band (b 6%nat) 0xff) (6 * 8)))
      (JS.shl (JS.band (b 7%nat) 0x7f) (7 * 8)) in
  let signed := JS.band (b 7%nat) (JS.of_bool (JS.neq 0x80 0)) in
  if JS.truthy signed then - result else result.

(** The decoding the format asks for, written from the description of the
    wire convention: a little-endian magnitude in the first seven bytes and
    the low seven bits of the eighth, negated when bit [0x80] of the
    eighth byte is set. *)
Definition sign_magnitude64 (bytes : list Z) (offset : nat) : Z :=
  let b (k : nat) := at_index bytes (offset + k) in
  let magnitude :=
    b 0%nat + b 1%nat * 2 ^ 8 + b 2%nat * 2 ^ 16 + b 3%nat * 2 ^ 24 +
    b 4%nat * 2 ^ 32 + b 5%nat * 2 ^ 40 + b 6%nat * 2 ^ 48 +
    Z.land (b 7%nat) 0x7f * 2 ^ 56 in
  let isNegative := negb (Z.land (b 7%nat) 0x80 =? 0) in
  if isNegative then - magnitude else magnitude.

(** ** add  (lines 139-145) *)

(** [left[i] + right[i]] as it is stored into a [Uint8Array]: the sum
    modulo 256; where [right] has no element [i] the sum is [NaN], which
    is stored as [0]. *)
Definition add_at (left right : list Z) (i : nat) : Z :=
  match right !! i with
  | Some r => (at_index left i + r) `mod` 256
  | None => 0
  end.

(** [left[i] += right[i]] for [count] indices from [i] on; a store past
    the end of [left] is dropped. *)
Fixpoint add_from (count : nat) (left right : list Z) (i : nat) : list Z :=
  match count with
  | O => left
  | S count' => add_from count' (<[i := add_at left right i]> left) right (S i)
  end.

Definition add (left right : list Z) (offset end_ : nat) : list Z :=
  add_from (end_ - offset) left right offset.

(** ** getAsciiString  (lines 147-155) *)

Fixpoint getAsciiString_from (count : nat) (bytes : list Z) (i : nat) : string :=
  match count with
  | O => EmptyString
  | S count' =>
      String (ascii_of_N (Z.to_N (at_index bytes i `mod` 256)))
             (getAsciiString_from count' bytes (S i))
  end.

Definition getAsciiString (bytes : list Z) (offset end_ : nat) : string :=
  getAsciiString_from (end_ - offset) bytes offset.

Definition MAGIC : string := "BSDIFF40".
Definition BUFFER_SIZE : positive := 4096.

(** ** emulateBYOB  (lines 157-178) *)

(** The two errors the module throws: [Error('Corrupt patch')] and
    [Error('Unexpected EOF')]. *)
Inductive Error := CorruptPatch | UnexpectedEOF.

(** What a reader hands back: [{ done, value }]. *)
Record ReadResult := { done : bool; value : list Z }.

Section EmulateBYOB.
Context {U : Type}.

(** [streamReader.read()] of a chunk-style reader: the next chunk, or
    [None] for [{ done: true }], and the reader afterwards. *)
Variable upstream_read : U -> option (list Z) * U.

(** The closure state of the shim: the wrapped reader, the pending chunk
    ([buffer], [None] for [null] or [undefined]) and the cursor into it. *)
Record Emulated := { upstream : U; buffer : option (list Z); offset : nat }.

Definition emulateBYOB (streamReader : U) : Emulated :=
  {| upstream := streamReader; buffer := None; offset := 0 |}.

(** The tail of [read]: copy from the pending chunk [b] at [off].  The
    cursor never passes the end of the chunk ([offset_ok] below), so
    [buffer.length - offset] is a natural number. *)
Definition copy_out (u : U) (b : list Z) (off : nat) (destination : list Z)
  : Emulated * list Z * ReadResult :=
  let copyAmount := Nat.min (length destination) (length b - off) in
  let destination' := typed_set destination (subarray b off (off + copyAmount)) in
  ({| upstream := u; buffer := Some b; offset := off + copyAmount |},
   destination',
   {| done := false; value := subarray destination' 0 copyAmount |}).

(** The head of [read] when a chunk has to be fetched. *)
Definition refill (r : Emulated) (destination : list Z)
  : Emulated * list Z * ReadResult :=
  match upstream_read (upstream r) with
  | (None, u') =>
      ({| upstream := u'; buffer := None; offset := offset r |},
       destination,
       {| done := true; value := subarray destination 0 0 |})
  | (Some b, u') => copy_out u' b 0 destination
  end.

(** [read(destination)]: the reader afterwards, the destination
    afterwards (the shim writes into the caller's memory) and the
    result object. *)
Definition emulated_read (r : Emulated) (destination : list Z)
  : Emulated * list Z * ReadResult :=
  match buffer r with
  | None => refill r destination
  | Some b =>
      if (length b =? offset r)%nat then refill r destination
      else copy_out (upstream r) b (offset r) destination
  end.

(** ** read  (lines 188-194) *)

(** [read(streamReader, buffer, offset, end)], with the number of
    recursive calls bounded by [fuel]; [None] when the bound is hit.
    The destination is a view of [buf], so what the reader writes
    lands in [buf] at [off]. *)
Fixpoint read (fuel : nat) (r : Emulated) (buf : list Z) (off end_ : nat)
  : option (Emulated * list Z * option Error) :=
  match fuel with
  | O => None
  | S fuel' =>
      if (end_ <=? off)%nat then Some (r, buf, None)
      else
        let destination := subarray buf off end_ in
        let '(r', destination', res) := emulated_read r destination in
        let buf' := take off buf ++ destination' ++ drop (off + length destination') buf in
        if done res then Some (r', buf', Some UnexpectedEOF)
        else read fuel' r' buf' (off + length (value res)) end_
  end.

End EmulateBYOB.

Arguments Emulated : clear implicits.

(** The cursor never passes the end of the pending chunk. *)
Definition offset_ok {U : Type} (r : Emulated U) : Prop :=
  match buffer r with
  | Some b => (offset r <= length b)%nat
  | None => True
  end.

(** The part of the pending chunk that has not been copied yet. *)
Definition pending_chunk {U : Type} (r : Emulated U) : list Z :=
  match buffer r with
  | Some b => drop (offset r) b
  | None => []
  end.

(** ** A chunk-style reader over a finite list of chunks *)

(** The reader hands out the chunks in order and then reports completion. *)
Definition chunks_read (chunks : list (list Z)) : option (list Z) * list (list Z) :=
  match chunks with
  | [] => (None, [])
  | c :: rest => (Some c, rest)
  end.

(** The readers of the engine: the shim over the chunks of the old
    file, of the patch, or of a decompressed stream. *)
Abbreviation Reader := (Emulated (list (list Z))).

Definition reader_of (chunks : list (list Z)) : Reader := emulateBYOB chunks.

(** The bytes the reader has still to deliver. *)
Definition pending (r : Reader) : list Z :=
  match buffer r with
  | None => concat (upstream r)
  | Some b => drop (offset r) b ++ concat (upstream r)
  end.

(** Every call of [read] either copies a byte or takes a chunk from the
    list, so this many calls are enough. *)
Definition read_fuel (r : Reader) (off end_ : nat) : nat :=
  S ((end_ - off) + length (upstream r)).

Definition read_chunks (r : Reader) (buf : list Z) (off end_ : nat)
  : option (Reader * list Z * option Error) :=
  read chunks_read (read_fuel r off end_) r buf off end_.

(** ** readControlHeader and readHeader  (lines 196-213) *)

Record ControlRecord := { addSize : Z; copySize : Z; seekSize : Z }.

Record Header := { magic : string; controlSize : Z; diffSize : Z; newSize : Z }.

Definition readControlHeader (streamReader : Reader)
  : option (Reader * (Error + ControlRecord)) :=
  let data := new_Uint8Array 24 in
  '(r, data, err) ← read_chunks streamReader data 0 (length data);
  match err with
  | Some e => Some (r, inl e)
  | None =>
      Some (r, inr {| addSize := getInt64 data (0 * 8);
                      copySize := getInt64 data (1 * 8);
                      seekSize := getInt64 data (2 * 8) |})
  end.

Definition readHeader (streamReader : Reader)
  : option (Reader * (Error + Header)) :=
  let data := new_Uint8Array 32 in
  '(r, data, err) ← read_chunks streamReader data 0 (length data);
  match err with
  | Some e => Some (r, inl e)
  | None =>
      Some (r, inr {| magic := getAsciiString data 0 8;
                      controlSize := getInt64 data (1 * 8);
                      diffSize := getInt64 data (2 * 8);
                      newSize := getInt64 data (3 * 8) |})
  end.

(** ** bitReaderFromStreamReader  (lines 70-100) *)

Definition BITMASK : list Z := [0; 0x01; 0x03; 0x07; 0x0F; 0x1F; 0x3F; 0x7F; 0xFF].

Section BitReader.
Context {R : Type}.

(** [streamReader.read(buffer)]: reader, destination and result
    afterwards, as for [emulated_read]. *)
Variable reader_read : R -> list Z -> R * list Z * ReadResult.

(** The closure state: the reader, the one-byte [buffer] and [cursor]. *)
Record BitReader := { source : R; byte_buffer : list Z; cursor : Z }.

Definition bitReaderFromStreamReader (streamReader : R) : BitReader :=
  {| source := streamReader; byte_buffer := new_Uint8Array 1; cursor := -1 |}.

(** The body of [readBits]: the [while (n > 0)] loop, one iteration per
    unit of [fuel]. *)
Fixpoint readBits_loop (fuel : nat) (st : BitReader) (n result : Z)
  : option (BitReader * Z) :=
  match fuel with
  | O => None
  | S fuel' =>
      if 0 <? n then
        let fetched :=
          if cursor st =? -1 then
            let '(src, buf, res) := reader_read (source st) (byte_buffer st) in
            if done res || (length (value res) =? 0)%nat
            then inl {| source := src; byte_buffer := buf; cursor := cursor st |}
            else inr {| source := src; byte_buffer := buf; cursor := 0 |}
          else inr st in
        match fetched with
        | inl st' => Some (st', -1)
        | inr st' =>
            let left := 8 - cursor st' in
            let currentByte := at_index (byte_buffer st') 0 in
            if left <=? n then
              let result := JS.shl result left in
              let result := JS.bor result (JS.band (at_index BITMASK (Z.to_nat left)) currentByte) in
              readBits_loop fuel'
                {| source := source st'; byte_buffer := byte_buffer st'; cursor := -1 |}
                (n - left) result
            else
              let result := JS.shl result n in
              let result :=
                JS.bor result
                  (JS.sar (JS.band currentByte
                             (JS.shl (at_index BITMASK (Z.to_nat n)) (8 - n - cursor st')))
                          (8 - n - cursor st')) in
              readBits_loop fuel'
                {| source := source st'; byte_buffer := byte_buffer st';
                   cursor := cursor st' + n |}
                0 result
        end
      else Some (st, result)
  end.

(** [readBits(n)]: each iteration lowers [n] by at least one, so
    [n + 1] iterations are enough. *)
Definition readBits (st : BitReader) (n : Z) : option (BitReader * Z) :=
  readBits_loop (S (Z.to_nat n)) st n 0.

End BitReader.

Arguments BitReader : clear implicits.

(** ** Bits of a byte stream *)

(** The eight bits of a byte, the most significant first. *)
Definition bits_of_byte (byte : Z) : list bool :=
  map (Z.testbit byte) [7; 6; 5; 4; 3; 2; 1; 0].

(** The number a run of bits spells, earlier bits weighing more. *)
Definition bits_value (bits : list bool) : Z :=
  fold_left (fun acc bit => 2 * acc + Z.b2z bit) bits 0.

Definition is_byte (x : Z) : Prop := 0 <= x < 256.

Section BitStream.
Context {R : Type}.
Variable reader_read : R -> list Z -> R * list Z * ReadResult.

(** [serves final r buf bytes]: asked again and again to fill the
    one-byte buffer, the reader hands over [bytes], one byte per call,
    and its next answer satisfies [final]. *)
Fixpoint serves (final : ReadResult -> Prop) (r : R) (buf : list Z) (bytes : list Z)
  : Prop :=
  match bytes with
  | [] => let '(_, _, res) := reader_read r buf in final res
  | byte :: rest =>
      let '(r', buf', res) := reader_read r buf in
      done res = false /\ length (value res) <> 0%nat /\
      length buf' = 1%nat /\ at_index buf' 0 = byte /\
      serves final r' buf' rest
  end.

(** The bits of the buffered byte that have not been handed out. *)
Definition buffered (st : BitReader R) : list bool :=
  if cursor st =? -1 then []
  else drop (Z.to_nat (cursor st)) (bits_of_byte (at_index (byte_buffer st) 0)).

(** The bits a read finds: the buffered ones, then those of the bytes
    the reader will hand over. *)
Definition upcoming (st : BitReader R) (bytes : list Z) : list bool :=
  buffered st ++ flat_map bits_of_byte bytes.

Definition cursor_ok (st : BitReader R) : Prop :=
  cursor st = -1 \/ 0 <= cursor st <= 7.

(** The shape of the closure state between calls. *)
Definition bit_reader_ok (st : BitReader R) : Prop :=
  length (byte_buffer st) = 1%nat /\ is_byte (at_index (byte_buffer st) 0) /\
  cursor_ok st.

End BitStream.

(** Answers of a reader that stop a bit read. *)
Definition reports_done (res : ReadResult) : Prop := done res = true.
Definition hands_over_nothing (res : ReadResult) : Prop :=
  done res = false /\ length (value res) = 0%nat.

(** ** bspatch  (lines 219-281) *)

(** The generator is run as a machine whose states are the loop tests
    of the source. *)
Inductive Phase :=
| AtLoop                                  (* [while (newPos < newSize)] *)
| InAdd (i : Z) (c : ControlRecord)       (* [for (i ...; i < addSize; ...)] *)
| InCopy (i : Z) (c : ControlRecord)      (* [for (i ...; i < copySize; ...)] *)
| InSeek (i : Z) (c : ControlRecord)      (* [for (i ...; i < seekSize; ...)] *)
| Finished                                (* the generator returned *)
| Failed (e : Error).                     (* the generator threw [e] *)

Record State := {
  header : Header;
  oldReader : Reader;
  controlReader : Reader;
  diffReader : Reader;
  extraReader : Reader;
  temp1 : list Z;
  temp2 : list Z;
  newPos : Z;
  oldPos : Z;
  phase : Phase
}.

(** What a step does to its environment: the control record it decoded,
    the completed reads and the chunk it yielded. *)
Inductive Event :=
| EvControl (c : ControlRecord)
| EvOld (n : Z)
| EvDiff (n : Z)
| EvExtra (n : Z)
| EvYield (chunk : list Z).

Definition set_phase (s : State) (p : Phase) : State :=
  {| header := header s; oldReader := oldReader s; controlReader := controlReader s;
     diffReader := diffReader s; extraReader := extraReader s;
     temp1 := temp1 s; temp2 := temp2 s;
     newPos := newPos s; oldPos := oldPos s; phase := p |}.

Definition set_controlReader (s : State) (r : Reader) : State :=
  {| header := header s; oldReader := oldReader s; controlReader := r;
     diffReader := diffReader s; extraReader := extraReader s;
     temp1 := temp1 s; temp2 := temp2 s;
     newPos := newPos s; oldPos := oldPos s; phase := phase s |}.

Section Engine.

(** The size of the scratch buffers, [BUFFER_SIZE] in the source. *)
Variable buffer_size : positive.

(** One turn of the [while] test: decode a control record and check
    [addSize] (lines 244-249). *)
Definition step_loop (s : State) : option (list Event * State) :=
  if newPos s <? newSize (header s) then
    '(cr, res) ← readControlHeader (controlReader s);
    match res with
    | inl e => Some ([], set_phase (set_controlReader s cr) (Failed e))
    | inr c =>
        let s := set_controlReader s cr in
        if (newSize (header s) <? newPos s + addSize c) || (addSize c <? 0)
        then Some ([EvControl c], set_phase s (Failed CorruptPatch))
        else Some ([EvControl c], set_phase s (InAdd 0 c))
    end
  else Some ([], set_phase s Finished).

(** One turn of the first [for], and the check of [copySize] when it
    is over (lines 251-262). *)
Definition step_add (s : State) (i : Z) (c : ControlRecord) : option (list Event * State) :=
  if i <? addSize c then
    let readAmount := Z.min (Z.pos buffer_size) (addSize c - i) in
    '(o, t1, e1) ← read_chunks (oldReader s) (temp1 s) 0 (Z.to_nat readAmount);
    '(d, t2, e2) ← read_chunks (diffReader s) (temp2 s) 0 (Z.to_nat readAmount);
    match e1, e2 with
    | None, None =>
        let t1 := add t1 t2 0 (Z.to_nat readAmount) in
        Some ([EvOld readAmount; EvDiff readAmount;
               EvYield (subarray t1 0 (Z.to_nat readAmount))],
              {| header := header s; oldReader := o; controlReader := controlReader s;
                 diffReader := d; extraReader := extraReader s;
                 temp1 := t1; temp2 := t2;
                 newPos := newPos s + readAmount; oldPos := oldPos s + readAmount;
                 phase := InAdd (i + Z.pos buffer_size) c |})
    | Some e, _ | None, Some e =>
        Some ([],
              {| header := header s; oldReader := o; controlReader := controlReader s;
                 diffReader := d; extraReader := extraReader s;
                 temp1 := t1; temp2 := t2;
                 newPos := newPos s; oldPos := oldPos s; phase := Failed e |})
    end
  else if (newSize (header s) <? newPos s + copySize c) || (copySize c <? 0)
  then Some ([], set_phase s (Failed CorruptPatch))
  else Some ([], set_phase s (InCopy 0 c)).

(** One turn of the second [for], and the check of [seekSize] when it
    is over (lines 264-273). *)
Definition step_copy (s : State) (i : Z) (c : ControlRecord) : option (list Event * State) :=
  if i <? copySize c then
    let readAmount := Z.min (Z.pos buffer_size) (copySize c - i) in
    '(x, t1, e) ← read_chunks (extraReader s) (temp1 s) 0 (Z.to_nat readAmount);
    match e with
    | None =>
        Some ([EvExtra readAmount; EvYield (subarray t1 0 (Z.to_nat readAmount))],
              {| header := header s; oldReader := oldReader s;
                 controlReader := controlReader s;
                 diffReader := diffReader s; extraReader := x;
                 temp1 := t1; temp2 := temp2 s;
                 newPos := newPos s + readAmount; oldPos := oldPos s;
                 phase := InCopy (i + Z.pos buffer_size) c |})
    | Some e =>
        Some ([],
              {| header := header s; oldReader := oldReader s;
                 controlReader := controlReader s;
                 diffReader := diffReader s; extraReader := x;
                 temp1 := t1; temp2 := temp2 s;
                 newPos := newPos s; oldPos := oldPos s; phase := Failed e |})
    end
  else if seekSize c <? 0
  then Some ([], set_phase s (Failed CorruptPatch))
  else Some ([], set_phase s (InSeek 0 c)).

(** One turn of the third [for] (lines 275-279). *)
Definition step_seek (s : State) (i : Z) (c : ControlRecord) : option (list Event * State) :=
  if i <? seekSize c then
    let readAmount := Z.min (Z.pos buffer_size) (seekSize c - i) in
    '(o, t1, e) ← read_chunks (oldReader s) (temp1 s) 0 (Z.to_nat readAmount);
    match e with
    | None =>
        Some ([EvOld readAmount],
              {| header := header s; oldReader := o; controlReader := controlReader s;
                 diffReader := diffReader s; extraReader := extraReader s;
                 temp1 := t1; temp2 := temp2 s;
                 newPos := newPos s; oldPos := oldPos s + readAmount;
                 phase := InSeek (i + Z.pos buffer_size) c |})
    | Some e =>
        Some ([],
              {| header := header s; oldReader := o; controlReader := controlReader s;
                 diffReader := diffReader s; extraReader := extraReader s;
                 temp1 := t1; temp2 := temp2 s;
                 newPos := newPos s; oldPos := oldPos s; phase := Failed e |})
    end
  else Some ([], set_phase s AtLoop).

Definition step (s : State) : option (list Event * State) :=
  match phase s with
  | AtLoop => step_loop s
  | InAdd i c => step_add s i c
  | InCopy i c => step_copy s i c
  | InSeek i c => step_seek s i c
  | Finished | Failed _ => Some ([], s)
  end.

Definition terminal (s : State) : bool :=
  match phase s with
  | Finished | Failed _ => true
  | _ => false
  end.

(** At most [fuel] steps, stopping at a terminal state. *)
Fixpoint run (fuel : nat) (s : State) : list Event * State :=
  match fuel with
  | O => ([], s)
  | S fuel' =>
      if terminal s then ([], s)
      else match step s with
           | None => ([], s)
           | Some (evs, s') => let '(tr, s'') := run fuel' s' in (evs ++ tr, s'')
           end
  end.

(** Every step that is not the last one takes bytes from a reader or
    moves on to a later phase of its record, so this bounds the number
    of steps. *)
Definition phase_rank (p : Phase) : nat :=
  match p with
  | InAdd _ _ => 3
  | InCopy _ _ => 2
  | InSeek _ _ => 1
  | _ => 0
  end.

Definition steps_bound (s : State) : nat :=
  (length (pending (controlReader s)) + length (pending (oldReader s)) +
   length (pending (diffReader s)) + length (pending (extraReader s)) +
   phase_rank (phase s) + 1)%nat.

(** The state in which the loop is entered (lines 229-242), given the
    header, the chunks of the old file and the blocks of the three
    decompressed streams. *)
Definition loop_entry (h : Header) (old control diff extra : list (list Z)) : State :=
  {| header := h;
     oldReader := emulateBYOB old;
     controlReader := reader_of control;
     diffReader := reader_of diff;
     extraReader := reader_of extra;
     temp1 := new_Uint8Array (Pos.to_nat buffer_size);
     temp2 := new_Uint8Array (Pos.to_nat buffer_size);
     newPos := 0; oldPos := 0; phase := AtLoop |}.

(** The loop from its entry to its end. *)
Definition bspatch_loop (h : Header) (old control diff extra : list (list Z))
  : list Event * State :=
  let s := loop_entry h old control diff extra in
  run (steps_bound s) s.

(** The blocks the bzip2 decoder yields for a compressed input.  The
    decoder belongs to the [bzip2-async] package, not to this
    repository, so it is a parameter of the entry point. *)
Variable bzip2 : list Z -> list (list Z).

(** The start of the generator, up to the first loop test
    (lines 219-242).  The control and diff segments are copied out of
    the patch, the extra segment is what is left of it. *)
Definition bspatch_open (old patch : list (list Z)) : option (Error + State) :=
  let patchReader := emulateBYOB patch in
  '(patchReader, h) ← readHeader patchReader;
  match h with
  | inl e => Some (inl e)
  | inr h =>
      if negb (String.eqb (magic h) MAGIC) || (controlSize h <? 0) ||
         (diffSize h <? 0) || (newSize h <? 0)
      then Some (inl CorruptPatch)
      else
        let control := new_Uint8Array (Z.to_nat (controlSize h)) in
        '(patchReader, control, e) ←
          read_chunks patchReader control 0 (Z.to_nat (controlSize h));
        match e with
        | Some e => Some (inl e)
        | None =>
            let diff := new_Uint8Array (Z.to_nat (diffSize h)) in
            '(patchReader, diff, e) ←
              read_chunks patchReader diff 0 (Z.to_nat (diffSize h));
            match e with
            | Some e => Some (inl e)
            | None =>
                Some (inr (loop_entry h old (bzip2 control) (bzip2 diff)
                           (bzip2 (pending patchReader))))
            end
        end
  end.

(** The whole application: the events of the run and how it ended. *)
Definition bspatch (old patch : list (list Z)) : option (list Event * (Error + State)) :=
  start ← bspatch_open old patch;
  match start with
  | inl e => Some ([], inl e)
  | inr s => let '(tr, s') := run (steps_bound s) s in Some (tr, inr s')
  end.

End Engine.

(** The bytes a run has produced. *)
Definition yielded (ev : Event) : list Z :=
  match ev with
  | EvYield chunk => chunk
  | _ => []
  end.

Definition output (tr : list Event) : list Z := concat (map yielded tr).

(** ** The patch loop, a record at a time *)

(** A second account of the loop: whole phases at a time, over the bytes
    of the four streams, with no reader, no scratch buffer and no
    chunking.  It makes the checks the code makes, in the order of the
    code, a negative seek among them.  It is given the control records:
    [records_of] are the records as the code decodes them, by
    [getInt64]; [format_records] below are the records as the format
    writes them.  The engine is compared with it below. *)

Definition add8 (a b : Z) : Z := (a + b) `mod` 256.

Definition control_of_bytes (data : list Z) : ControlRecord :=
  {| addSize := getInt64 data (0 * 8);
     copySize := getInt64 data (1 * 8);
     seekSize := getInt64 data (2 * 8) |}.

Fixpoint control_records (count : nat) (control : list Z) : list ControlRecord :=
  match count with
  | O => []
  | S count' =>
      control_of_bytes (take 24 control) :: control_records count' (drop 24 control)
  end.

(** The whole records of a control stream as [readControlHeader]
    decodes them; a shorter tail is no record. *)
Definition records_of (control : list Z) : list ControlRecord :=
  control_records (length control / 24) control.

Inductive Ending := Complete | Rejected (e : Error).

Definition emit (out : list Z) (rest : list Z * Ending) : list Z * Ending :=
  (out ++ rest.1, rest.2).

Definition short (stream : list Z) (n : Z) : bool := Z.of_nat (length stream) <? n.

Section Reference.

(** The declared size of the new file. *)
Variable new_size : Z.

(** Skip [n] bytes of the old file, then go on with [k]. *)
Definition seek_phase (n : Z) (old : list Z) (k : list Z -> list Z * Ending)
  : list Z * Ending :=
  if short old n then ([], Rejected UnexpectedEOF)
  else k (drop (Z.to_nat n) old).

(** Copy [n] bytes of the extra stream, check the seek and skip. *)
Definition copy_phase (n : Z) (c : ControlRecord) (pos : Z) (old diff extra : list Z)
    (k : Z -> list Z -> list Z -> list Z -> list Z * Ending) : list Z * Ending :=
  if short extra n then ([], Rejected UnexpectedEOF)
  else emit (take (Z.to_nat n) extra)
         (if seekSize c <? 0 then ([], Rejected CorruptPatch)
          else seek_phase (seekSize c) old
                 (fun old' => k (pos + n) old' diff (drop (Z.to_nat n) extra))).

(** Add [n] bytes of the diff stream onto the old file, check the copy
    and go on with it. *)
Definition add_phase (n : Z) (c : ControlRecord) (pos : Z) (old diff extra : list Z)
    (k : Z -> list Z -> list Z -> list Z -> list Z * Ending) : list Z * Ending :=
  if short old n || short diff n then ([], Rejected UnexpectedEOF)
  else emit (zip_with add8 (take (Z.to_nat n) old) (take (Z.to_nat n) diff))
         (if (new_size <? pos + n + copySize c) || (copySize c <? 0)
          then ([], Rejected CorruptPatch)
          else copy_phase (copySize c) c (pos + n)
                 (drop (Z.to_nat n) old) (drop (Z.to_nat n) diff) extra k).

(** One record after the other until the new file is complete. *)
Fixpoint apply_records (records : list ControlRecord) (pos : Z)
    (old diff extra : list Z) : list Z * Ending :=
  if pos <? new_size then
    match records with
    | [] => ([], Rejected UnexpectedEOF)
    | c :: records' =>
        if (new_size <? pos + addSize c) || (addSize c <? 0)
        then ([], Rejected CorruptPatch)
        else add_phase (addSize c) c pos old diff extra (apply_records records')
    end
  else ([], Complete).

End Reference.

(** What the account makes of the rest of a run that stands at [s]. *)
Definition expected (s : State) : list Z * Ending :=
  let size := newSize (header s) in
  let records := records_of (pending (controlReader s)) in
  let old := pending (oldReader s) in
  let diff := pending (diffReader s) in
  let extra := pending (extraReader s) in
  match phase s with
  | AtLoop => apply_records size records (newPos s) old diff extra
  | InAdd i c =>
      add_phase size (Z.max 0 (addSize c - i)) c (newPos s) old diff extra
        (apply_records size records)
  | InCopy i c =>
      copy_phase (Z.max 0 (copySize c - i)) c (newPos s) old diff extra
        (apply_records size records)
  | InSeek i c =>
      seek_phase (Z.max 0 (seekSize c - i)) old
        (fun old' => apply_records size records (newPos s) old' diff extra)
  | Finished => ([], Complete)
  | Failed e => ([], Rejected e)
  end.

(** [agrees x y out]: the account [x] ends as [y] does and, unless that
    end is a stream running out, its bytes are [out] followed by those
    of [y]. *)
Definition agrees (x y : list Z * Ending) (out : list Z) : Prop :=
  x.2 = y.2 /\ (x.2 <> Rejected UnexpectedEOF -> x.1 = out ++ y.1).

(** How a run ended, if it did. *)
Definition ending (s : State) : option Ending :=
  match phase s with
  | Finished => Some Complete
  | Failed e => Some (Rejected e)
  | _ => None
  end.

(** How a whole application ended. *)
Definition outcome (r : Error + State) : option Ending :=
  match r with
  | inl e => Some (Rejected e)
  | inr s => ending s
  end.

(** ** States of a run *)

(** The shape every state of a run has: cursors inside their chunks and
    scratch buffers of the configured size. *)
Definition state_ok (buffer_size : positive) (s : State) : Prop :=
  offset_ok (oldReader s) /\ offset_ok (controlReader s) /\
  offset_ok (diffReader s) /\ offset_ok (extraReader s) /\
  length (temp1 s) = Pos.to_nat buffer_size /\
  length (temp2 s) = Pos.to_nat buffer_size.

(** The state in which the loop is entered. *)
Definition initial (s : State) : Prop :=
  phase s = AtLoop /\ newPos s = 0 /\ oldPos s = 0 /\ 0 <= newSize (header s).

(** [Trace b s tr s']: the engine goes from [s] to [s'] and [tr] is what
    it did on the way. *)
Inductive Trace (buffer_size : positive) (s : State) : list Event -> State -> Prop :=
| Trace_here : Trace buffer_size s [] s
| Trace_step (tr evs : list Event) (s1 s2 : State) :
    Trace buffer_size s tr s1 ->
    step buffer_size s1 = Some (evs, s2) ->
    Trace buffer_size s (tr ++ evs) s2.

(** What holds of the positions in every state of a run. *)
Definition pos_inv (s : State) : Prop :=
  0 <= newPos s <= newSize (header s) /\
  match phase s with
  | InAdd i c =>
      0 <= i /\ 0 <= addSize c /\
      newPos s + Z.max 0 (addSize c - i) <= newSize (header s)
  | InCopy i c =>
      0 <= i /\ 0 <= copySize c /\
      newPos s + Z.max 0 (copySize c - i) <= newSize (header s)
  | InSeek i c => 0 <= i /\ 0 <= seekSize c
  | _ => True
  end.

(** The steps of the engine case by case, with each reader described by
    the bytes it has yet to deliver.  [step_cases] below shows that every
    step of a well-shaped state is one of these. *)
Inductive Step (buffer_size : positive) (s : State) : list Event -> State -> Prop :=
| Step_finish :
    phase s = AtLoop -> newSize (header s) <= newPos s ->
    Step buffer_size s [] (set_phase s Finished)
| Step_control_eof (cr : Reader) :
    phase s = AtLoop -> newPos s < newSize (header s) ->
    (length (pending (controlReader s)) < 24)%nat ->
    offset_ok cr ->
    Step buffer_size s [] (set_phase (set_controlReader s cr) (Failed UnexpectedEOF))
| Step_control (cr : Reader) (c : ControlRecord) :
    phase s = AtLoop -> newPos s < newSize (header s) ->
    (24 <= length (pending (controlReader s)))%nat ->
    c = control_of_bytes (take 24 (pending (controlReader s))) ->
    offset_ok cr -> pending cr = drop 24 (pending (controlReader s)) ->
    Step buffer_size s [EvControl c]
      (set_phase (set_controlReader s cr)
         (if (newSize (header s) <? newPos s + addSize c) || (addSize c <? 0)
          then Failed CorruptPatch else InAdd 0 c))
| Step_add_chunk (i : Z) (c : ControlRecord) (n : Z) (o d : Reader) (t1 t2 : list Z) :
    phase s = InAdd i c -> i < addSize c ->
    n = Z.min (Z.pos buffer_size) (addSize c - i) ->
    (Z.to_nat n <= length (pending (oldReader s)))%nat ->
    (Z.to_nat n <= length (pending (diffReader s)))%nat ->
    offset_ok o -> pending o = drop (Z.to_nat n) (pending (oldReader s)) ->
    offset_ok d -> pending d = drop (Z.to_nat n) (pending (diffReader s)) ->
    length t1 = Pos.to_nat buffer_size -> length t2 = Pos.to_nat buffer_size ->
    Step buffer_size s
      [EvOld n; EvDiff n;
       EvYield (zip_with add8 (take (Z.to_nat n) (pending (oldReader s)))
                               (take (Z.to_nat n) (pending (diffReader s))))]
      {| header := header s; oldReader := o; controlReader := controlReader s;
         diffReader := d; extraReader := extraReader s;
         temp1 := t1; temp2 := t2;
         newPos := newPos s + n; oldPos := oldPos s + n;
         phase := InAdd (i + Z.pos buffer_size) c |}
| Step_add_eof (i : Z) (c : ControlRecord) (n : Z) (s' : State) :
    phase s = InAdd i c -> i < addSize c ->
    n = Z.min (Z.pos buffer_size) (addSize c - i) ->
    (length (pending (oldReader s)) < Z.to_nat n)%nat \/
    (length (pending (diffReader s)) < Z.to_nat n)%nat ->
    phase s' = Failed UnexpectedEOF -> header s' = header s ->
    newPos s' = newPos s -> oldPos s' = oldPos s -> state_ok buffer_size s' ->
    Step buffer_size s [] s'
| Step_add_done (i : Z) (c : ControlRecord) :
    phase s = InAdd i c -> addSize c <= i ->
    Step buffer_size s []
      (set_phase s
         (if (newSize (header s) <? newPos s + copySize c) || (copySize c <? 0)
          then Failed CorruptPatch else InCopy 0 c))
| Step_copy_chunk (i : Z) (c : ControlRecord) (n : Z) (x : Reader) (t1 : list Z) :
    phase s = InCopy i c -> i < copySize c ->
    n = Z.min (Z.pos buffer_size) (copySize c - i) ->
    (Z.to_nat n <= length (pending (extraReader s)))%nat ->
    offset_ok x -> pending x = drop (Z.to_nat n) (pending (extraReader s)) ->
    length t1 = Pos.to_nat buffer_size ->
    Step buffer_size s
      [EvExtra n; EvYield (take (Z.to_nat n) (pending (extraReader s)))]
      {| header := header s; oldReader := oldReader s; controlReader := controlReader s;
         diffReader := diffReader s; extraReader := x;
         temp1 := t1; temp2 := temp2 s;
         newPos := newPos s + n; oldPos := oldPos s;
         phase := InCopy (i + Z.pos buffer_size) c |}
| Step_copy_eof (i : Z) (c : ControlRecord) (n : Z) (s' : State) :
    phase s = InCopy i c -> i < copySize c ->
    n = Z.min (Z.pos buffer_size) (copySize c - i) ->
    (length (pending (extraReader s)) < Z.to_nat n)%nat ->
    phase s' = Failed UnexpectedEOF -> header s' = header s ->
    newPos s' = newPos s -> oldPos s' = oldPos s -> state_ok buffer_size s' ->
    Step buffer_size s [] s'
| Step_copy_done (i : Z) (c : ControlRecord) :
    phase s = InCopy i c -> copySize c <= i ->
    Step buffer_size s []
      (set_phase s (if seekSize c <? 0 then Failed CorruptPatch else InSeek 0 c))
| Step_seek_chunk (i : Z) (c : ControlRecord) (n : Z) (o : Reader) (t1 : list Z) :
    phase s = InSeek i c -> i < seekSize c ->
    n = Z.min (Z.pos buffer_size) (seekSize c - i) ->
    (Z.to_nat n <= length (pending (oldReader s)))%nat ->
    offset_ok o -> pending o = drop (Z.to_nat n) (pending (oldReader s)) ->
    length t1 = Pos.to_nat buffer_size ->
    Step buffer_size s [EvOld n]
      {| header := header s; oldReader := o; controlReader := controlReader s;
         diffReader := diffReader s; extraReader := extraReader s;
         temp1 := t1; temp2 := temp2 s;
         newPos := newPos s; oldPos := oldPos s + n;
         phase := InSeek (i + Z.pos buffer_size) c |}
| Step_seek_eof (i : Z) (c : ControlRecord) (n : Z) (s' : State) :
    phase s = InSeek i c -> i < seekSize c ->
    n = Z.min (Z.pos buffer_size) (seekSize c - i) ->
    (length (pending (oldReader s)) < Z.to_nat n)%nat ->
    phase s' = Failed UnexpectedEOF -> header s' = header s ->
    newPos s' = newPos s -> oldPos s' = oldPos s -> state_ok buffer_size s' ->
    Step buffer_size s [] s'
| Step_seek_done (i : Z) (c : ControlRecord) :
    phase s = InSeek i c -> seekSize c <= i ->
    Step buffer_size s [] (set_phase s AtLoop)
| Step_stay :
    terminal s = true -> Step buffer_size s [] s.

(** The control records a run decoded and the bytes it read from the
    old file. *)
Definition records_read (tr : list Event) : list ControlRecord :=
  omap (fun ev => match ev with EvControl c => Some c | _ => None end) tr.

Definition old_read (tr : list Event) : Z :=
  foldr (fun ev acc => match ev with EvOld n => n + acc | _ => acc end) 0 tr.

Definition old_span (cs : list ControlRecord) : Z :=
  foldr (fun c acc => addSize c + seekSize c + acc) 0 cs.

(** What holds of the old file in every state of a run [tr] from [s0]
    to [s] that has not failed: [oldPos] counts the bytes taken from the
    old reader, and they are the add and seek sizes of the records
    decoded so far, the current one in part. *)
Definition forward (c : ControlRecord) : Prop := 0 <= addSize c /\ 0 <= seekSize c.

Definition old_inv (s0 : State) (tr : list Event) (s : State) : Prop :=
  match phase s with
  | Failed _ => True
  | p =>
      oldPos s = old_read tr /\
      Z.of_nat (length (pending (oldReader s0))) =
        Z.of_nat (length (pending (oldReader s))) + old_read tr /\
      match p with
      | InAdd i c =>
          exists cs, records_read tr = cs ++ [c] /\ Forall forward cs /\
            0 <= i /\ 0 <= addSize c /\
            old_read tr = old_span cs + Z.min i (addSize c)
      | InCopy i c =>
          exists cs, records_read tr = cs ++ [c] /\ Forall forward cs /\
            0 <= addSize c /\ old_read tr = old_span cs + addSize c
      | InSeek i c =>
          exists cs, records_read tr = cs ++ [c] /\ Forall forward cs /\
            0 <= addSize c /\ 0 <= i /\ 0 <= seekSize c /\
            old_read tr = old_span cs + addSize c + Z.min i (seekSize c)
      | _ =>
          Forall forward (records_read tr) /\
          old_read tr = old_span (records_read tr)
      end
  end.

(** ** A small patch for the examples *)

(** New file of three bytes: two by adding [1] to the first two bytes of
    the old file, one copied from the extra stream. *)
Definition demo_header : Header :=
  {| magic := MAGIC; controlSize := 0; diffSize := 0; newSize := 3 |}.
Definition demo_old : list (list Z) := [[97; 98]; [99; 100]].
Definition demo_control : list (list Z) :=
  [[2; 0; 0; 0; 0; 0; 0; 0; 1; 0; 0; 0]; [0; 0; 0; 0; 0; 0; 0; 0; 0; 0; 0; 0]].
Definition demo_diff : list (list Z) := [[1; 1]].
Definition demo_extra : list (list Z) := [[120]].
Definition demo_entry (b : positive) : State :=
  loop_entry b demo_header demo_old demo_control demo_diff demo_extra.

(** Run while the phase satisfies [inside], for at most [fuel] steps. *)
Fixpoint run_while (buffer_size : positive) (inside : Phase -> bool) (fuel : nat)
    (s : State) : list Event * State :=
  match fuel with
  | O => ([], s)
  | S fuel' =>
      if inside (phase s) then
        match step buffer_size s with
        | None => ([], s)
        | Some (evs, s') =>
            let '(tr, s'') := run_while buffer_size inside fuel' s' in (evs ++ tr, s'')
        end
      else ([], s)
  end.

Definition in_add (p : Phase) : bool :=
  match p with InAdd _ _ => true | _ => false end.

Definition in_copy (p : Phase) : bool :=
  match p with InCopy _ _ => true | _ => false end.

Definition in_seek (p : Phase) : bool :=
  match p with InSeek _ _ => true | _ => false end.

(** ** Sizes of the new file *)

(** The bytes of the new file the records [cs] account for. *)
Definition new_span (cs : list ControlRecord) : Z :=
  foldr (fun c acc => addSize c + copySize c + acc) 0 cs.

(** A record the engine lets through. *)
Definition accepted (c : ControlRecord) : Prop :=
  0 <= addSize c /\ 0 <= copySize c /\ 0 <= seekSize c.

(** What holds of the new file in every state of a run [tr] that has
    not failed: [newPos] is the add and copy sizes of the records decoded
    so far, the current one in part. *)
Definition new_inv (tr : list Event) (s : State) : Prop :=
  match phase s with
  | Failed _ => True
  | AtLoop => Forall accepted (records_read tr) /\ newPos s = new_span (records_read tr)
  | Finished =>
      Forall accepted (records_read tr) /\ newPos s = new_span (records_read tr) /\
      newSize (header s) <= newPos s
  | InAdd i c =>
      exists cs, records_read tr = cs ++ [c] /\ Forall accepted cs /\
        0 <= i /\ 0 <= addSize c /\ newPos s = new_span cs + Z.min i (addSize c)
  | InCopy i c =>
      exists cs, records_read tr = cs ++ [c] /\ Forall accepted cs /\
        0 <= i /\ 0 <= addSize c /\ 0 <= copySize c /\
        newPos s = new_span cs + addSize c + Z.min i (copySize c)
  | InSeek i c =>
      exists cs, records_read tr = cs ++ [c] /\ Forall accepted cs /\
        0 <= addSize c /\ 0 <= copySize c /\ 0 <= seekSize c /\
        newPos s = new_span cs + addSize c + copySize c
  end.

(** ** The header of a patch *)


(** ** Strings as character codes *)

(** The character codes of a string, [s.charCodeAt(i)] for each [i]. *)
Definition codes_of (s : string) : list Z :=
  map (fun c => Z.of_N (N_of_ascii c)) (list_ascii_of_string s).

(** ** Successive reads of the shim *)

Section EmulatedReads.
Context {U : Type}.
Variable upstream_read : U -> option (list Z) * U.

(** [read(destination)] for one destination after the other; the
    results in the order of the calls. *)
Fixpoint emulated_reads (r : Emulated U) (destinations : list (list Z))
  : Emulated U * list ReadResult :=
  match destinations with
  | [] => (r, [])
  | destination :: rest =>
      let '(r', _, res) := emulated_read upstream_read r destination in
      let '(r'', results) := emulated_reads r' rest in
      (r'', res :: results)
  end.

End EmulatedReads.

(** ** Bytes as a number *)

(** The number a run of bytes spells, the first byte weighing most,
    on top of [acc]. *)
Definition big_endian_from (acc : Z) (bytes : list Z) : Z :=
  fold_left (fun acc byte => 256 * acc + byte) bytes acc.

Definition big_endian (bytes : list Z) : Z := big_endian_from 0 bytes.

(** ** asyncIteratorToStream  (lines 8-68) *)

(** The source of the stream: the closure state of [pull] and what one
    call of [pull] does to the iterator and tells the controller.  The
    [ReadableStream] around it belongs to the platform. *)
Module Adapter.

Section AsyncIteratorToStream.

(** [I]: the states of the iterator; [V]: what a promise can resolve
    to; [E]: what can be thrown. *)
Context {I V E : Type}.

(** A promise that has settled: [{ result }] or [{ error }]. *)
Inductive Settled := Resolved (result : V) | RejectedWith (error : E).

(** How the iterator is resumed: [next()], [next(result)] or
    [throw(error)]. *)
Inductive Resume := Next (sent : option V) | Throw (error : E).

(** What a resumed iterator does. *)
Inductive Yield :=
| Done                             (* returns [{ done: true }] *)
| Chunk (chunk : list Z)           (* yields a value with no [then] *)
| Thenable (settles : Settled)     (* yields a promise that settles so *)
| Raises (error : E).              (* throws *)

(** The iterator; [None] when a call does not come back within the
    bound of its model. *)
Variable resume : I -> Resume -> option (Yield * I).

(** [prevSlice], [cursor] and [promiseResult], and the iterator. *)
Record Closure := {
  iterator : I;
  prevSlice : option (list Z);
  cursor : nat;
  promiseResult : option Settled
}.

Definition asyncIteratorToStream (iterator : I) : Closure :=
  {| iterator := iterator; prevSlice := None; cursor := 0; promiseResult := None |}.

(** What [pull] tells the controller: [close()], with [respond(0)] when
    there is a request; [respond(writeAmount)] with the view as written;
    [enqueue(result)]; or the error the call rejects with. *)
Inductive Pulled :=
| Closed (responded : bool)
| Responded (view : list Z) (writeAmount : nat)
| Enqueued (result : list Z)
| Rejects (error : E).

(** The choice of lines 22-24. *)
Definition resumption (promiseResult : option Settled) : Resume :=
  match promiseResult with
  | None => Next None
  | Some (RejectedWith error) => Throw error
  | Some (Resolved result) => Next (Some result)
  end.

Inductive Fetched :=
| FetchedDone
| FetchedChunk (chunk : list Z)
| FetchedRaises (error : E).

(** The [while (true)] loop (lines 20-43), one turn per promise the
    iterator yields. *)
Fixpoint fetch (fuel : nat) (it : I) (promiseResult : option Settled)
  : option (I * option Settled * Fetched) :=
  match fuel with
  | O => None
  | S fuel' =>
      '(y, it') ← resume it (resumption promiseResult);
      match y with
      | Done => Some (it', promiseResult, FetchedDone)
      | Chunk chunk => Some (it', promiseResult, FetchedChunk chunk)
      | Thenable settles => fetch fuel' it' (Some settles)
      | Raises error => Some (it', promiseResult, FetchedRaises error)
      end
  end.

(** Lines 46-58; [cur] is not beyond the end of [slice]. *)
Definition deliver (it : I) (promiseResult : option Settled) (slice : list Z) (cur : nat)
    (byobRequest : option (list Z)) : Closure * Pulled :=
  match byobRequest with
  | Some view =>
      let writeAmount := Nat.min (length slice - cur) (length view) in
      let view' := typed_set view (subarray slice cur (cur + writeAmount)) in
      ({| iterator := it; prevSlice := Some slice; cursor := cur + writeAmount;
          promiseResult := promiseResult |},
       Responded view' writeAmount)
  | None =>
      ({| iterator := it; prevSlice := None; cursor := 0;
          promiseResult := promiseResult |},
       Enqueued (subarray slice cur (length slice)))
  end.

(** Lines 18-44 when [prevSlice] is used up. *)
Definition renew (fuel : nat) (st : Closure) (byobRequest : option (list Z))
  : option (Closure * Pulled) :=
  '(it, promiseResult, fetched) ← fetch fuel (iterator st) (promiseResult st);
  match fetched with
  | FetchedDone =>
      Some ({| iterator := it; prevSlice := None; cursor := cursor st;
               promiseResult := promiseResult |},
            Closed (match byobRequest with Some _ => true | None => false end))
  | FetchedChunk chunk => Some (deliver it promiseResult chunk 0 byobRequest)
  | FetchedRaises error =>
      Some ({| iterator := it; prevSlice := None; cursor := cursor st;
               promiseResult := promiseResult |},
            Rejects error)
  end.

(** [pull(controller)]; [byobRequest] is the view of
    [controller.byobRequest], if there is one. *)
Definition pull (fuel : nat) (st : Closure) (byobRequest : option (list Z))
  : option (Closure * Pulled) :=
  match prevSlice st with
  | None => renew fuel st byobRequest
  | Some slice =>
      if (length slice <=? cursor st)%nat then renew fuel st byobRequest
      else Some (deliver (iterator st) (promiseResult st) slice (cursor st) byobRequest)
  end.

(** One call of [pull] after the other; a call that rejects ends the
    stream. *)
Fixpoint pulls (fuel : nat) (st : Closure) (requests : list (option (list Z)))
  : option (Closure * list Pulled) :=
  match requests with
  | [] => Some (st, [])
  | request :: rest =>
      '(st', out) ← pull fuel st request;
      match out with
      | Rejects _ => Some (st', [out])
      | _ => '(st'', outs) ← pulls fuel st' rest; Some (st'', out :: outs)
      end
  end.

(** The bytes a call hands to the consumer. *)
Definition delivered (out : Pulled) : list Z :=
  match out with
  | Responded view writeAmount => take writeAmount view
  | Enqueued result => result
  | _ => []
  end.

(** The bytes of [prevSlice] not handed out yet. *)
Definition unread (st : Closure) : list Z :=
  match prevSlice st with
  | Some slice => drop (cursor st) slice
  | None => []
  end.

(** [produces fuel it promiseResult chunks]: turn after turn of the
    loop of [pull], the iterator hands over [chunks], with any promises
    in between, and then is done and stays so. *)
Fixpoint produces (fuel : nat) (it : I) (promiseResult : option Settled)
    (chunks : list (list Z)) : Prop :=
  match chunks with
  | [] =>
      exists it' promiseResult',
        fetch fuel it promiseResult = Some (it', promiseResult', FetchedDone) /\
        fetch fuel it' promiseResult' = Some (it', promiseResult', FetchedDone)
  | chunk :: rest =>
      exists it' promiseResult',
        fetch fuel it promiseResult = Some (it', promiseResult', FetchedChunk chunk) /\
        produces fuel it' promiseResult' rest
  end.

(** The iterator under observation: with it goes a record of the calls
    made to it, how each resumed it and what it did. *)
Definition recording (it : I * list (Resume * Yield)) (how : Resume)
  : option (Yield * (I * list (Resume * Yield))) :=
  '(y, it') ← resume it.1 how;
  Some (y, (it', it.2 ++ [(how, y)])).

(** What the last promise among the calls of [log] settled to, or
    [promiseResult] when none of them yielded a promise. *)
Fixpoint settled_after (promiseResult : option Settled) (log : list (Resume * Yield))
  : option Settled :=
  match log with
  | [] => promiseResult
  | (_, Thenable settles) :: rest => settled_after (Some settles) rest
  | _ :: rest => settled_after promiseResult rest
  end.

(** Every call of [log] resumes the iterator as lines 22-24 have it for
    what the last promise before the call settled to. *)
Fixpoint well_resumed (promiseResult : option Settled) (log : list (Resume * Yield))
  : Prop :=
  match log with
  | [] => True
  | (how, y) :: rest =>
      how = resumption promiseResult /\
      well_resumed (settled_after promiseResult [(how, y)]) rest
  end.

End AsyncIteratorToStream.

Arguments Settled : clear implicits.
Arguments Resume : clear implicits.
Arguments Yield : clear implicits.
Arguments Closure : clear implicits.
Arguments Pulled : clear implicits.
Arguments Fetched : clear implicits.

(** The closure of a recorded iterator without the record. *)
Definition unrecorded {I V E : Type}
    (st : Closure (I * list (Resume V E * Yield V E)) V E) : Closure I V E :=
  {| iterator := (iterator st).1; prevSlice := prevSlice st; cursor := cursor st;
     promiseResult := promiseResult st |}.

(** The iterator of an array of typed arrays,
    [[typedArray][Symbol.iterator]()] in [typedArrayStreamReader]
    (line 216): the elements in order.  It has no [throw] method, so
    that call fails. *)
Definition array_iterator (elements : list (list Z)) (how : Resume unit unit)
  : option (Yield unit unit * list (list Z)) :=
  match how with
  | Next _ =>
      match elements with
      | [] => Some (Done, [])
      | element :: rest => Some (Chunk element, rest)
      end
  | Throw _ => Some (Raises tt, elements)
  end.

End Adapter.

(** ** bzip2 and bzip2Stream  (lines 102-123) *)

(** What the promises of the generator resolve to: a number (the size
    from [header], the bits from [readBits], the [-1] of [decompress])
    or a string, given by its char codes. *)
Inductive Resolution :=
| Number (z : Z)
| Text (codes : list Z).

(** [block[i] = chunk.charCodeAt(i)] for every [i] below
    [chunk.length] (lines 110-113): a store into a [Uint8Array] keeps
    the low eight bits. *)
Definition block_of (codes : list Z) : list Z :=
  map (fun code => code `mod` 256) codes.

Section Bzip2.
Context {R E : Type}.
Variable reader_read : R -> list Z -> R * list Z * ReadResult.

(** The decoder of the package [bzip2-async], which is not part of this
    repository: [header(bitReader)] and [decompress(bitReader, size)],
    each with what its promise settles to and the bit reader as the
    call leaves it. *)
Variable header : BitReader R -> Adapter.Settled Resolution E * BitReader R.
Variable decompress :
  BitReader R -> option Resolution -> Adapter.Settled Resolution E * BitReader R.

(** The [TypeError] of the language. *)
Variable TypeError : E.

(** The generator, by where it is suspended. *)
Inductive Bzip2 :=
| BzStart (streamReader : R)                                  (* not started *)
| BzAtHeader (bitReader : BitReader R)                        (* line 105 *)
| BzAtDecompress (bitReader : BitReader R) (size : option Resolution)  (* line 108 *)
| BzAtBlock (bitReader : BitReader R) (size : option Resolution)       (* line 114 *)
| BzAtCRC (bitReader : BitReader R)                           (* line 118 *)
| BzReturned (bitReader : option (BitReader R)).              (* over *)

Definition bzip2 (streamReader : R) : Bzip2 := BzStart streamReader.

(** The bit reader a generator holds, once it has started. *)
Definition bitReader_of (g : Bzip2) : option (BitReader R) :=
  match g with
  | BzStart _ => None
  | BzAtHeader bitReader | BzAtDecompress bitReader _ | BzAtBlock bitReader _
  | BzAtCRC bitReader => Some bitReader
  | BzReturned bitReader => bitReader
  end.

(** The head of the [while (true)] loop: [yield decompress(bitReader, size)]. *)
Definition bzip2_decompress (bitReader : BitReader R) (size : option Resolution)
  : option (Adapter.Yield Resolution E * Bzip2) :=
  let '(settles, bitReader') := decompress bitReader size in
  Some (Adapter.Thenable settles, BzAtDecompress bitReader' size).

(** The generator resumed: [sent] is the value of the [yield] it was
    suspended at, [None] for [undefined]; an error thrown into it is
    not caught. *)
Definition bzip2_resume (g : Bzip2) (how : Adapter.Resume Resolution E)
  : option (Adapter.Yield Resolution E * Bzip2) :=
  match how with
  | Adapter.Throw error => Some (Adapter.Raises error, BzReturned (bitReader_of g))
  | Adapter.Next sent =>
      match g with
      | BzStart streamReader =>
          let bitReader := bitReaderFromStreamReader streamReader in
          let '(settles, bitReader') := header bitReader in
          Some (Adapter.Thenable settles, BzAtHeader bitReader')
      | BzAtHeader bitReader => bzip2_decompress bitReader sent
      | BzAtDecompress bitReader size =>
          match sent with
          | None =>
              (* [undefined.length] *)
              Some (Adapter.Raises TypeError, BzReturned (Some bitReader))
          | Some (Number chunk) =>
              if chunk =? -1 then
                '(bitReader', bits) ← readBits reader_read bitReader (8 * 4);
                Some (Adapter.Thenable (Adapter.Resolved (Number bits)),
                      BzAtCRC bitReader')
              else
                (* a number has no [length]: [new Uint8Array(undefined)] *)
                Some (Adapter.Chunk (new_Uint8Array 0), BzAtBlock bitReader size)
          | Some (Text codes) =>
              Some (Adapter.Chunk (block_of codes), BzAtBlock bitReader size)
          end
      | BzAtBlock bitReader size => bzip2_decompress bitReader size
      | BzAtCRC bitReader => Some (Adapter.Done, BzReturned (Some bitReader))
      | BzReturned bitReader => Some (Adapter.Done, BzReturned bitReader)
      end
  end.

Definition bzip2Stream (streamReader : R) : Adapter.Closure Bzip2 Resolution E :=
  Adapter.asyncIteratorToStream (bzip2 streamReader).

(** [decodes bitReader size chunks bitReader']: called again and again,
    [decompress] returns the strings [chunks] and then [-1], and leaves
    the bit reader as [bitReader']. *)
Fixpoint decodes (bitReader : BitReader R) (size : option Resolution)
    (chunks : list (list Z)) (bitReader' : BitReader R) : Prop :=
  match chunks with
  | [] => decompress bitReader size = (Adapter.Resolved (Number (-1)), bitReader')
  | codes :: rest =>
      exists bitReader1,
        decompress bitReader size = (Adapter.Resolved (Text codes), bitReader1) /\
        decodes bitReader1 size rest bitReader'
  end.

End Bzip2.

Arguments Bzip2 : clear implicits.

(** A toy decoder for the examples, over the bytes of a list of chunks:
    the header is empty and resolves to [0]; each block is one byte of
    input, a zero byte or the end of the input ends the stream, any
    other byte [x] decodes to the one-character string of code
    [x + 256]. *)
Definition demo_bz_header (bitReader : BitReader Reader)
  : Adapter.Settled Resolution unit * BitReader Reader :=
  (Adapter.Resolved (Number 0), bitReader).

Definition demo_bz_decompress (bitReader : BitReader Reader) (size : option Resolution)
  : Adapter.Settled Resolution unit * BitReader Reader :=
  match readBits (emulated_read chunks_read) bitReader 8 with
  | Some (bitReader', byte) =>
      if (byte =? 0) || (byte =? -1)
      then (Adapter.Resolved (Number (-1)), bitReader')
      else (Adapter.Resolved (Text [byte + 256]), bitReader')
  | None => (Adapter.RejectedWith tt, bitReader)
  end.

(** ** Control records as the format writes them *)

Definition format_control_of_bytes (data : list Z) : ControlRecord :=
  {| addSize := sign_magnitude64 data (0 * 8);
     copySize := sign_magnitude64 data (1 * 8);
     seekSize := sign_magnitude64 data (2 * 8) |}.

Fixpoint format_control_records (count : nat) (control : list Z) : list ControlRecord :=
  match count with
  | O => []
  | S count' =>
      format_control_of_bytes (take 24 control) ::
      format_control_records count' (drop 24 control)
  end.

(** The whole records of a control stream in the sign-magnitude
    convention of the format. *)
Definition format_records (control : list Z) : list ControlRecord :=
  format_control_records (length control / 24) control.

(** A size from [0] to [2 ^ 31 - 1], and a record of three such: a
    record of a patch for files of less than two gigabytes that never
    goes back in the old file. *)
Definition plain_size (z : Z) : Prop := 0 <= z < 2 ^ 31.

Definition plain (c : ControlRecord) : Prop :=
  plain_size (addSize c) /\ plain_size (copySize c) /\ plain_size (seekSize c).

(** ** A patch with a seek, for the examples *)

(** New file of two bytes from an old file of four: the first old byte
    plus [1], a seek over the next two, the fourth old byte plus [1]. *)
Definition seek_header : Header :=
  {| magic := MAGIC; controlSize := 0; diffSize := 0; newSize := 2 |}.
Definition seek_control : list (list Z) :=
  [[1; 0; 0; 0; 0; 0; 0; 0;  0; 0; 0; 0; 0; 0; 0; 0;  2; 0; 0; 0; 0; 0; 0; 0];
   [1; 0; 0; 0; 0; 0; 0; 0;  0; 0; 0; 0; 0; 0; 0; 0;  0; 0; 0; 0; 0; 0; 0; 0]].
Definition seek_entry (b : positive) : State :=
  loop_entry b seek_header demo_old seek_control demo_diff [].

(** A control stream of one record that adds and copies nothing and
    whose seek field is [seek]. *)
Definition seek_only (seek : list Z) : list (list Z) :=
  [[0; 0; 0; 0; 0; 0; 0; 0;  0; 0; 0; 0; 0; 0; 0; 0] ++ seek].

(** * Properties *)

(** ** The integer decoder *)

Example getInt64_small : getInt64 [7; 1; 0; 0; 0; 0; 0; 0] 0 = 263.
Proof. reflexivity. Qed.

(** The shift counts [4 * 8] to [7 * 8] are taken modulo 32, so the
    upper four bytes land on the lower four. *)
Example getInt64_high_bytes_fold : getInt64 [0; 0; 0; 0; 1; 0; 0; 0] 0 = 1.
Proof. reflexivity. Qed.

(** With bit 0 of the eighth byte set the result is negated, whatever
    bit [0x80] is. *)
Example getInt64_low_bit_negates : getInt64 [1; 0; 0; 0; 0; 0; 0; 1] 0 = -16777217.
Proof. reflexivity. Qed.

(** C1. The claim: for every 8-byte input [getInt64] decodes the
    sign-magnitude integer of the wire format, negating exactly when bit
    [0x80] of the eighth byte is set.  On the bytes
    [01 00 00 00 00 00 00 80], which encode -1, the code returns [1]: the
    test [bytes[offset + 7] & 0x80 != 0] groups as
    [bytes[offset + 7] & (0x80 != 0)] and so looks at bit 0. *)
Theorem getInt64_misses_sign_bit :
  getInt64 [1; 0; 0; 0; 0; 0; 0; 0x80] 0 = 1 /\
  sign_magnitude64 [1; 0; 0; 0; 0; 0; 0; 0x80] 0 = -1.
Proof. split; reflexivity. Qed.

(** ** Lists as typed arrays *)

Lemma subarray_length (a : list Z) (from to : nat) :
  (to <= length a)%nat -> length (subarray a from to) = (to - from)%nat.
Proof. intros H. unfold subarray. rewrite length_take, length_drop. lia. Qed.

Lemma subarray_0 (a : list Z) (n : nat) : subarray a 0 n = take n a.
Proof. unfold subarray. rewrite drop_0. f_equal. lia. Qed.


Lemma typed_set_fits (dest src : list Z) :
  (length src <= length dest)%nat ->
  typed_set dest src = src ++ drop (length src) dest.
Proof.
  intros H. unfold typed_set. apply take_ge.
  rewrite length_app, length_drop. lia.
Qed.

Lemma take_min_length (n : nat) (l : list Z) :
  take (n `min` length l) l = take n l.
Proof.
  destruct (Nat.min_spec n (length l)) as [[_ ->] | [Hle ->]]; [reflexivity |].
  rewrite !take_ge; [reflexivity | lia | lia].
Qed.

(** ** The reader shim *)

Section EmulateBYOBFacts.
Context {U : Type} (upstream_read : U -> option (list Z) * U).

Lemma copy_out_spec (u : U) (b : list Z) (off : nat) (destination : list Z) :
  (off <= length b)%nat ->
  copy_out u b off destination =
    ({| upstream := u; buffer := Some b;
        offset := off + length (take (length destination) (drop off b)) |},
     take (length destination) (drop off b) ++
       drop (length (take (length destination) (drop off b))) destination,
     {| done := false; value := take (length destination) (drop off b) |}).
Proof.
  intros Hoff. unfold copy_out.
  set (k := Nat.min (length destination) (length b - off)).
  assert (Hk : length (take (length destination) (drop off b)) = k).
  { rewrite length_take, length_drop. reflexivity. }
  assert (Hsub : subarray b off (off + k) = take (length destination) (drop off b)).
  { unfold subarray. replace (off + k - off)%nat with k by lia.
    subst k. destruct (Nat.min_spec (length destination) (length b - off)) as [[_ ->] | [Hle ->]].
    - reflexivity.
    - rewrite !take_ge; [reflexivity | |]; rewrite length_drop; lia. }
  rewrite Hsub, Hk.
  rewrite typed_set_fits by (rewrite Hk; subst k; lia).
  rewrite Hk. f_equal. f_equal.
  rewrite subarray_0, take_app_le by lia.
  rewrite take_ge by lia. reflexivity.
Qed.


Lemma drop_empty_ge (b : list Z) (off : nat) :
  drop off b = [] -> (length b <= off)%nat.
Proof.
  intros H. apply (f_equal length) in H. rewrite length_drop in H. simpl in H. lia.
Qed.

Lemma drop_min_length (n : nat) (l : list Z) :
  drop (n `min` length l) l = drop n l.
Proof.
  destruct (Nat.min_spec n (length l)) as [[_ ->] | [Hle ->]]; [reflexivity |].
  rewrite !drop_ge; [reflexivity | lia | lia].
Qed.

Lemma refill_spec (r : Emulated U) (destination : list Z) :
  refill upstream_read r destination =
    match (upstream_read (upstream r)).1 with
    | None =>
        ({| upstream := (upstream_read (upstream r)).2; buffer := None;
            offset := offset r |},
         destination, {| done := true; value := [] |})
    | Some chunk =>
        ({| upstream := (upstream_read (upstream r)).2; buffer := Some chunk;
            offset := length (take (length destination) chunk) |},
         take (length destination) chunk ++
           drop (length (take (length destination) chunk)) destination,
         {| done := false; value := take (length destination) chunk |})
    end.
Proof.
  unfold refill. destruct (upstream_read (upstream r)) as [[chunk |] u']; simpl.
  - rewrite copy_out_spec by lia. rewrite drop_0. reflexivity.
  - reflexivity.
Qed.

(** What one [read] of the shim does, by whether the pending chunk has
    bytes left. *)
Lemma emulated_read_cases (r : Emulated U) (destination : list Z) :
  offset_ok r ->
  let '(r', destination', res) := emulated_read upstream_read r destination in
  offset_ok r' /\
  destination' = value res ++ drop (length (value res)) destination /\
  match pending_chunk r with
  | _ :: _ =>
      upstream r' = upstream r /\ done res = false /\
      value res = take (length destination) (pending_chunk r) /\
      pending_chunk r' = drop (length destination) (pending_chunk r)
  | [] =>
      upstream r' = (upstream_read (upstream r)).2 /\
      match (upstream_read (upstream r)).1 with
      | None => done res = true /\ value res = [] /\ pending_chunk r' = []
      | Some chunk =>
          done res = false /\
          value res = take (length destination) chunk /\
          pending_chunk r' = drop (length destination) chunk
      end
  end.
Proof.
  intros Hok. unfold emulated_read, offset_ok, pending_chunk in *.
  destruct (buffer r) as [b |] eqn:Hb.
  - destruct (Nat.eqb_spec (length b) (offset r)) as [Heq | Hne].
    + rewrite refill_spec. rewrite <- Heq, drop_all.
      destruct (upstream_read (upstream r)).1 as [chunk |]; simpl.
      * rewrite length_take. repeat split; try lia. apply drop_min_length.
      * repeat split.
    + rewrite copy_out_spec by lia. simpl.
      destruct (drop (offset r) b) as [| x rest] eqn:Hd.
      { apply drop_empty_ge in Hd. lia. }
      rewrite <- Hd. rewrite length_take, length_drop.
      repeat split; try lia.
      rewrite drop_drop, <- (length_drop b (offset r)).
      rewrite <- !drop_drop. apply drop_min_length.
  - rewrite refill_spec.
    destruct (upstream_read (upstream r)).1 as [chunk |]; simpl.
    * rewrite length_take. repeat split; try lia. apply drop_min_length.
    * repeat split.
Qed.

(** C5, as the code has it.  One [read] of the shim for a destination
    of K bytes pulls the upstream reader at most once: when the pending
    chunk has bytes left it copies min(K, bytes left) of them and does
    not touch the upstream reader; otherwise it pulls exactly once and
    either reports completion with no bytes (upstream reported
    completion) or copies min(K, length of the new chunk) bytes.  It
    never pulls again to fill the room left in the destination, and it
    reports completion only when the upstream reader does. *)
Theorem emulated_read_pulls_at_most_once (r : Emulated U) (destination : list Z) :
  offset_ok r ->
  let '(r', destination', res) := emulated_read upstream_read r destination in
  offset_ok r' /\
  destination' = value res ++ drop (length (value res)) destination /\
  (upstream r' = upstream r \/ upstream r' = (upstream_read (upstream r)).2) /\
  (done res = true -> (upstream_read (upstream r)).1 = None /\ value res = []) /\
  match pending_chunk r with
  | _ :: _ =>
      upstream r' = upstream r /\ done res = false /\
      value res = take (length destination) (pending_chunk r) /\
      length (value res) = (length destination `min` length (pending_chunk r))%nat /\
      pending_chunk r' = drop (length destination) (pending_chunk r)
  | [] =>
      upstream r' = (upstream_read (upstream r)).2 /\
      match (upstream_read (upstream r)).1 with
      | None => done res = true /\ value res = [] /\ pending_chunk r' = []
      | Some chunk =>
          done res = false /\
          value res = take (length destination) chunk /\
          length (value res) = (length destination `min` length chunk)%nat /\
          pending_chunk r' = drop (length destination) chunk
      end
  end.
Proof.
  intros Hok. pose proof (emulated_read_cases r destination Hok) as H.
  destruct (emulated_read upstream_read r destination) as [[r' destination'] res].
  destruct H as (Hok' & Hdest & H).
  split; [exact Hok' |]. split; [exact Hdest |].
  destruct (pending_chunk r) as [| x rest].
  - destruct H as (Hup & H).
    destruct (upstream_read (upstream r)).1 as [chunk |].
    + destruct H as (Hdone & Hv & Hpc).
      split; [by right |]. split; [congruence |].
      repeat split; try done. by rewrite Hv, length_take.
    + destruct H as (Hdone & Hv & Hpc).
      split; [by right |]. split; [done |]. done.
  - destruct H as (Hup & Hdone & Hv & Hpc).
    split; [by left |]. split; [congruence |].
    repeat split; try done. by rewrite Hv, length_take.
Qed.

End EmulateBYOBFacts.

(** C5.  The claim has a single [read] of the shim fill the destination
    across chunks.  With the chunks [[1]] and [[2]] upstream and a
    destination of two bytes the call returns one byte and leaves the
    second chunk with the upstream reader. *)
Lemma emulated_read_stops_at_chunk_end :
  let '(r', destination', res) :=
    emulated_read chunks_read (emulateBYOB [[1]; [2]]) [0; 0] in
  done res = false /\ value res = [1] /\ destination' = [1; 0] /\
  upstream r' = [[2]] /\ length (value res) <> 2%nat.
Proof. simpl. repeat split. discriminate. Qed.

Lemma emulated_read_pulls_at_most_once_witness :
  offset_ok (emulateBYOB [[1]; [2]]) /\
  let '(r', destination', res) :=
    emulated_read chunks_read (emulateBYOB [[1]; [2]]) [0; 0] in
  upstream r' = [[2]] /\ done res = false /\ value res = [1] /\
  length (value res) = 1%nat /\ pending_chunk r' = [].
Proof.
  split; [exact I |].
  pose proof (emulated_read_pulls_at_most_once chunks_read (emulateBYOB [[1]; [2]])
                [0; 0] I) as H.
  destruct (emulated_read chunks_read (emulateBYOB [[1]; [2]]) [0; 0])
    as [[r' destination'] res].
  destruct H as (_ & _ & _ & _ & Hup & Hdone & Hv & Hlen & Hpc).
  repeat split; assumption.
Defined.

(** ** [read] over a finite list of chunks *)

Lemma pending_split (r : Reader) : pending r = pending_chunk r ++ concat (upstream r).
Proof. unfold pending, pending_chunk. destruct (buffer r); reflexivity. Qed.

(** One call of the shim, in terms of the bytes the reader has yet to
    deliver: it hands over a prefix of them, and when it hands over
    nothing it has at least used up a chunk. *)
Lemma reader_read_step (r : Reader) (destination : list Z) :
  offset_ok r ->
  let '(r', destination', res) := emulated_read chunks_read r destination in
  offset_ok r' /\
  destination' = value res ++ drop (length (value res)) destination /\
  (length (value res) <= length destination)%nat /\
  (length (upstream r') <= length (upstream r))%nat /\
  if done res
  then pending r = [] /\ pending r' = [] /\ value res = []
  else value res = take (length (value res)) (pending r) /\
       (length (value res) <= length (pending r))%nat /\
       pending r' = drop (length (value res)) (pending r) /\
       ((0 < length destination)%nat -> length (value res) = 0%nat ->
        (length (upstream r') < length (upstream r))%nat).
Proof.
  intros Hok.
  pose proof (emulated_read_cases chunks_read r destination Hok) as H.
  destruct (emulated_read chunks_read r destination) as [[r' destination'] res].
  destruct H as (Hok' & Hdest & H). subst destination'.
  rewrite !pending_split.
  destruct (pending_chunk r) as [| x rest] eqn:Hpc.
  - destruct H as (Hup & H). unfold chunks_read in *.
    destruct (upstream r) as [| chunk chunks] eqn:Hu; simpl in *.
    + destruct H as (-> & Hv & Hpc'). rewrite Hup, Hv, Hpc'. simpl.
      repeat split; try lia; try done.
    + destruct H as (-> & Hv & Hpc'). rewrite Hup, Hv, Hpc', length_take.
      repeat split; try lia; try done.
      * rewrite take_app_le by lia. symmetry. apply take_min_length.
      * rewrite length_app. lia.
      * rewrite drop_app_le by lia. f_equal. symmetry. apply drop_min_length.
  - destruct H as (Hup & -> & Hv & Hpc'). rewrite Hup, Hv, Hpc', length_take.
    repeat split; try lia; try done.
    + rewrite take_app_le by lia. symmetry. apply take_min_length.
    + rewrite length_app. lia.
    + rewrite drop_app_le by lia. f_equal. symmetry. apply drop_min_length.
    + intros Hd Hz. simpl in Hz. lia.
Qed.

Lemma write_through_length (buf d : list Z) (off : nat) :
  (off + length d <= length buf)%nat ->
  length (take off buf ++ d ++ drop (off + length d) buf) = length buf.
Proof.
  intros H. rewrite !length_app, length_take, length_drop. lia.
Qed.

Lemma fill_more (P v D C pend : list Z) (off k e : nat) :
  length P = off -> length v = k -> length (v ++ D) = (e - off)%nat ->
  (off <= e)%nat -> v = take k pend ->
  take (off + k) (P ++ v ++ D ++ C) ++ take (e - (off + k)) (drop k pend) ++
    drop e (P ++ v ++ D ++ C) =
  P ++ take (e - off) pend ++ C.
Proof.
  intros HP Hv HvD Hoff Hvp.
  rewrite take_app_add' by done.
  rewrite (take_app_length' v) by done.
  assert (Hk : (k <= e - off)%nat) by (rewrite length_app in HvD; lia).
  replace (P ++ v ++ D ++ C) with ((P ++ v ++ D) ++ C)
    by (rewrite <- !app_assoc; reflexivity).
  rewrite drop_app_length' by (rewrite length_app; lia).
  rewrite <- !app_assoc. f_equal. rewrite app_assoc. f_equal.
  rewrite Hvp at 1. rewrite take_take_drop. f_equal. lia.
Qed.

(** [read] fills [buf] from [off] to [end_] with the next bytes of the
    reader, or throws when the reader has too few; the fuel of
    [read_fuel] is always enough. *)
Lemma read_spec (fuel : nat) (r : Reader) (buf : list Z) (off end_ : nat) :
  offset_ok r -> (off <= end_)%nat -> (end_ <= length buf)%nat ->
  ((end_ - off) + length (upstream r) < fuel)%nat ->
  exists r' buf' err,
    read chunks_read fuel r buf off end_ = Some (r', buf', err) /\
    offset_ok r' /\ length buf' = length buf /\
    (((end_ - off <= length (pending r))%nat /\ err = None /\
      buf' = take off buf ++ take (end_ - off) (pending r) ++ drop end_ buf /\
      pending r' = drop (end_ - off) (pending r)) \/
     ((length (pending r) < end_ - off)%nat /\ err = Some UnexpectedEOF)).
Proof.
  revert r buf off.
  induction fuel as [| fuel IH]; intros r buf off Hok Hoff Hend Hfuel; [lia |].
  simpl. destruct (Nat.leb_spec end_ off) as [Hle | Hlt].
  - exists r, buf, None. repeat split; try done. left.
    replace (end_ - off)%nat with 0%nat by lia.
    assert (off = end_) as -> by lia.
    rewrite take_0, drop_0. simpl. rewrite take_drop. repeat split; lia.
  - pose proof (reader_read_step r (subarray buf off end_) Hok) as Hstep.
    destruct (emulated_read chunks_read r (subarray buf off end_))
      as [[r1 d1] res].
    rewrite subarray_length in Hstep by lia.
    destruct Hstep as (Hok1 & Hd1 & Hvlen & Hups & Hres).
    assert (Hd1len : length d1 = (end_ - off)%nat).
    { rewrite Hd1, length_app, length_drop, subarray_length by lia. lia. }
    destruct (done res).
    + destruct Hres as (Hp & Hp1 & Hv).
      eexists _, _, _. split; [reflexivity |].
      split; [done |]. split; [apply write_through_length; lia |].
      right. rewrite Hp. simpl. split; [lia | done].
    + destruct Hres as (Hv & Hvle & Hp1 & Hprog).
      set (buf1 := take off buf ++ d1 ++ drop (off + length d1) buf).
      assert (Hbuf1 : length buf1 = length buf)
        by (apply write_through_length; lia).
      assert (Hfuel1 : (end_ - (off + length (value res)) + length (upstream r1) < fuel)%nat).
      { destruct (length (value res)) eqn:Hz; [| lia].
        specialize (Hprog ltac:(lia) eq_refl). lia. }
      destruct (IH r1 buf1 (off + length (value res))%nat Hok1 ltac:(lia) ltac:(lia) Hfuel1)
        as (r' & buf' & err & Hread & Hok' & Hlen' & Hcases).
      exists r', buf', err. split; [exact Hread |].
      split; [done |]. split; [lia |].
      destruct Hcases as [(Hle' & -> & Hbuf' & Hpend') | (Hlt' & ->)].
      * left. rewrite Hp1, length_drop in Hle'.
        split; [lia |]. split; [done |]. split.
        -- rewrite Hbuf', Hp1. subst buf1.
           rewrite Hd1len.
           replace (off + (end_ - off))%nat with end_ by lia.
           rewrite Hd1.
           rewrite <- !app_assoc.
           apply fill_more; try done; try lia.
           ++ rewrite length_take. lia.
           ++ rewrite <- Hd1. lia.
        -- rewrite Hpend', Hp1, drop_drop. f_equal. lia.
      * right. rewrite Hp1, length_drop in Hlt'. split; [lia | done].
Qed.

Lemma read_chunks_spec (r : Reader) (buf : list Z) (n : nat) :
  offset_ok r -> (n <= length buf)%nat ->
  exists r' buf' err,
    read_chunks r buf 0 n = Some (r', buf', err) /\
    offset_ok r' /\ length buf' = length buf /\
    (((n <= length (pending r))%nat /\ err = None /\
      buf' = take n (pending r) ++ drop n buf /\
      pending r' = drop n (pending r)) \/
     ((length (pending r) < n)%nat /\ err = Some UnexpectedEOF)).
Proof.
  intros Hok Hn. unfold read_chunks, read_fuel.
  destruct (read_spec (S (n - 0 + length (upstream r))) r buf 0 n Hok
              ltac:(lia) Hn ltac:(lia))
    as (r' & buf' & err & Hread & Hok' & Hlen & Hcases).
  exists r', buf', err. rewrite Nat.sub_0_r in *. rewrite take_0 in Hcases.
  repeat split; done.
Qed.

(** ** The byte-wise sum *)

Lemma add_from_spec (count : nat) (left right : list Z) (i : nat) :
  (i + count <= length left)%nat -> (i + count <= length right)%nat ->
  add_from count left right i =
    take i left ++
    zip_with add8 (take count (drop i left)) (take count (drop i right)) ++
    drop (i + count) left.
Proof.
  revert left i. induction count as [| count IH]; intros left i Hl Hr; simpl.
  - rewrite Nat.add_0_r, take_drop. reflexivity.
  - destruct (lookup_lt_is_Some_2 left i ltac:(lia)) as [a Ha].
    destruct (lookup_lt_is_Some_2 right i ltac:(lia)) as [b Hb].
    rewrite IH by (rewrite ?length_insert; lia).
    unfold add_at, at_index. rewrite Ha, Hb. simpl.
    rewrite (drop_S left a i Ha), (drop_S right b i Hb). simpl.
    rewrite insert_take_drop by lia.
    assert (HP : length (take i left ++ [(a + b) `mod` 256]) = S i)
      by (rewrite length_app, length_take; simpl; lia).
    replace (take i left ++ (a + b) `mod` 256 :: drop (S i) left)
      with ((take i left ++ [(a + b) `mod` 256]) ++ drop (S i) left)
      by (rewrite <- app_assoc; reflexivity).
    rewrite take_app_length' by done.
    rewrite drop_app_length' by done.
    replace (S (i + count)) with (S i + count)%nat by lia.
    rewrite drop_app_add' by done.
    rewrite drop_drop. rewrite <- !app_assoc. simpl.
    replace (i + S count)%nat with (S (i + count)) by lia. reflexivity.
Qed.

Lemma add_spec (left right : list Z) (n : nat) :
  (n <= length left)%nat -> (n <= length right)%nat ->
  add left right 0 n =
    zip_with add8 (take n left) (take n right) ++ drop n left.
Proof.
  intros Hl Hr. unfold add. rewrite Nat.sub_0_r.
  rewrite add_from_spec by lia. rewrite take_0, !drop_0. reflexivity.
Qed.

Lemma add_length (left right : list Z) (n : nat) :
  (n <= length left)%nat -> (n <= length right)%nat ->
  length (add left right 0 n) = length left.
Proof.
  intros Hl Hr. rewrite add_spec by lia.
  rewrite length_app, length_zip_with, !length_take, length_drop. lia.
Qed.

(** ** Control records *)

Lemma readControlHeader_spec (r : Reader) :
  offset_ok r ->
  exists r' res,
    readControlHeader r = Some (r', res) /\ offset_ok r' /\
    (((24 <= length (pending r))%nat /\
      res = inr (control_of_bytes (take 24 (pending r))) /\
      pending r' = drop 24 (pending r)) \/
     ((length (pending r) < 24)%nat /\ res = inl UnexpectedEOF)).
Proof.
  intros Hok. unfold readControlHeader.
  destruct (read_chunks_spec r (new_Uint8Array 24) 24 Hok)
    as (r' & buf' & err & Hread & Hok' & Hlen & Hcases).
  { unfold new_Uint8Array. rewrite length_replicate. lia. }
  change (length (new_Uint8Array 24)) with 24%nat.
  rewrite Hread. simpl.
  destruct Hcases as [(Hle & -> & Hbuf & Hpend) | (Hlt & ->)].
  - eexists _, _. split; [reflexivity |]. split; [done |]. left.
    repeat split; try done.
    rewrite Hbuf. change (drop 24 (new_Uint8Array 24)) with (@nil Z).
    rewrite app_nil_r. reflexivity.
  - eexists _, _. split; [reflexivity |]. split; [done |]. right. done.
Qed.

Lemma records_of_short (control : list Z) :
  (length control < 24)%nat -> records_of control = [].
Proof.
  intros H. unfold records_of. rewrite Nat.div_small by lia. reflexivity.
Qed.

Lemma records_of_next (control : list Z) :
  (24 <= length control)%nat ->
  records_of control =
    control_of_bytes (take 24 control) :: records_of (drop 24 control).
Proof.
  intros H. unfold records_of. rewrite length_drop.
  replace (length control) with ((length control - 24) + 1 * 24)%nat at 1 by lia.
  rewrite Nat.div_add by lia. rewrite Nat.add_1_r. reflexivity.
Qed.

(** ** The steps of the engine *)

Lemma step_cases (b : positive) (s : State) :
  state_ok b s ->
  exists evs s', step b s = Some (evs, s') /\ Step b s evs s'.
Proof.
  intros (Hold & Hctl & Hdiff & Hextra & Ht1 & Ht2).
  unfold step. destruct (phase s) as [| i c | i c | i c | | e] eqn:Hph.
  - unfold step_loop. destruct (Z.ltb_spec (newPos s) (newSize (header s))) as [Hlt | Hge].
    + destruct (readControlHeader_spec (controlReader s) Hctl)
        as (cr & res & Hread & Hokc & Hcases).
      rewrite Hread. simpl.
      destruct Hcases as [(Hlen & -> & Hpend) | (Hlen & ->)].
      * eexists _, _. split; [| eapply (Step_control b s cr); try done].
        simpl.
        destruct ((newSize (header s) <? newPos s + _) || _); reflexivity.
      * eexists _, _. split; [reflexivity |]. by apply Step_control_eof.
    + eexists _, _. split; [reflexivity |]. by apply Step_finish.
  - unfold step_add. destruct (Z.ltb_spec i (addSize c)) as [Hlt | Hge].
    + set (n := Z.min (Z.pos b) (addSize c - i)).
      assert (Hn : (Z.to_nat n <= Pos.to_nat b)%nat) by lia.
      destruct (read_chunks_spec (oldReader s) (temp1 s) (Z.to_nat n) Hold ltac:(lia))
        as (o & t1 & e1 & Hr1 & Hoko & Hl1 & Hc1).
      destruct (read_chunks_spec (diffReader s) (temp2 s) (Z.to_nat n) Hdiff ltac:(lia))
        as (d & t2 & e2 & Hr2 & Hokd & Hl2 & Hc2).
      rewrite Hr1. simpl. rewrite Hr2. simpl.
      destruct Hc1 as [(Hle1 & -> & Hb1 & Hp1) | (Hlt1 & ->)];
        destruct Hc2 as [(Hle2 & -> & Hb2 & Hp2) | (Hlt2 & ->)].
      * eexists _, _. split; [reflexivity |].
        assert (Hy : subarray (add t1 t2 0 (Z.to_nat n)) 0 (Z.to_nat n) =
                     zip_with add8 (take (Z.to_nat n) (pending (oldReader s)))
                       (take (Z.to_nat n) (pending (diffReader s)))).
        { rewrite subarray_0, add_spec by lia.
          rewrite take_app_length'
            by (rewrite length_zip_with, !length_take; lia).
          rewrite Hb1, Hb2.
          rewrite !take_app_length' by (rewrite length_take; lia).
          reflexivity. }
        rewrite Hy.
        eapply (Step_add_chunk b s i c n); try done.
        -- rewrite add_length; lia.
        -- lia.
      * eexists _, _. split; [reflexivity |].
        eapply (Step_add_eof b s i c n); try done; [by right |].
        unfold state_ok; simpl; repeat split; (done || lia).
      * eexists _, _. split; [reflexivity |].
        eapply (Step_add_eof b s i c n); try done; [by left |].
        unfold state_ok; simpl; repeat split; (done || lia).
      * eexists _, _. split; [reflexivity |].
        eapply (Step_add_eof b s i c n); try done; [by left |].
        unfold state_ok; simpl; repeat split; (done || lia).
    + eexists _, _. split; [| by apply (Step_add_done b s i c)].
      destruct ((newSize (header s) <? newPos s + _) || _); reflexivity.
  - unfold step_copy. destruct (Z.ltb_spec i (copySize c)) as [Hlt | Hge].
    + set (n := Z.min (Z.pos b) (copySize c - i)).
      assert (Hn : (Z.to_nat n <= Pos.to_nat b)%nat) by lia.
      destruct (read_chunks_spec (extraReader s) (temp1 s) (Z.to_nat n) Hextra ltac:(lia))
        as (x & t1 & e1 & Hr1 & Hokx & Hl1 & Hc1).
      rewrite Hr1. simpl.
      destruct Hc1 as [(Hle1 & -> & Hb1 & Hp1) | (Hlt1 & ->)].
      * eexists _, _. split; [reflexivity |].
        assert (Hy : subarray t1 0 (Z.to_nat n) =
                     take (Z.to_nat n) (pending (extraReader s))).
        { rewrite subarray_0, Hb1.
          rewrite take_app_length' by (rewrite length_take; lia). reflexivity. }
        rewrite Hy.
        eapply (Step_copy_chunk b s i c n); try done. lia.
      * eexists _, _. split; [reflexivity |].
        eapply (Step_copy_eof b s i c n); try done.
        unfold state_ok; simpl; repeat split; (done || lia).
    + eexists _, _. split; [| by apply (Step_copy_done b s i c)].
      destruct (seekSize c <? 0); reflexivity.
  - unfold step_seek. destruct (Z.ltb_spec i (seekSize c)) as [Hlt | Hge].
    + set (n := Z.min (Z.pos b) (seekSize c - i)).
      assert (Hn : (Z.to_nat n <= Pos.to_nat b)%nat) by lia.
      destruct (read_chunks_spec (oldReader s) (temp1 s) (Z.to_nat n) Hold ltac:(lia))
        as (o & t1 & e1 & Hr1 & Hoko & Hl1 & Hc1).
      rewrite Hr1. simpl.
      destruct Hc1 as [(Hle1 & -> & Hb1 & Hp1) | (Hlt1 & ->)].
      * eexists _, _. split; [reflexivity |].
        eapply (Step_seek_chunk b s i c n); try done. lia.
      * eexists _, _. split; [reflexivity |].
        eapply (Step_seek_eof b s i c n); try done.
        unfold state_ok; simpl; repeat split; (done || lia).
    + eexists _, _. split; [reflexivity |]. by apply (Step_seek_done b s i c).
  - eexists _, _. split; [reflexivity |]. apply Step_stay.
    unfold terminal. by rewrite Hph.
  - eexists _, _. split; [reflexivity |]. apply Step_stay.
    unfold terminal. by rewrite Hph.
Qed.

(** The cases of [Step], with the premises of each case named in the
    order in which the constructor lists them. *)
Tactic Notation "step_inversion" hyp(HS) "as" ident(i) ident(c) ident(s') :=
  destruct HS as
    [ H0 H1
    | cr H0 H1 H2 H3
    | cr c H0 H1 H2 H3 H4 H5
    | i c n o d t1 t2 H0 H1 H2 H3 H4 H5 H6 H7 H8 H9 H10
    | i c n s' H0 H1 H2 H3 H4 H5 H6 H7 H8
    | i c H0 H1
    | i c n x t1 H0 H1 H2 H3 H4 H5 H6
    | i c n s' H0 H1 H2 H3 H4 H5 H6 H7 H8
    | i c H0 H1
    | i c n o t1 H0 H1 H2 H3 H4 H5 H6
    | i c n s' H0 H1 H2 H3 H4 H5 H6 H7 H8
    | i c H0 H1
    | H0 ].

Lemma step_Step (b : positive) (s s' : State) (evs : list Event) :
  state_ok b s -> step b s = Some (evs, s') -> Step b s evs s'.
Proof.
  intros Hok Hstep. destruct (step_cases b s Hok) as (evs' & s'' & Heq & HS).
  rewrite Hstep in Heq. by simplify_eq.
Qed.

Lemma Step_state_ok (b : positive) (s s' : State) (evs : list Event) :
  state_ok b s -> Step b s evs s' -> state_ok b s'.
Proof.
  intros (Hold & Hctl & Hdiff & Hextra & Ht1 & Ht2) HS.
  destruct HS; try done; unfold state_ok; simpl; repeat split; done.
Qed.

Lemma Step_pos_inv (b : positive) (s s' : State) (evs : list Event) :
  pos_inv s -> Step b s evs s' -> pos_inv s'.
Proof.
  intros [Hpos Hph] HS. unfold pos_inv in *.
  step_inversion HS as i c s';
    rewrite ?H0 in Hph; simpl;
    repeat match goal with
           | |- context [?x <? ?y] => destruct (Z.ltb_spec x y)
           end;
    simpl; try rewrite H4, H5, H6; repeat split; try lia; try done.
Qed.

Lemma initial_pos_inv (s : State) : initial s -> pos_inv s.
Proof.
  intros (Hph & Hn & Ho & Hsize). unfold pos_inv. rewrite Hph. split; [lia | done].
Qed.

Lemma Trace_inv (b : positive) (s0 s : State) (tr : list Event) :
  state_ok b s0 -> pos_inv s0 -> Trace b s0 tr s -> state_ok b s /\ pos_inv s.
Proof.
  intros Hok Hinv HT. induction HT as [| tr evs s1 s2 HT [IHok IHinv] Hstep].
  - done.
  - pose proof (step_Step b s1 s2 evs IHok Hstep) as HS.
    split; [by eapply Step_state_ok | by eapply Step_pos_inv].
Qed.

Lemma Trace_trans (b : positive) (s0 s1 s2 : State) (tr1 tr2 : list Event) :
  Trace b s0 tr1 s1 -> Trace b s1 tr2 s2 -> Trace b s0 (tr1 ++ tr2) s2.
Proof.
  intros H1 H2. induction H2 as [| tr evs s2 s3 H2 IH Hstep].
  - by rewrite app_nil_r.
  - rewrite app_assoc. by eapply Trace_step.
Qed.

Lemma Trace_one (b : positive) (s s' : State) (evs : list Event) :
  step b s = Some (evs, s') -> Trace b s evs s'.
Proof.
  intros H. change evs with ([] ++ evs). eapply Trace_step; [apply Trace_here | done].
Qed.


Lemma run_Trace (b : positive) (fuel : nat) (s s' : State) (tr : list Event) :
  run b fuel s = (tr, s') -> Trace b s tr s'.
Proof.
  revert s tr. induction fuel as [| fuel IH]; intros s tr Hrun; simpl in Hrun.
  - simplify_eq. apply Trace_here.
  - destruct (terminal s); [simplify_eq; apply Trace_here |].
    destruct (step b s) as [[evs s1] |] eqn:Hstep; [| simplify_eq; apply Trace_here].
    destruct (run b fuel s1) as [tr1 s2] eqn:Hrest. simplify_eq.
    eapply Trace_trans; [by apply Trace_one | by apply IH].
Qed.

(** ** What a run reads and writes *)

Lemma output_app (tr1 tr2 : list Event) : output (tr1 ++ tr2) = output tr1 ++ output tr2.
Proof. unfold output. by rewrite map_app, concat_app. Qed.

Lemma old_read_app (tr1 tr2 : list Event) : old_read (tr1 ++ tr2) = old_read tr1 + old_read tr2.
Proof.
  unfold old_read. induction tr1 as [| ev tr1 IH]; simpl; [lia |].
  destruct ev; lia.
Qed.

Lemma records_read_app (tr1 tr2 : list Event) :
  records_read (tr1 ++ tr2) = records_read tr1 ++ records_read tr2.
Proof. apply omap_app. Qed.

Lemma old_span_app (cs1 cs2 : list ControlRecord) :
  old_span (cs1 ++ cs2) = old_span cs1 + old_span cs2.
Proof. unfold old_span. induction cs1 as [| c cs1 IH]; simpl; lia. Qed.

Lemma zip_with_take_add (n m : nat) (xs ys : list Z) :
  (n <= length xs)%nat -> (n <= length ys)%nat ->
  zip_with add8 (take (n + m) xs) (take (n + m) ys) =
    zip_with add8 (take n xs) (take n ys) ++
    zip_with add8 (take m (drop n xs)) (take m (drop n ys)).
Proof.
  intros Hx Hy. rewrite <- !take_take_drop.
  apply zip_with_app. rewrite !length_take. lia.
Qed.


(** ** The add phase *)

(** From the test of the first [for] to the end of the phase: either a
    stream is too short and the phase ends in [Unexpected EOF], or the
    bytes still to add are taken from both streams, summed and
    yielded, and the copy check decides how to go on. *)
Lemma add_phase_run (b : positive) (fuel : nat) (s : State) (i : Z) (c : ControlRecord) :
  state_ok b s -> phase s = InAdd i c ->
  (Z.to_nat (addSize c - i) < fuel)%nat ->
  let n := Z.to_nat (addSize c - i) in
  let old := pending (oldReader s) in
  let diff := pending (diffReader s) in
  exists tr s',
    run_while b in_add fuel s = (tr, s') /\ state_ok b s' /\
    header s' = header s /\
    (((n <= length old)%nat /\ (n <= length diff)%nat /\
      output tr = zip_with add8 (take n old) (take n diff) /\
      old_read tr = Z.of_nat n /\ records_read tr = [] /\
      pending (oldReader s') = drop n old /\
      pending (diffReader s') = drop n diff /\
      controlReader s' = controlReader s /\ extraReader s' = extraReader s /\
      newPos s' = newPos s + Z.of_nat n /\ oldPos s' = oldPos s + Z.of_nat n /\
      phase s' =
        if (newSize (header s) <? newPos s' + copySize c) || (copySize c <? 0)
        then Failed CorruptPatch else InCopy 0 c) \/
     (((length old < n)%nat \/ (length diff < n)%nat) /\
      phase s' = Failed UnexpectedEOF)).
Proof.
  revert s i. induction fuel as [| fuel IH]; intros s i Hok Hph Hfuel; [lia |].
  simpl. rewrite Hph. simpl.
  destruct (step_cases b s Hok) as (evs & s1 & Hstep & HS). rewrite Hstep.
  pose proof (Step_state_ok b s s1 evs Hok HS) as Hok1.
  step_inversion HS as i' c' s1;
    try (rewrite Hph in H0; discriminate);
    try (unfold terminal in H0; rewrite Hph in H0; discriminate).
  - (* a chunk *)
    rewrite Hph in H0. injection H0 as <- <-.
    set (s1 := {| header := header s; oldReader := o |}) in *.
    assert (Hn : Z.to_nat (addSize c - i) =
                 (Z.to_nat n + Z.to_nat (addSize c - (i + Z.pos b)))%nat) by lia.
    destruct (IH s1 (i + Z.pos b) Hok1 eq_refl ltac:(lia))
      as (tr & s' & Hrun & Hok' & Hhdr & Hcases).
    rewrite Hrun. eexists _, s'. split; [reflexivity |].
    split; [done |]. split; [done |].
    simpl in Hcases. rewrite H6, H8, !length_drop in Hcases.
    destruct Hcases as [(Hlo & Hld & Hout & Hrd & Hrec & Hpo & Hpd & Hc & Hx & Hnp & Hop & Hph')
                       | (Hshort & Hph')].
    + left. rewrite Hn.
      split; [lia |]. split; [lia |].
      rewrite !output_app, !old_read_app, !records_read_app, Hout, Hrd, Hrec.
      rewrite zip_with_take_add by lia.
      rewrite Hpo, Hpd, !drop_drop.
      unfold output. simpl. rewrite app_nil_r.
      repeat split; try done; try lia.
    + right. split; [lia | done].
  - (* a stream is too short *)
    rewrite Hph in H0. injection H0 as <- <-.
    assert (Hrest : run_while b in_add fuel s1 = ([], s1)).
    { destruct fuel; simpl; [done |]. by rewrite H4. }
    rewrite Hrest. eexists _, s1. split; [reflexivity |].
    split; [done |]. split; [done |]. right. split; [lia | done].
  - (* the phase is over *)
    rewrite Hph in H0. injection H0 as <- <-.
    set (p := if (newSize (header s) <? newPos s + copySize c) || (copySize c <? 0)
              then Failed CorruptPatch else InCopy 0 c) in *.
    assert (Hp : in_add p = false) by (subst p; by destruct (_ || _)).
    assert (Hrest : run_while b in_add fuel (set_phase s p) = ([], set_phase s p)).
    { destruct fuel; simpl; [done |]. by rewrite Hp. }
    rewrite Hrest. eexists _, _. split; [reflexivity |].
    split; [done |]. split; [done |]. left.
    replace (Z.to_nat (addSize c - i)) with 0%nat by lia.
    simpl. rewrite !drop_0, !Z.add_0_r.
    repeat split; try done; lia.
Qed.

(** ** The copy phase *)

Lemma copy_phase_run (b : positive) (fuel : nat) (s : State) (i : Z) (c : ControlRecord) :
  state_ok b s -> phase s = InCopy i c ->
  (Z.to_nat (copySize c - i) < fuel)%nat ->
  let n := Z.to_nat (copySize c - i) in
  let extra := pending (extraReader s) in
  exists tr s',
    run_while b in_copy fuel s = (tr, s') /\ state_ok b s' /\
    header s' = header s /\
    (((n <= length extra)%nat /\
      output tr = take n extra /\
      old_read tr = 0 /\ records_read tr = [] /\
      pending (extraReader s') = drop n extra /\
      oldReader s' = oldReader s /\ controlReader s' = controlReader s /\
      diffReader s' = diffReader s /\
      newPos s' = newPos s + Z.of_nat n /\ oldPos s' = oldPos s /\
      phase s' = if seekSize c <? 0 then Failed CorruptPatch else InSeek 0 c) \/
     ((length extra < n)%nat /\ phase s' = Failed UnexpectedEOF)).
Proof.
  revert s i. induction fuel as [| fuel IH]; intros s i Hok Hph Hfuel; [lia |].
  simpl. rewrite Hph. simpl.
  destruct (step_cases b s Hok) as (evs & s1 & Hstep & HS). rewrite Hstep.
  pose proof (Step_state_ok b s s1 evs Hok HS) as Hok1.
  step_inversion HS as i' c' s1;
    try (rewrite Hph in H0; discriminate);
    try (unfold terminal in H0; rewrite Hph in H0; discriminate).
  - (* a chunk *)
    rewrite Hph in H0. injection H0 as <- <-.
    set (s1 := {| header := header s; extraReader := x |}) in *.
    assert (Hn : Z.to_nat (copySize c - i) =
                 (Z.to_nat n + Z.to_nat (copySize c - (i + Z.pos b)))%nat) by lia.
    destruct (IH s1 (i + Z.pos b) Hok1 eq_refl ltac:(lia))
      as (tr & s' & Hrun & Hok' & Hhdr & Hcases).
    rewrite Hrun. eexists _, s'. split; [reflexivity |].
    split; [done |]. split; [done |].
    simpl in Hcases. rewrite H5, !length_drop in Hcases.
    destruct Hcases as [(Hlx & Hout & Hrd & Hrec & Hpx & Ho & Hc & Hd & Hnp & Hop & Hph')
                       | (Hshort & Hph')].
    + left. rewrite Hn.
      split; [lia |].
      rewrite !output_app, !old_read_app, !records_read_app, Hout, Hrd, Hrec.
      rewrite <- take_take_drop.
      rewrite Hpx, !drop_drop.
      unfold output. simpl. rewrite app_nil_r.
      repeat split; try done; try lia.
    + right. split; [lia | done].
  - (* the extra stream is too short *)
    rewrite Hph in H0. injection H0 as <- <-.
    assert (Hrest : run_while b in_copy fuel s1 = ([], s1)).
    { destruct fuel; simpl; [done |]. by rewrite H4. }
    rewrite Hrest. eexists _, s1. split; [reflexivity |].
    split; [done |]. split; [done |]. right. split; [lia | done].
  - (* the phase is over *)
    rewrite Hph in H0. injection H0 as <- <-.
    set (p := if seekSize c <? 0 then Failed CorruptPatch else InSeek 0 c) in *.
    assert (Hp : in_copy p = false) by (subst p; by destruct (_ <? _)).
    assert (Hrest : run_while b in_copy fuel (set_phase s p) = ([], set_phase s p)).
    { destruct fuel; simpl; [done |]. by rewrite Hp. }
    rewrite Hrest. eexists _, _. split; [reflexivity |].
    split; [done |]. split; [done |]. left.
    replace (Z.to_nat (copySize c - i)) with 0%nat by lia.
    simpl. rewrite !drop_0, !Z.add_0_r.
    repeat split; try done; lia.
Qed.

(** ** The seek phase *)

Lemma seek_phase_run (b : positive) (fuel : nat) (s : State) (i : Z) (c : ControlRecord) :
  state_ok b s -> phase s = InSeek i c ->
  (Z.to_nat (seekSize c - i) < fuel)%nat ->
  let n := Z.to_nat (seekSize c - i) in
  let old := pending (oldReader s) in
  exists tr s',
    run_while b in_seek fuel s = (tr, s') /\ state_ok b s' /\
    header s' = header s /\
    (((n <= length old)%nat /\
      output tr = [] /\
      old_read tr = Z.of_nat n /\ records_read tr = [] /\
      pending (oldReader s') = drop n old /\
      controlReader s' = controlReader s /\
      diffReader s' = diffReader s /\ extraReader s' = extraReader s /\
      newPos s' = newPos s /\ oldPos s' = oldPos s + Z.of_nat n /\
      phase s' = AtLoop) \/
     ((length old < n)%nat /\ phase s' = Failed UnexpectedEOF)).
Proof.
  revert s i. induction fuel as [| fuel IH]; intros s i Hok Hph Hfuel; [lia |].
  simpl. rewrite Hph. simpl.
  destruct (step_cases b s Hok) as (evs & s1 & Hstep & HS). rewrite Hstep.
  pose proof (Step_state_ok b s s1 evs Hok HS) as Hok1.
  step_inversion HS as i' c' s1;
    try (rewrite Hph in H0; discriminate);
    try (unfold terminal in H0; rewrite Hph in H0; discriminate).
  - (* a chunk *)
    rewrite Hph in H0. injection H0 as <- <-.
    set (s1 := {| header := header s; oldReader := o |}) in *.
    assert (Hn : Z.to_nat (seekSize c - i) =
                 (Z.to_nat n + Z.to_nat (seekSize c - (i + Z.pos b)))%nat) by lia.
    destruct (IH s1 (i + Z.pos b) Hok1 eq_refl ltac:(lia))
      as (tr & s' & Hrun & Hok' & Hhdr & Hcases).
    rewrite Hrun. eexists _, s'. split; [reflexivity |].
    split; [done |]. split; [done |].
    simpl in Hcases. rewrite H5, !length_drop in Hcases.
    destruct Hcases as [(Hlo & Hout & Hrd & Hrec & Hpo & Hc & Hd & Hx & Hnp & Hop & Hph')
                       | (Hshort & Hph')].
    + left. rewrite Hn.
      split; [lia |].
      rewrite !output_app, !old_read_app, !records_read_app, Hout, Hrd, Hrec.
      rewrite Hpo, !drop_drop.
      unfold output. simpl.
      repeat split; try done; try lia.
    + right. split; [lia | done].
  - (* the old file is too short *)
    rewrite Hph in H0. injection H0 as <- <-.
    assert (Hrest : run_while b in_seek fuel s1 = ([], s1)).
    { destruct fuel; simpl; [done |]. by rewrite H4. }
    rewrite Hrest. eexists _, s1. split; [reflexivity |].
    split; [done |]. split; [done |]. right. split; [lia | done].
  - (* the phase is over *)
    rewrite Hph in H0. injection H0 as <- <-.
    assert (Hrest : run_while b in_seek fuel (set_phase s AtLoop) = ([], set_phase s AtLoop)).
    { destruct fuel; simpl; done. }
    rewrite Hrest. eexists _, _. split; [reflexivity |].
    split; [done |]. split; [done |]. left.
    replace (Z.to_nat (seekSize c - i)) with 0%nat by lia.
    simpl. rewrite !drop_0, !Z.add_0_r.
    repeat split; try done; lia.
Qed.

(** ** The old file is read forward *)

Lemma Step_oldPos_mono (b : positive) (s s' : State) (evs : list Event) :
  Step b s evs s' -> oldPos s <= oldPos s'.
Proof. intros HS. destruct HS; simpl; lia. Qed.

Lemma Trace_state_ok (b : positive) (s s' : State) (tr : list Event) :
  state_ok b s -> Trace b s tr s' -> state_ok b s'.
Proof.
  intros Hok HT. induction HT as [| tr evs s1 s2 HT IH Hstep]; [done |].
  eapply Step_state_ok; [apply IH | by apply step_Step].
Qed.

Lemma Trace_oldPos_mono (b : positive) (s s' : State) (tr : list Event) :
  state_ok b s -> Trace b s tr s' -> oldPos s <= oldPos s'.
Proof.
  intros Hok HT. induction HT as [| tr evs s1 s2 HT IH Hstep]; [lia |].
  pose proof (Trace_state_ok b s s1 tr Hok HT) as Hok1.
  pose proof (Step_oldPos_mono b s1 s2 evs (step_Step b s1 s2 evs Hok1 Hstep)). lia.
Qed.

Lemma Forall_forward_snoc (cs : list ControlRecord) (c : ControlRecord) :
  Forall forward cs -> 0 <= addSize c -> 0 <= seekSize c -> Forall forward (cs ++ [c]).
Proof. intros H Ha Hs. apply Forall_app. split; [done |]. by repeat constructor. Qed.

Lemma Step_old_inv (b : positive) (s0 s s' : State) (tr evs : list Event) :
  old_inv s0 tr s -> Step b s evs s' -> old_inv s0 (tr ++ evs) s'.
Proof.
  intros Hinv HS. unfold old_inv in *.
  step_inversion HS as i c s';
    rewrite ?H0 in Hinv; try (rewrite H4; done);
    rewrite ?app_nil_r, ?old_read_app, ?records_read_app; simpl.
  - done.
  - done.
  - destruct Hinv as (Hop & Hlen & Hall & Hspan).
    destruct ((newSize (header s) <? newPos s + addSize c) || (addSize c <? 0)) eqn:Hbad;
      [done |].
    apply orb_false_elim in Hbad as [_ Hneg]. apply Z.ltb_ge in Hneg.
    unfold old_read at 1 2 3. simpl. fold (old_read tr).
    repeat split; try lia. exists (records_read tr). repeat split; try done; lia.
  - destruct Hinv as (Hop & Hlen & cs & Hrec & Hall & Hi & Ha & Hspan).
    unfold old_read at 1 2 3. simpl. fold (old_read tr).
    rewrite H6, length_drop, app_nil_r.
    repeat split; try lia. exists cs. repeat split; try done; lia.
  - destruct Hinv as (Hop & Hlen & cs & Hrec & Hall & Hi & Ha & Hspan).
    destruct ((newSize (header s) <? newPos s + copySize c) || (copySize c <? 0));
      [done |].
    repeat split; try lia. exists cs. repeat split; try done; lia.
  - destruct Hinv as (Hop & Hlen & cs & Hrec & Hall & Ha & Hspan).
    unfold old_read at 1 2 3. simpl. fold (old_read tr).
    rewrite app_nil_r.
    repeat split; try lia. exists cs. repeat split; try done; lia.
  - destruct Hinv as (Hop & Hlen & cs & Hrec & Hall & Ha & Hspan).
    destruct (Z.ltb_spec (seekSize c) 0); [done |].
    repeat split; try lia. exists cs. repeat split; try done; lia.
  - destruct Hinv as (Hop & Hlen & cs & Hrec & Hall & Ha & Hi & Hs & Hspan).
    unfold old_read at 1 2 3. simpl. fold (old_read tr).
    rewrite H5, length_drop, app_nil_r.
    repeat split; try lia. exists cs. repeat split; try done; lia.
  - destruct Hinv as (Hop & Hlen & cs & Hrec & Hall & Ha & Hi & Hs & Hspan).
    rewrite Hrec. repeat split; try lia.
    + by apply Forall_forward_snoc.
    + rewrite old_span_app. unfold old_span at 2. simpl. lia.
  - unfold terminal in H0. destruct (phase s); try done.
Qed.

Lemma Trace_old_inv (b : positive) (s0 s : State) (tr : list Event) :
  state_ok b s0 -> initial s0 -> Trace b s0 tr s -> old_inv s0 tr s.
Proof.
  intros Hok (Hph & Hn & Ho & Hsize) HT.
  induction HT as [| tr evs s1 s2 HT IH Hstep].
  - unfold old_inv. rewrite Hph. simpl. repeat split; try lia. constructor.
  - eapply Step_old_inv; [exact IH |].
    apply step_Step; [by eapply Trace_state_ok | done].
Qed.

Lemma run_while_in_seek_silent (b : positive) (fuel : nat) (s : State) :
  state_ok b s -> output (run_while b in_seek fuel s).1 = [].
Proof.
  revert s. induction fuel as [| fuel IH]; intros s Hok; simpl; [done |].
  destruct (in_seek (phase s)) eqn:Hin; [| done].
  destruct (step_cases b s Hok) as (evs & s1 & Hstep & HS). rewrite Hstep.
  pose proof (IH s1 (Step_state_ok b s s1 evs Hok HS)) as Hrest.
  destruct (run_while b in_seek fuel s1) as [tr s2]. simpl in *.
  rewrite output_app, Hrest, app_nil_r.
  unfold in_seek in Hin.
  step_inversion HS as i c s1; try done; rewrite H0 in Hin; discriminate.
Qed.

(** C9.  The engine reads the old file forward only, the sizes of a
    record being those [getInt64] decoded.  Along a run [oldPos] never
    decreases.  In every state of a run that has not failed, [oldPos]
    is the number of bytes read from the old reader so far, and the old
    reader is that many bytes further than at the start.  A seek is made
    by reading: a seek phase finds a [seekSize] that is not negative
    and yields nothing; with [seekSize] bytes left in the old file it
    reads exactly that many from the old reader, which is then that
    many bytes further, advances [oldPos] by [seekSize] and is back at
    the loop test, and with fewer left it ends in ['Unexpected EOF'].
    At each loop test and when the application has succeeded, no
    decoded record had a negative seek, and the bytes taken from the
    old reader are, in number, the sum of [addSize + seekSize] over the
    decoded records. *)
Theorem old_source_is_read_forward (b : positive) (s0 s s' : State) (tr tr' : list Event) :
  state_ok b s0 -> initial s0 -> Trace b s0 tr s -> Trace b s tr' s' ->
  oldPos s <= oldPos s' /\
  ((forall e, phase s <> Failed e) ->
   oldPos s = old_read tr /\
   Z.of_nat (length (pending (oldReader s0))) -
     Z.of_nat (length (pending (oldReader s))) = old_read tr) /\
  (forall c fuel, phase s = InSeek 0 c -> (Z.to_nat (seekSize c) < fuel)%nat ->
   0 <= seekSize c /\
   exists tr1 s1, run_while b in_seek fuel s = (tr1, s1) /\ output tr1 = [] /\
     ((Z.to_nat (seekSize c) <= length (pending (oldReader s)))%nat ->
      phase s1 = AtLoop /\ old_read tr1 = seekSize c /\
      oldPos s1 = oldPos s + seekSize c /\
      pending (oldReader s1) =
        drop (Z.to_nat (seekSize c)) (pending (oldReader s))) /\
     ((length (pending (oldReader s)) < Z.to_nat (seekSize c))%nat ->
      phase s1 = Failed UnexpectedEOF)) /\
  (phase s = AtLoop \/ phase s = Finished ->
   Forall (fun c => 0 <= seekSize c) (records_read tr) /\
   old_read tr = old_span (records_read tr) /\
   oldPos s = old_span (records_read tr) /\
   Z.of_nat (length (pending (oldReader s0))) -
     Z.of_nat (length (pending (oldReader s))) = old_span (records_read tr)).
Proof.
  intros Hok Hinit HT HT'.
  pose proof (Trace_state_ok b s0 s tr Hok HT) as Hoks.
  pose proof (Trace_old_inv b s0 s tr Hok Hinit HT) as Hinv.
  destruct (Trace_inv b s0 s tr Hok (initial_pos_inv s0 Hinit) HT) as [_ [_ Hph]].
  split; [by eapply Trace_oldPos_mono |]. split; [| split].
  - intros Hlive. unfold old_inv in Hinv.
    destruct (phase s) eqn:Hp; try (by destruct (Hlive e));
      destruct Hinv as (Hop & Hlen & _); split; lia.
  - intros c fuel Hin Hfuel. rewrite Hin in Hph. destruct Hph as (_ & Hseek).
    split; [exact Hseek |].
    destruct (seek_phase_run b fuel s 0 c Hoks Hin ltac:(rewrite Z.sub_0_r; lia))
      as (tr1 & s1 & Hrun & _ & _ & Hcases).
    pose proof (run_while_in_seek_silent b fuel s Hoks) as Hsilent.
    rewrite Hrun in Hsilent. simpl in Hsilent.
    exists tr1, s1. split; [exact Hrun |]. split; [exact Hsilent |].
    rewrite Z.sub_0_r in Hcases.
    destruct Hcases as [(Hlo & _ & Hread & _ & Hpend & _ & _ & _ & _ & Hop & Hp) | (Hshort & Hp)].
    + split; [| lia]. intros _. rewrite Z2Nat.id in Hread, Hop by lia. done.
    + split; [lia | done].
  - intros Hloop. unfold old_inv in Hinv.
    destruct Hloop as [Hp | Hp]; rewrite Hp in Hinv;
      destruct Hinv as (Hop & Hlen & Hall & Hspan);
      (repeat split; try lia;
       revert Hall; apply Forall_impl; by intros c [_ Hs]).
Qed.

(** ** The small patch *)

Lemma loop_entry_state_ok (b : positive) (h : Header) (old control diff extra : list (list Z)) :
  state_ok b (loop_entry b h old control diff extra).
Proof.
  unfold state_ok, loop_entry, new_Uint8Array; simpl.
  rewrite !length_replicate. repeat split; done.
Qed.

Lemma loop_entry_initial (b : positive) (h : Header) (old control diff extra : list (list Z)) :
  0 <= newSize h -> initial (loop_entry b h old control diff extra).
Proof. intros H. repeat split; done. Qed.

Lemma run_is_Trace (b : positive) (fuel : nat) (s : State) :
  Trace b s (run b fuel s).1 (run b fuel s).2.
Proof. apply (run_Trace b fuel). by destruct (run b fuel s). Qed.

Example demo_run :
  let r := bspatch_loop 2 demo_header demo_old demo_control demo_diff demo_extra in
  output r.1 = [98; 99; 120] /\ phase r.2 = Finished /\
  newPos r.2 = 3 /\ oldPos r.2 = 2.
Proof. vm_compute. repeat split. Qed.

Lemma old_source_is_read_forward_witness :
  let s0 := seek_entry 1 in
  let c := {| addSize := 1; copySize := 0; seekSize := 2 |} in
  let at_seek := run 1 4 s0 in
  let whole := run 1 40 s0 in
  state_ok 1 s0 /\ initial s0 /\
  phase at_seek.2 = InSeek 0 c /\ pending (oldReader at_seek.2) = [98; 99; 100] /\
  (exists tr1 s1, run_while 1 in_seek 5 at_seek.2 = (tr1, s1) /\
     phase s1 = AtLoop /\ old_read tr1 = 2 /\ pending (oldReader s1) = [100]) /\
  phase whole.2 = Finished /\ output whole.1 = [98; 101] /\
  old_read whole.1 = old_span (records_read whole.1) /\
  oldPos whole.2 = 4.
Proof.
  intros s0 c at_seek whole.
  assert (H1 : state_ok 1 s0) by apply loop_entry_state_ok.
  assert (H2 : initial s0) by (apply loop_entry_initial; simpl; lia).
  assert (Hs : phase at_seek.2 = InSeek 0 c) by reflexivity.
  assert (Hf : phase whole.2 = Finished) by reflexivity.
  split; [exact H1 |]. split; [exact H2 |]. split; [exact Hs |].
  split; [reflexivity |]. split.
  - destruct (old_source_is_read_forward 1 s0 at_seek.2 at_seek.2 at_seek.1 [] H1 H2
                (run_is_Trace 1 4 s0) (Trace_here 1 at_seek.2))
      as (_ & _ & Hseek & _).
    destruct (Hseek c 5%nat Hs ltac:(simpl; lia)) as (_ & tr1 & s1 & Hrun & _ & Hfull & _).
    destruct (Hfull ltac:(vm_compute; lia)) as (Hp & Hread & _ & Hpend).
    exists tr1, s1. split; [exact Hrun |]. split; [exact Hp |].
    split; [exact Hread | exact Hpend].
  - destruct (old_source_is_read_forward 1 s0 whole.2 whole.2 whole.1 [] H1 H2
                (run_is_Trace 1 40 s0) (Trace_here 1 whole.2))
      as (_ & _ & _ & Hcount).
    destruct (Hcount (or_intror Hf)) as (_ & Hread & Hop & _).
    split; [exact Hf |]. split; [reflexivity |]. split; [exact Hread |].
    rewrite Hop. reflexivity.
Defined.

(** ** Negative seeks *)

(** C2, as the code has it.  When the copy loop of a record is over and
    the record's [seekSize], as [getInt64] decoded it, is negative, the
    engine throws [Error('Corrupt patch')] without an event: nothing is
    read from the old file and nothing is yielded.  It is the error the
    head of the loop throws for a record whose [addSize] is negative:
    the engine has no error of its own for a seek it cannot make. *)
Theorem negative_seek_is_corrupt_patch (b : positive) (s : State) (i : Z) (c : ControlRecord) :
  phase s = InCopy i c -> copySize c <= i -> seekSize c < 0 ->
  step b s = Some ([], set_phase s (Failed CorruptPatch)) /\
  oldReader (set_phase s (Failed CorruptPatch)) = oldReader s /\
  oldPos (set_phase s (Failed CorruptPatch)) = oldPos s /\
  (forall (s0 : State) (cr : Reader) (c0 : ControlRecord),
     phase s0 = AtLoop -> newPos s0 < newSize (header s0) ->
     readControlHeader (controlReader s0) = Some (cr, inr c0) -> addSize c0 < 0 ->
     exists s0', step b s0 = Some ([EvControl c0], s0') /\
       phase s0' = phase (set_phase s (Failed CorruptPatch))).
Proof.
  intros Hph Hi Hseek. split; [| split; [done | split; [done |]]].
  - unfold step, step_copy. rewrite Hph.
    destruct (Z.ltb_spec i (copySize c)); [lia |].
    destruct (Z.ltb_spec (seekSize c) 0); [done | lia].
  - intros s0 cr c0 Hat Hlt Hread Hneg. unfold step, step_loop. rewrite Hat.
    destruct (Z.ltb_spec (newPos s0) (newSize (header s0))); [| lia].
    rewrite Hread. simpl.
    destruct (Z.ltb_spec (addSize c0) 0); [| lia].
    rewrite orb_true_r. eexists. split; reflexivity.
Qed.

Lemma negative_seek_is_corrupt_patch_witness :
  let seek := [1; 0; 0; 0; 0; 0; 0; 0x81] in
  let c := {| addSize := 0; copySize := 0; seekSize := getInt64 seek 0 |} in
  let s := (run 1 2 (loop_entry 1 demo_header demo_old (seek_only seek) [] [])).2 in
  sign_magnitude64 seek 0 < 0 /\
  phase s = InCopy 0 c /\ copySize c <= 0 /\ seekSize c < 0 /\
  step 1 s = Some ([], set_phase s (Failed CorruptPatch)).
Proof.
  intros seek c s.
  assert (H0 : sign_magnitude64 seek 0 < 0) by reflexivity.
  assert (H1 : phase s = InCopy 0 c) by reflexivity.
  assert (H2 : copySize c <= 0) by (simpl; lia).
  assert (H3 : seekSize c < 0) by reflexivity.
  split; [exact H0 |]. split; [exact H1 |]. split; [exact H2 |]. split; [exact H3 |].
  exact (proj1 (negative_seek_is_corrupt_patch 1 s 0 c H1 H2 H3)).
Defined.

(** C2.  The claim has a negative [seekSize] signalled by an error of
    its own, distinct from ['Corrupt patch'].  The seek field
    [01 00 00 00 00 00 00 81] is negative in the format, [- (2 ^ 56 + 1)],
    and negative as the code decodes it, [-16777217]; with a record
    that adds and copies nothing and has this seek, the run ends in
    ['Corrupt patch'], with nothing read from the old file. *)
Lemma negative_seek_ends_in_corrupt_patch :
  let seek := [1; 0; 0; 0; 0; 0; 0; 0x81] in
  let r := bspatch_loop BUFFER_SIZE demo_header demo_old (seek_only seek) [] [] in
  sign_magnitude64 seek 0 = - (2 ^ 56 + 1) /\
  records_read r.1 = [{| addSize := 0; copySize := 0; seekSize := -16777217 |}] /\
  old_read r.1 = 0 /\ output r.1 = [] /\
  ending r.2 = Some (Rejected CorruptPatch).
Proof. vm_compute. repeat split. Qed.

(** A seek that the format reads as negative and the code does not is
    made forward.  The field [01 00 00 00 00 00 00 80] is [-1] in the
    format; the engine decodes [1] and reads one byte on: after the
    first two bytes of the old file it takes the fourth where the
    format has the second. *)
Example format_rewind_is_read_forward :
  let h := {| magic := MAGIC; controlSize := 0; diffSize := 0; newSize := 3 |} in
  let control :=
    [[2; 0; 0; 0; 0; 0; 0; 0;  0; 0; 0; 0; 0; 0; 0; 0;  1; 0; 0; 0; 0; 0; 0; 0x80];
     [1; 0; 0; 0; 0; 0; 0; 0;  0; 0; 0; 0; 0; 0; 0; 0;  0; 0; 0; 0; 0; 0; 0; 0]] in
  let r := bspatch_loop BUFFER_SIZE h demo_old control [[0; 0; 0]] [] in
  map seekSize (format_records (concat control)) = [-1; 0] /\
  map seekSize (records_read r.1) = [1; 0] /\
  output r.1 = [97; 98; 100] /\ ending r.2 = Some Complete.
Proof. vm_compute. repeat split. Qed.

(** ** The position in the new file *)

(** C3.  The claim has the engine fail with ['Corrupt patch'] on a
    record whose [addSize] or [copySize] is negative.  The field
    [01 00 00 00 00 00 00 80] is [-1] in the format; [getInt64] decodes
    [1], the checks of lines 247 and 260 see nothing wrong, and the
    engine adds, or copies, one byte and returns. *)
Theorem negative_addSize_passes_the_check :
  let h := {| magic := MAGIC; controlSize := 0; diffSize := 0; newSize := 1 |} in
  let minus_one := [1; 0; 0; 0; 0; 0; 0; 0x80] in
  let zero := [0; 0; 0; 0; 0; 0; 0; 0] in
  let r1 := bspatch_loop BUFFER_SIZE h [[97]] [minus_one ++ zero ++ zero] [[1]] [] in
  let r2 := bspatch_loop BUFFER_SIZE h [[97]] [zero ++ minus_one ++ zero] [] [[120]] in
  sign_magnitude64 minus_one 0 = -1 /\ getInt64 minus_one 0 = 1 /\
  map addSize (format_records (minus_one ++ zero ++ zero)) = [-1] /\
  records_read r1.1 = [{| addSize := 1; copySize := 0; seekSize := 0 |}] /\
  output r1.1 = [98] /\ ending r1.2 = Some Complete /\
  map copySize (format_records (zero ++ minus_one ++ zero)) = [-1] /\
  records_read r2.1 = [{| addSize := 0; copySize := 1; seekSize := 0 |}] /\
  output r2.1 = [120] /\ ending r2.2 = Some Complete.
Proof. vm_compute. repeat split. Qed.

(** X25.  The positions of a run, with the sizes of a record as
    [getInt64] decodes them.  In every state of a run that starts at the
    loop entry, [0 <= newPos <= newSize]; the loop test lets the
    generator return exactly when [newPos = newSize]; an add phase
    whose two streams hold [addSize] more bytes runs to its end,
    advances [newPos] by [addSize] and yields that many bytes, and one
    whose streams hold fewer ends in ['Unexpected EOF']; a copy phase
    likewise by [copySize] on the extra stream; a seek phase with
    [seekSize] bytes left in the old file leaves [newPos] alone, yields
    nothing and is back at the loop test; and the engine throws
    ['Corrupt patch'] when the record just decoded has a negative
    [addSize] or one that would take [newPos] past [newSize], and again
    when the add loop is over and [copySize] is negative or would do
    so. *)
Theorem newPos_stays_within_newSize (b : positive) (s0 s : State) (tr : list Event) :
  state_ok b s0 -> initial s0 -> Trace b s0 tr s ->
  0 <= newPos s <= newSize (header s) /\
  (phase s = AtLoop ->
   exists evs s', step b s = Some (evs, s') /\
     (phase s' = Finished <-> newPos s = newSize (header s))) /\
  (forall c fuel, phase s = InAdd 0 c -> (Z.to_nat (addSize c) < fuel)%nat ->
   exists tr1 s1, run_while b in_add fuel s = (tr1, s1) /\
     ((Z.to_nat (addSize c) <= length (pending (oldReader s)))%nat ->
      (Z.to_nat (addSize c) <= length (pending (diffReader s)))%nat ->
      phase s1 =
        (if (newSize (header s) <? newPos s + addSize c + copySize c) || (copySize c <? 0)
         then Failed CorruptPatch else InCopy 0 c) /\
      newPos s1 = newPos s + addSize c /\
      Z.of_nat (length (output tr1)) = addSize c) /\
     ((length (pending (oldReader s)) < Z.to_nat (addSize c))%nat \/
      (length (pending (diffReader s)) < Z.to_nat (addSize c))%nat ->
      phase s1 = Failed UnexpectedEOF)) /\
  (forall c fuel, phase s = InCopy 0 c -> (Z.to_nat (copySize c) < fuel)%nat ->
   exists tr1 s1, run_while b in_copy fuel s = (tr1, s1) /\
     ((Z.to_nat (copySize c) <= length (pending (extraReader s)))%nat ->
      phase s1 = (if seekSize c <? 0 then Failed CorruptPatch else InSeek 0 c) /\
      newPos s1 = newPos s + copySize c /\
      Z.of_nat (length (output tr1)) = copySize c) /\
     ((length (pending (extraReader s)) < Z.to_nat (copySize c))%nat ->
      phase s1 = Failed UnexpectedEOF)) /\
  (forall c fuel, phase s = InSeek 0 c -> (Z.to_nat (seekSize c) < fuel)%nat ->
   exists tr1 s1, run_while b in_seek fuel s = (tr1, s1) /\
     ((Z.to_nat (seekSize c) <= length (pending (oldReader s)))%nat ->
      phase s1 = AtLoop /\ newPos s1 = newPos s /\ output tr1 = []) /\
     ((length (pending (oldReader s)) < Z.to_nat (seekSize c))%nat ->
      phase s1 = Failed UnexpectedEOF)) /\
  (forall cr c, phase s = AtLoop -> newPos s < newSize (header s) ->
   readControlHeader (controlReader s) = Some (cr, inr c) ->
   addSize c < 0 \/ newSize (header s) < newPos s + addSize c ->
   exists s', step b s = Some ([EvControl c], s') /\ phase s' = Failed CorruptPatch) /\
  (forall i c, phase s = InAdd i c -> addSize c <= i ->
   copySize c < 0 \/ newSize (header s) < newPos s + copySize c ->
   exists s', step b s = Some ([], s') /\ phase s' = Failed CorruptPatch).
Proof.
  intros Hok Hinit HT.
  destruct (Trace_inv b s0 s tr Hok (initial_pos_inv s0 Hinit) HT) as [Hoks [Hpos Hph]].
  split; [exact Hpos |]. split; [| split; [| split; [| split; [| split]]]].
  - intros Hat. unfold step, step_loop. rewrite Hat.
    destruct (Z.ltb_spec (newPos s) (newSize (header s))) as [Hlt | Hge].
    + destruct (readControlHeader_spec (controlReader s)) as (cr & res & Hread & _ & _);
        [apply Hoks |].
      rewrite Hread. simpl. destruct res as [e | c].
      * eexists _, _. split; [reflexivity |]. simpl. split; [discriminate | lia].
      * destruct (_ || _); eexists _, _; (split; [reflexivity |]); simpl;
          (split; [discriminate | lia]).
    + eexists _, _. split; [reflexivity |]. simpl. split; [lia | done].
  - intros c fuel Hin Hfuel. rewrite Hin in Hph. destruct Hph as (_ & Ha & _).
    destruct (add_phase_run b fuel s 0 c Hoks Hin ltac:(rewrite Z.sub_0_r; lia))
      as (tr1 & s1 & Hrun & _ & _ & Hcases).
    exists tr1, s1. split; [exact Hrun |]. rewrite Z.sub_0_r in Hcases.
    destruct Hcases as [(Hlo & Hld & Hout & _ & _ & _ & _ & _ & _ & Hnp & _ & Hp) | (Hshort & Hp)].
    + split; [| lia]. intros _ _.
      rewrite Z2Nat.id in Hnp by lia.
      split; [by rewrite Hp, Hnp |]. split; [done |].
      rewrite Hout, length_zip_with, !length_take. lia.
    + split; [lia | done].
  - intros c fuel Hin Hfuel. rewrite Hin in Hph. destruct Hph as (_ & Ha & _).
    destruct (copy_phase_run b fuel s 0 c Hoks Hin ltac:(rewrite Z.sub_0_r; lia))
      as (tr1 & s1 & Hrun & _ & _ & Hcases).
    exists tr1, s1. split; [exact Hrun |]. rewrite Z.sub_0_r in Hcases.
    destruct Hcases as [(Hlx & Hout & _ & _ & _ & _ & _ & _ & Hnp & _ & Hp) | (Hshort & Hp)].
    + split; [| lia]. intros _.
      split; [done |]. split; [lia |].
      rewrite Hout, length_take. lia.
    + split; [lia | done].
  - intros c fuel Hin Hfuel.
    destruct (seek_phase_run b fuel s 0 c Hoks Hin ltac:(rewrite Z.sub_0_r; lia))
      as (tr1 & s1 & Hrun & _ & _ & Hcases).
    exists tr1, s1. split; [exact Hrun |]. rewrite Z.sub_0_r in Hcases.
    destruct Hcases as [(Hlo & Hout & _ & _ & _ & _ & _ & _ & Hnp & _ & Hp) | (Hshort & Hp)].
    + split; [| lia]. intros _. done.
    + split; [lia | done].
  - intros cr c Hat Hlt Hread Hbad. unfold step, step_loop. rewrite Hat.
    destruct (Z.ltb_spec (newPos s) (newSize (header s))); [| lia].
    rewrite Hread. simpl.
    destruct (Z.ltb_spec (newSize (header s)) (newPos s + addSize c));
      destruct (Z.ltb_spec (addSize c) 0); simpl; try lia;
      eexists; (split; [reflexivity | done]).
  - intros i c Hin Hi Hbad. unfold step, step_add. rewrite Hin.
    destruct (Z.ltb_spec i (addSize c)); [lia |].
    destruct (Z.ltb_spec (newSize (header s)) (newPos s + copySize c));
      destruct (Z.ltb_spec (copySize c) 0); simpl; try lia;
      eexists; (split; [reflexivity | done]).
Qed.

Lemma newPos_stays_within_newSize_witness :
  let s0 := demo_entry 2 in
  let c := {| addSize := 2; copySize := 1; seekSize := 0 |} in
  let ra := run 2 1 s0 in
  let rc := run 2 3 s0 in
  state_ok 2 s0 /\ initial s0 /\
  phase ra.2 = InAdd 0 c /\ phase rc.2 = InCopy 0 c /\
  (exists tr1 s1, run_while 2 in_add 5 ra.2 = (tr1, s1) /\
     phase s1 = InCopy 0 c /\ newPos s1 = newPos ra.2 + 2 /\
     Z.of_nat (length (output tr1)) = 2) /\
  (exists tr1 s1, run_while 2 in_copy 5 rc.2 = (tr1, s1) /\
     phase s1 = InSeek 0 c /\ newPos s1 = newPos rc.2 + 1 /\
     Z.of_nat (length (output tr1)) = 1).
Proof.
  intros s0 c ra rc.
  assert (H1 : state_ok 2 s0) by apply loop_entry_state_ok.
  assert (H2 : initial s0) by (apply loop_entry_initial; simpl; lia).
  assert (Ha : phase ra.2 = InAdd 0 c) by reflexivity.
  assert (Hc : phase rc.2 = InCopy 0 c) by reflexivity.
  split; [exact H1 |]. split; [exact H2 |]. split; [exact Ha |]. split; [exact Hc |].
  split.
  - destruct (newPos_stays_within_newSize 2 s0 ra.2 ra.1 H1 H2 (run_is_Trace 2 1 s0))
      as (_ & _ & Hadd & _).
    destruct (Hadd c 5%nat Ha ltac:(simpl; lia)) as (tr1 & s1 & Hrun & Hfull & _).
    exists tr1, s1. split; [exact Hrun |].
    exact (Hfull ltac:(vm_compute; lia) ltac:(vm_compute; lia)).
  - destruct (newPos_stays_within_newSize 2 s0 rc.2 rc.1 H1 H2 (run_is_Trace 2 3 s0))
      as (_ & _ & _ & Hcopy & _).
    destruct (Hcopy c 5%nat Hc ltac:(simpl; lia)) as (tr1 & s1 & Hrun & Hfull & _).
    exists tr1, s1. split; [exact Hrun |].
    exact (Hfull ltac:(vm_compute; lia)).
Defined.

(** ** The add phase, byte by byte *)

(** C6.  An add phase for which both streams hold [addSize] more bytes
    runs to its end; the byte yielded at each position [k] below
    [addSize] is the sum modulo 256 of byte [k] of the old file and byte
    [k] of the diff stream, counted from where the phase began, and
    each of the two readers is left exactly [addSize] bytes further. *)
Theorem add_phase_emits_bytewise_sums (b : positive) (s : State) (c : ControlRecord)
    (fuel : nat) :
  state_ok b s -> phase s = InAdd 0 c -> 0 <= addSize c ->
  (Z.to_nat (addSize c) <= length (pending (oldReader s)))%nat ->
  (Z.to_nat (addSize c) <= length (pending (diffReader s)))%nat ->
  (Z.to_nat (addSize c) < fuel)%nat ->
  exists tr s',
    run_while b in_add fuel s = (tr, s') /\
    in_add (phase s') = false /\ phase s' <> Failed UnexpectedEOF /\
    length (output tr) = Z.to_nat (addSize c) /\
    (forall k, (k < Z.to_nat (addSize c))%nat ->
       output tr !! k =
         Some ((at_index (pending (oldReader s)) k +
                at_index (pending (diffReader s)) k) `mod` 256)) /\
    old_read tr = addSize c /\
    pending (oldReader s') = drop (Z.to_nat (addSize c)) (pending (oldReader s)) /\
    pending (diffReader s') = drop (Z.to_nat (addSize c)) (pending (diffReader s)).
Proof.
  intros Hok Hin Ha Hold Hdiff Hfuel.
  destruct (add_phase_run b fuel s 0 c Hok Hin ltac:(rewrite Z.sub_0_r; lia))
    as (tr & s' & Hrun & _ & _ & Hcases).
  exists tr, s'. split; [exact Hrun |]. rewrite Z.sub_0_r in Hcases.
  destruct Hcases as [(_ & _ & Hout & Hrd & _ & Hpo & Hpd & _ & _ & _ & _ & Hp) | (Hshort & _)];
    [| lia].
  split; [rewrite Hp; by destruct (_ || _) |].
  split; [rewrite Hp; by destruct (_ || _) |].
  split; [rewrite Hout, length_zip_with, !length_take; lia |].
  split; [| repeat split; (done || lia)].
  intros k Hk. rewrite Hout, lookup_zip_with, !lookup_take_lt by lia.
  destruct (lookup_lt_is_Some_2 (pending (oldReader s)) k ltac:(lia)) as [x Hx].
  destruct (lookup_lt_is_Some_2 (pending (diffReader s)) k ltac:(lia)) as [y Hy].
  unfold at_index. rewrite Hx, Hy. reflexivity.
Qed.

Lemma add_phase_emits_bytewise_sums_witness :
  let c := {| addSize := 2; copySize := 1; seekSize := 0 |} in
  let s := (run 1 1 (demo_entry 1)).2 in
  state_ok 1 s /\ phase s = InAdd 0 c /\ 0 <= addSize c /\
  (Z.to_nat (addSize c) <= length (pending (oldReader s)))%nat /\
  (Z.to_nat (addSize c) <= length (pending (diffReader s)))%nat /\
  (Z.to_nat (addSize c) < 3)%nat /\
  exists tr s', run_while 1 in_add 3 s = (tr, s') /\ output tr = [98; 99].
Proof.
  intros c s.
  assert (H1 : state_ok 1 s).
  { eapply Trace_state_ok; [apply (loop_entry_state_ok 1) | apply (run_is_Trace 1 1)]. }
  assert (H2 : phase s = InAdd 0 c) by (vm_compute; reflexivity).
  assert (H3 : 0 <= addSize c) by (simpl; lia).
  assert (H4 : (Z.to_nat (addSize c) <= length (pending (oldReader s)))%nat)
    by (vm_compute; lia).
  assert (H5 : (Z.to_nat (addSize c) <= length (pending (diffReader s)))%nat)
    by (vm_compute; lia).
  assert (H6 : (Z.to_nat (addSize c) < 3)%nat) by (simpl; lia).
  repeat (split; [assumption |]).
  destruct (add_phase_emits_bytewise_sums 1 s c 3 H1 H2 H3 H4 H5 H6)
    as (tr & s' & Hrun & _). exists tr, s'. split; [exact Hrun |].
  vm_compute in Hrun. injection Hrun as <- _. reflexivity.
Defined.

(** ** Termination *)

Lemma Step_progress (b : positive) (s s' : State) (evs : list Event) :
  terminal s = false -> Step b s evs s' ->
  terminal s' = true \/ (steps_bound s' < steps_bound s)%nat.
Proof.
  intros Hterm HS. unfold steps_bound, terminal in *.
  step_inversion HS as i c s';
    rewrite ?H0; simpl; try (left; done); try (rewrite H4; left; done).
  - destruct (_ || _); [by left | right]. simpl. rewrite H5, length_drop. lia.
  - right. rewrite H6, H8, !length_drop. lia.
  - destruct (_ || _); [by left | right]. simpl. lia.
  - right. rewrite H5, !length_drop. lia.
  - destruct (_ <? _); [by left | right]. simpl. lia.
  - right. rewrite H5, !length_drop. lia.
  - right. lia.
Qed.

Lemma run_terminates (b : positive) (fuel : nat) (s : State) :
  state_ok b s -> (steps_bound s <= fuel)%nat -> terminal (run b fuel s).2 = true.
Proof.
  revert s. induction fuel as [| fuel IH]; intros s Hok Hfuel.
  - unfold steps_bound in Hfuel. lia.
  - simpl. destruct (terminal s) eqn:Hterm; [done |].
    destruct (step_cases b s Hok) as (evs & s1 & Hstep & HS). rewrite Hstep.
    destruct (run b fuel s1) as [tr s2] eqn:Hrun. simpl.
    destruct (Step_progress b s s1 evs Hterm HS) as [Hdone | Hless].
    + destruct fuel; simpl in Hrun; [by simplify_eq |].
      rewrite Hdone in Hrun. by simplify_eq.
    + pose proof (IH s1 (Step_state_ok b s s1 evs Hok HS) ltac:(lia)) as Hend.
      by rewrite Hrun in Hend.
Qed.

Lemma terminal_ending (s : State) : terminal s = true -> exists e, ending s = Some e.
Proof.
  unfold terminal, ending. destruct (phase s); try discriminate; eauto.
Qed.

(** ** The engine against the account a record at a time *)

Lemma agrees_refl (x : list Z * Ending) : agrees x x [].
Proof. split; done. Qed.

Lemma agrees_eta (x : list Z * Ending) : agrees (x.1, x.2) x [].
Proof. split; done. Qed.

Lemma agrees_trans (x y z : list Z * Ending) (o1 o2 : list Z) :
  agrees x y o1 -> agrees y z o2 -> agrees x z (o1 ++ o2).
Proof.
  intros [Hxy Hout1] [Hyz Hout2]. split; [congruence |].
  intros Hx. rewrite Hout1 by done. rewrite Hout2 by congruence.
  by rewrite app_assoc.
Qed.

Lemma apply_records_unfold (size : Z) (records : list ControlRecord) (pos : Z)
    (old diff extra : list Z) :
  apply_records size records pos old diff extra =
    if pos <? size then
      match records with
      | [] => ([], Rejected UnexpectedEOF)
      | c :: records' =>
          if (size <? pos + addSize c) || (addSize c <? 0)
          then ([], Rejected CorruptPatch)
          else add_phase size (addSize c) c pos old diff extra
                 (apply_records size records')
      end
    else ([], Complete).
Proof. destruct records; reflexivity. Qed.

Lemma short_drop (stream : list Z) (n m : Z) :
  0 <= n <= m -> (Z.to_nat n <= length stream)%nat ->
  short (drop (Z.to_nat n) stream) (m - n) = short stream m.
Proof.
  intros Hn Hlen. unfold short. rewrite length_drop.
  destruct (Z.ltb_spec (Z.of_nat (length stream)) m);
    destruct (Z.ltb_spec (Z.of_nat (length stream - Z.to_nat n)) (m - n)); lia.
Qed.

Lemma short_too_few (stream : list Z) (n m : Z) :
  n <= m -> (length stream < Z.to_nat n)%nat -> short stream m = true.
Proof. intros Hn Hlen. unfold short. apply Z.ltb_lt. lia. Qed.

Lemma add_phase_chunk (size rem n : Z) (c : ControlRecord) (pos : Z)
    (old diff extra : list Z) (k : Z -> list Z -> list Z -> list Z -> list Z * Ending) :
  0 < n <= rem ->
  (Z.to_nat n <= length old)%nat -> (Z.to_nat n <= length diff)%nat ->
  agrees (add_phase size rem c pos old diff extra k)
         (add_phase size (rem - n) c (pos + n)
            (drop (Z.to_nat n) old) (drop (Z.to_nat n) diff) extra k)
         (zip_with add8 (take (Z.to_nat n) old) (take (Z.to_nat n) diff)).
Proof.
  intros Hn Hold Hdiff. unfold add_phase.
  rewrite !short_drop by lia.
  destruct (short old rem || short diff rem); [split; done |].
  replace (pos + n + (rem - n)) with (pos + rem) by lia.
  rewrite !drop_drop.
  replace (Z.to_nat n + Z.to_nat (rem - n))%nat with (Z.to_nat rem) by lia.
  split; [done |]. intros _. unfold emit. simpl.
  replace (Z.to_nat rem) with (Z.to_nat n + Z.to_nat (rem - n))%nat at 1 2 by lia.
  rewrite zip_with_take_add by lia. by rewrite app_assoc.
Qed.

Lemma copy_phase_chunk (rem n : Z) (c : ControlRecord) (pos : Z)
    (old diff extra : list Z) (k : Z -> list Z -> list Z -> list Z -> list Z * Ending) :
  0 < n <= rem -> (Z.to_nat n <= length extra)%nat ->
  agrees (copy_phase rem c pos old diff extra k)
         (copy_phase (rem - n) c (pos + n) old diff (drop (Z.to_nat n) extra) k)
         (take (Z.to_nat n) extra).
Proof.
  intros Hn Hextra. unfold copy_phase.
  rewrite !short_drop by lia.
  destruct (short extra rem); [split; done |].
  replace (pos + n + (rem - n)) with (pos + rem) by lia.
  rewrite !drop_drop.
  replace (Z.to_nat n + Z.to_nat (rem - n))%nat with (Z.to_nat rem) by lia.
  split; [done |]. intros _. unfold emit. simpl.
  replace (Z.to_nat rem) with (Z.to_nat n + Z.to_nat (rem - n))%nat at 1 by lia.
  rewrite <- take_take_drop. by rewrite app_assoc.
Qed.

Lemma seek_phase_chunk (rem n : Z) (old : list Z) (k : list Z -> list Z * Ending) :
  0 < n <= rem -> (Z.to_nat n <= length old)%nat ->
  seek_phase rem old k = seek_phase (rem - n) (drop (Z.to_nat n) old) k.
Proof.
  intros Hn Hold. unfold seek_phase.
  rewrite !short_drop by lia.
  destruct (short old rem); [done |].
  rewrite !drop_drop.
  by replace (Z.to_nat n + Z.to_nat (rem - n))%nat with (Z.to_nat rem) by lia.
Qed.

Lemma short_0 (stream : list Z) : short stream 0 = false.
Proof. unfold short. apply Z.ltb_ge. lia. Qed.

(** A step keeps the account of the rest of the run: what the step
    yields is the start of the bytes that were expected, and the end
    that was expected stays the same. *)
Lemma Step_expected (b : positive) (s s' : State) (evs : list Event) :
  Step b s evs s' -> agrees (expected s) (expected s') (output evs).
Proof.
  intros HS. unfold expected.
  step_inversion HS as i c s';
    rewrite ?H0; simpl.
  - rewrite apply_records_unfold.
    destruct (Z.ltb_spec (newPos s) (newSize (header s))); [lia |]. apply agrees_refl.
  - rewrite apply_records_unfold, records_of_short by lia.
    destruct (Z.ltb_spec (newPos s) (newSize (header s))); [| lia]. apply agrees_refl.
  - rewrite apply_records_unfold, records_of_next by lia.
    destruct (Z.ltb_spec (newPos s) (newSize (header s))); [| lia].
    rewrite <- H3.
    destruct ((newSize (header s) <? newPos s + addSize c) || (addSize c <? 0)) eqn:Hbad;
      simpl; [apply agrees_refl |].
    apply orb_false_elim in Hbad as [_ Hneg]. apply Z.ltb_ge in Hneg.
    rewrite H5. replace (Z.max 0 (addSize c - 0)) with (addSize c) by lia.
    apply agrees_refl.
  - rewrite H6, H8.
    replace (Z.max 0 (addSize c - (i + Z.pos b)))
      with (Z.max 0 (addSize c - i) - n) by lia.
    unfold output. simpl. rewrite app_nil_r.
    apply add_phase_chunk; lia.
  - rewrite H4. simpl. unfold add_phase.
    assert (Hs : short (pending (oldReader s)) (Z.max 0 (addSize c - i)) ||
                 short (pending (diffReader s)) (Z.max 0 (addSize c - i)) = true).
    { destruct H3 as [Hs | Hs].
      - rewrite (short_too_few (pending (oldReader s)) n) by (done || lia). done.
      - rewrite (short_too_few (pending (diffReader s)) n) by (done || lia).
        apply orb_true_r. }
    rewrite Hs. apply agrees_refl.
  - replace (Z.max 0 (addSize c - i)) with 0 by lia.
    unfold add_phase. rewrite !short_0. simpl. rewrite !drop_0, Z.add_0_r.
    unfold emit. simpl.
    destruct ((newSize (header s) <? newPos s + copySize c) || (copySize c <? 0)) eqn:Hbad;
      simpl; [apply agrees_refl |].
    apply orb_false_elim in Hbad as [_ Hneg]. apply Z.ltb_ge in Hneg.
    replace (Z.max 0 (copySize c - 0)) with (copySize c) by lia.
    apply agrees_eta.
  - rewrite H5.
    replace (Z.max 0 (copySize c - (i + Z.pos b)))
      with (Z.max 0 (copySize c - i) - n) by lia.
    unfold output. simpl. rewrite app_nil_r.
    apply copy_phase_chunk; lia.
  - rewrite H4. simpl. unfold copy_phase.
    rewrite (short_too_few _ n) by (done || lia). apply agrees_refl.
  - replace (Z.max 0 (copySize c - i)) with 0 by lia.
    unfold copy_phase. rewrite !short_0. simpl. rewrite !drop_0, Z.add_0_r.
    unfold emit. simpl.
    destruct (Z.ltb_spec (seekSize c) 0); simpl; [apply agrees_refl |].
    replace (Z.max 0 (seekSize c - 0)) with (seekSize c) by lia.
    apply agrees_eta.
  - rewrite H5.
    replace (Z.max 0 (seekSize c - (i + Z.pos b)))
      with (Z.max 0 (seekSize c - i) - n) by lia.
    unfold output. simpl.
    rewrite (seek_phase_chunk (Z.max 0 (seekSize c - i)) n) by lia.
    apply agrees_refl.
  - rewrite H4. simpl. unfold seek_phase.
    rewrite (short_too_few _ n) by (done || lia). apply agrees_refl.
  - replace (Z.max 0 (seekSize c - i)) with 0 by lia.
    unfold seek_phase. rewrite !short_0. simpl. rewrite !drop_0.
    apply agrees_refl.
  - apply agrees_refl.
Qed.

Lemma run_expected (b : positive) (fuel : nat) (s : State) :
  state_ok b s ->
  agrees (expected s) (expected (run b fuel s).2) (output (run b fuel s).1).
Proof.
  revert s. induction fuel as [| fuel IH]; intros s Hok; simpl.
  - apply agrees_refl.
  - destruct (terminal s); [apply agrees_refl |].
    destruct (step_cases b s Hok) as (evs & s1 & Hstep & HS). rewrite Hstep.
    pose proof (IH s1 (Step_state_ok b s s1 evs Hok HS)) as Hrest.
    destruct (run b fuel s1) as [tr s2]. simpl in *.
    rewrite output_app. eapply agrees_trans; [by apply (Step_expected b) | done].
Qed.

Lemma expected_terminal (s : State) (e : Ending) :
  ending s = Some e -> expected s = ([], e).
Proof.
  unfold ending, expected. destruct (phase s); intros H; by simplify_eq.
Qed.

(** The engine does what the account says: a run from any state
    ends, and it ends as the account has it; unless that end is a
    stream running out, the bytes it yields are the ones described. *)
Lemma run_refines_description (b : positive) (s : State) :
  state_ok b s ->
  exists e, ending (run b (steps_bound s) s).2 = Some e /\
    e = (expected s).2 /\
    (e <> Rejected UnexpectedEOF -> output (run b (steps_bound s) s).1 = (expected s).1).
Proof.
  intros Hok.
  destruct (terminal_ending _ (run_terminates b (steps_bound s) s Hok ltac:(lia)))
    as [e He].
  destruct (run_expected b (steps_bound s) s Hok) as [Hend Hout].
  rewrite (expected_terminal _ e He) in Hend, Hout. simpl in *.
  exists e. split; [done |]. split; [done |].
  intros Hne. rewrite Hout by congruence. by rewrite app_nil_r.
Qed.

Lemma expected_loop_entry (b : positive) (h : Header) (old control diff extra : list (list Z)) :
  expected (loop_entry b h old control diff extra) =
    apply_records (newSize h) (records_of (concat control)) 0
      (concat old) (concat diff) (concat extra).
Proof. reflexivity. Qed.

(** ** The size of the scratch buffers *)

(** C8, as the code has it.  For any two buffer sizes the loop ends in
    the same way on the same old file and streams, and unless it ends
    with a stream running out (['Unexpected EOF']) the bytes yielded are
    the same. *)
Theorem buffer_size_unobservable_unless_truncated (b1 b2 : positive) (h : Header)
    (old control diff extra : list (list Z)) :
  let r1 := bspatch_loop b1 h old control diff extra in
  let r2 := bspatch_loop b2 h old control diff extra in
  exists e, ending r1.2 = Some e /\ ending r2.2 = Some e /\
    (e <> Rejected UnexpectedEOF -> output r1.1 = output r2.1).
Proof.
  intros r1 r2. subst r1 r2. unfold bspatch_loop.
  destruct (run_refines_description b1 _ (loop_entry_state_ok b1 h old control diff extra))
    as (e1 & He1 & Hx1 & Hout1).
  destruct (run_refines_description b2 _ (loop_entry_state_ok b2 h old control diff extra))
    as (e2 & He2 & Hx2 & Hout2).
  rewrite expected_loop_entry in *.
  exists e1. split; [done |]. split; [congruence |].
  intros Hne. rewrite Hout1, Hout2 by congruence. reflexivity.
Qed.

(** C8.  The claim has the output the same for every pair of buffer
    sizes and every input.  With an old file of one byte and a record
    that adds two, the engine yields the first byte before it fails when
    the buffer holds one byte, and nothing when it holds two. *)
Lemma buffer_size_shows_when_truncated :
  let h := {| magic := MAGIC; controlSize := 0; diffSize := 0; newSize := 2 |} in
  let control := [[2; 0; 0; 0; 0; 0; 0; 0;  0; 0; 0; 0; 0; 0; 0; 0;
                   0; 0; 0; 0; 0; 0; 0; 0]] in
  let r1 := bspatch_loop 1 h [[97]] control [[0; 0]] [] in
  let r2 := bspatch_loop 2 h [[97]] control [[0; 0]] [] in
  output r1.1 = [97] /\ output r2.1 = [] /\ output r1.1 <> output r2.1 /\
  ending r1.2 = Some (Rejected UnexpectedEOF) /\
  ending r2.2 = Some (Rejected UnexpectedEOF).
Proof. vm_compute. repeat split. discriminate. Qed.

(** ** The 32-bit operators *)

Lemma ToInt32_range (z : Z) : - 2 ^ 31 <= JS.ToInt32 z < 2 ^ 31.
Proof.
  unfold JS.ToInt32. pose proof (Z.mod_pos_bound (z + 2 ^ 31) (2 ^ 32)). lia.
Qed.

Lemma ToInt32_small (z : Z) : - 2 ^ 31 <= z < 2 ^ 31 -> JS.ToInt32 z = z.
Proof. intros H. unfold JS.ToInt32. rewrite Z.mod_small; lia. Qed.

Lemma ToInt32_idem (z : Z) : JS.ToInt32 (JS.ToInt32 z) = JS.ToInt32 z.
Proof. apply ToInt32_small, ToInt32_range. Qed.

Lemma ToInt32_congr (x y : Z) :
  x `mod` 2 ^ 32 = y `mod` 2 ^ 32 -> JS.ToInt32 x = JS.ToInt32 y.
Proof.
  intros H. unfold JS.ToInt32. f_equal.
  rewrite (Z.add_mod x), (Z.add_mod y) by lia. by rewrite H.
Qed.

Lemma ToInt32_mod (z : Z) : JS.ToInt32 z `mod` 2 ^ 32 = z `mod` 2 ^ 32.
Proof.
  unfold JS.ToInt32.
  rewrite <- (Z.mod_add ((z + 2 ^ 31) `mod` 2 ^ 32 - 2 ^ 31) 1) by lia.
  replace ((z + 2 ^ 31) `mod` 2 ^ 32 - 2 ^ 31 + 1 * 2 ^ 32)
    with ((z + 2 ^ 31) `mod` 2 ^ 32 + 2 ^ 31) by lia.
  rewrite Z.add_mod_idemp_l by lia.
  replace (z + 2 ^ 31 + 2 ^ 31) with (z + 1 * 2 ^ 32) by lia.
  by rewrite Z.mod_add by lia.
Qed.

Lemma land_mul_pow2_small (q k x : Z) :
  0 <= k -> 0 <= x < 2 ^ k -> Z.land (q * 2 ^ k) x = 0.
Proof.
  intros Hk Hx. apply Z.bits_inj'. intros n Hn.
  rewrite Z.land_spec, Z.bits_0.
  destruct (Z.lt_ge_cases n k).
  - by rewrite Z.mul_pow2_bits_low by lia.
  - replace x with (x `mod` 2 ^ k) by (apply Z.mod_small; lia).
    rewrite Z.mod_pow2_bits_high by lia. apply andb_false_r.
Qed.

(** [(a << k) | x] appends the [k] bits of [x] to [a], up to the 32-bit
    wrap. *)
Lemma shl_bor (a k x : Z) :
  0 <= k <= 31 -> 0 <= x < 2 ^ k ->
  JS.bor (JS.shl (JS.ToInt32 a) k) x = JS.ToInt32 (a * 2 ^ k + x).
Proof.
  intros Hk Hx. unfold JS.bor, JS.shl.
  assert (Hland : Z.land k 31 = k).
  { change 31 with (Z.ones 5). rewrite Z.land_ones by lia.
    apply Z.mod_small. change (2 ^ 5) with 32. lia. }
  rewrite Hland, !ToInt32_idem, Z.shiftl_mul_pow2 by lia.
  assert (Hx31 : x < 2 ^ 31).
  { assert (2 ^ k <= 2 ^ 31) by (apply Z.pow_le_mono_r; lia). lia. }
  rewrite (ToInt32_small x) by lia.
  assert (HT : JS.ToInt32 (JS.ToInt32 a * 2 ^ k) = JS.ToInt32 (a * 2 ^ k)).
  { apply ToInt32_congr.
    rewrite (Z.mul_mod (JS.ToInt32 a)), (Z.mul_mod a) by lia.
    by rewrite ToInt32_mod. }
  rewrite HT.
  (* the shifted word is a multiple of [2 ^ k] *)
  assert (Hmul : exists q, JS.ToInt32 (a * 2 ^ k) = q * 2 ^ k /\
                   (a * 2 ^ k + 2 ^ 31) `mod` 2 ^ 32 = (q + 2 ^ (31 - k)) * 2 ^ k /\
                   0 <= q + 2 ^ (31 - k) < 2 ^ (32 - k)).
  { unfold JS.ToInt32.
    assert (H31 : 2 ^ 31 = 2 ^ (31 - k) * 2 ^ k)
      by (rewrite <- Z.pow_add_r by lia; f_equal; lia).
    assert (H32 : 2 ^ 32 = 2 ^ (32 - k) * 2 ^ k)
      by (rewrite <- Z.pow_add_r by lia; f_equal; lia).
    assert (Hpk : 0 < 2 ^ k) by (apply Z.pow_pos_nonneg; lia).
    assert (Hp32 : 0 < 2 ^ (32 - k)) by (apply Z.pow_pos_nonneg; lia).
    exists ((a + 2 ^ (31 - k)) `mod` 2 ^ (32 - k) - 2 ^ (31 - k)).
    assert (Hm : (a * 2 ^ k + 2 ^ 31) `mod` 2 ^ 32 =
                 (a + 2 ^ (31 - k)) `mod` 2 ^ (32 - k) * 2 ^ k).
    { rewrite H31 at 1. rewrite H32.
      replace (a * 2 ^ k + 2 ^ (31 - k) * 2 ^ k) with ((a + 2 ^ (31 - k)) * 2 ^ k) by lia.
      rewrite Z.mul_mod_distr_r by lia. reflexivity. }
    rewrite Hm.
    pose proof (Z.mod_pos_bound (a + 2 ^ (31 - k)) (2 ^ (32 - k)) Hp32).
    split; [lia |]. split; [f_equal; lia | lia]. }
  destruct Hmul as (q & Hq & Hmod & Hrange).
  rewrite Hq.
  pose proof (Z.add_lor_land (q * 2 ^ k) x) as Hadd.
  rewrite land_mul_pow2_small in Hadd by lia.
  replace (Z.lor (q * 2 ^ k) x) with (q * 2 ^ k + x) by lia.
  rewrite <- Hq. unfold JS.ToInt32.
  replace (a * 2 ^ k + x + 2 ^ 31) with (x + (a * 2 ^ k + 2 ^ 31)) by lia.
  rewrite <- (Z.add_mod_idemp_r x (a * 2 ^ k + 2 ^ 31)) by lia. rewrite Hmod.
  assert (Hpk : 0 < 2 ^ k) by (apply Z.pow_pos_nonneg; lia).
  assert (H32 : 2 ^ 32 = 2 ^ (32 - k) * 2 ^ k)
    by (rewrite <- Z.pow_add_r by lia; f_equal; lia).
  rewrite Z.mod_small; [lia |].
  split; [nia |]. rewrite H32. nia.
Qed.

(** ** Bits and masks *)

Lemma bits_value_from (bits : list bool) (acc : Z) :
  fold_left (fun acc bit => 2 * acc + Z.b2z bit) bits acc =
    acc * 2 ^ Z.of_nat (length bits) + bits_value bits.
Proof.
  unfold bits_value. revert acc.
  induction bits as [| bit bits IH]; intros acc; simpl fold_left.
  - simpl. lia.
  - rewrite IH, (IH (2 * 0 + Z.b2z bit)).
    replace (Z.of_nat (length (bit :: bits))) with (Z.of_nat (length bits) + 1)
      by (simpl length; lia).
    rewrite Z.pow_add_r by lia. lia.
Qed.

Lemma bits_value_app (xs ys : list bool) :
  bits_value (xs ++ ys) = bits_value xs * 2 ^ Z.of_nat (length ys) + bits_value ys.
Proof.
  unfold bits_value at 1. rewrite fold_left_app.
  fold (bits_value xs). apply bits_value_from.
Qed.

Lemma bits_value_bound (bits : list bool) :
  0 <= bits_value bits < 2 ^ Z.of_nat (length bits).
Proof.
  induction bits as [| bit bits IH] using rev_ind.
  - simpl. unfold bits_value. simpl. lia.
  - rewrite bits_value_app, length_app. simpl length.
    replace (Z.of_nat (length bits + 1)) with (Z.of_nat (length bits) + 1) by lia.
    rewrite Z.pow_add_r by lia.
    change (bits_value [bit]) with (2 * 0 + Z.b2z bit).
    destruct bit; simpl Z.b2z; lia.
Qed.

Lemma bits_of_byte_length (byte : Z) : length (bits_of_byte byte) = 8%nat.
Proof. reflexivity. Qed.

(** The two mask expressions of [readBits], checked on every byte,
    cursor and width they can meet. *)
Lemma whole_rest_table :
  forallb (fun byte =>
    forallb (fun left =>
      JS.band (at_index BITMASK (Z.to_nat left)) byte =?
      bits_value (drop (Z.to_nat (8 - left)) (bits_of_byte byte)))
      (seqZ 1 8))
    (seqZ 0 256) = true.
Proof. vm_compute. reflexivity. Qed.

Lemma part_table :
  forallb (fun byte =>
    forallb (fun c =>
      forallb (fun n =>
        (8 - c <=? n) ||
        (JS.sar (JS.band byte (JS.shl (at_index BITMASK (Z.to_nat n)) (8 - n - c)))
                (8 - n - c) =?
         bits_value (take (Z.to_nat n) (drop (Z.to_nat c) (bits_of_byte byte)))))
        (seqZ 1 7))
      (seqZ 0 8))
    (seqZ 0 256) = true.
Proof. vm_compute. reflexivity. Qed.

Lemma forallb_seqZ (f : Z -> bool) (m len x : Z) :
  forallb f (seqZ m len) = true -> m <= x < m + len -> f x = true.
Proof.
  intros Hall Hx. rewrite forallb_forall in Hall. apply Hall.
  apply list_elem_of_In, elem_of_seqZ. lia.
Qed.

Lemma band_mask_rest (byte left : Z) :
  is_byte byte -> 1 <= left <= 8 ->
  JS.band (at_index BITMASK (Z.to_nat left)) byte =
    bits_value (drop (Z.to_nat (8 - left)) (bits_of_byte byte)).
Proof.
  intros Hb Hl. apply Z.eqb_eq.
  pose proof (forallb_seqZ _ 0 256 byte whole_rest_table ltac:(unfold is_byte in Hb; lia)) as H.
  cbv beta in H. exact (forallb_seqZ _ 1 8 left H ltac:(lia)).
Qed.

Lemma sar_mask_part (byte c n : Z) :
  is_byte byte -> 0 <= c -> 1 <= n -> n < 8 - c ->
  JS.sar (JS.band byte (JS.shl (at_index BITMASK (Z.to_nat n)) (8 - n - c))) (8 - n - c) =
    bits_value (take (Z.to_nat n) (drop (Z.to_nat c) (bits_of_byte byte))).
Proof.
  intros Hb Hc Hn Hlt.
  pose proof (forallb_seqZ _ 0 256 byte part_table ltac:(unfold is_byte in Hb; lia)) as H.
  cbv beta in H.
  pose proof (forallb_seqZ _ 0 8 c H ltac:(lia)) as H'. cbv beta in H'.
  pose proof (forallb_seqZ _ 1 7 n H' ltac:(lia)) as H''. cbv beta in H''.
  apply orb_true_iff in H'' as [Hge | Heq]; [apply Z.leb_le in Hge; lia |].
  by apply Z.eqb_eq.
Qed.

(** ** The bit reader *)

Section BitReaderFacts.
Context {R : Type} (reader_read : R -> list Z -> R * list Z * ReadResult).

Lemma loop_end (fuel : nat) (st : BitReader R) (n acc : Z) :
  n <= 0 -> readBits_loop reader_read (S fuel) st n acc = Some (st, acc).
Proof. intros Hn. simpl. by destruct (Z.ltb_spec 0 n); [lia |]. Qed.

Lemma loop_buffered (fuel : nat) (st : BitReader R) (n acc : Z) :
  0 < n -> cursor st <> -1 ->
  readBits_loop reader_read (S fuel) st n acc =
    if 8 - cursor st <=? n then
      readBits_loop reader_read fuel
        {| source := source st; byte_buffer := byte_buffer st; cursor := -1 |}
        (n - (8 - cursor st))
        (JS.bor (JS.shl acc (8 - cursor st))
           (JS.band (at_index BITMASK (Z.to_nat (8 - cursor st)))
              (at_index (byte_buffer st) 0)))
    else
      readBits_loop reader_read fuel
        {| source := source st; byte_buffer := byte_buffer st; cursor := cursor st + n |}
        0
        (JS.bor (JS.shl acc n)
           (JS.sar (JS.band (at_index (byte_buffer st) 0)
                      (JS.shl (at_index BITMASK (Z.to_nat n)) (8 - n - cursor st)))
                   (8 - n - cursor st))).
Proof.
  intros Hn Hc. simpl.
  destruct (Z.ltb_spec 0 n); [| lia].
  destruct (Z.eqb_spec (cursor st) (-1)); [done |]. reflexivity.
Qed.

Lemma loop_fetch (fuel : nat) (st : BitReader R) (n acc : Z)
    (r' : R) (buf' : list Z) (res : ReadResult) :
  0 < n -> cursor st = -1 ->
  reader_read (source st) (byte_buffer st) = (r', buf', res) ->
  done res = false -> length (value res) <> 0%nat ->
  readBits_loop reader_read (S fuel) st n acc =
    readBits_loop reader_read (S fuel)
      {| source := r'; byte_buffer := buf'; cursor := 0 |} n acc.
Proof.
  intros Hn Hc Hread Hdone Hlen. simpl.
  destruct (Z.ltb_spec 0 n); [| lia].
  rewrite Hc, Hread, Hdone. simpl.
  destruct (Nat.eqb_spec (length (value res)) 0); [done |]. reflexivity.
Qed.

Lemma loop_dry (fuel : nat) (st : BitReader R) (n acc : Z)
    (r' : R) (buf' : list Z) (res : ReadResult) :
  0 < n -> cursor st = -1 ->
  reader_read (source st) (byte_buffer st) = (r', buf', res) ->
  done res = true \/ length (value res) = 0%nat ->
  readBits_loop reader_read (S fuel) st n acc =
    Some ({| source := r'; byte_buffer := buf'; cursor := -1 |}, -1).
Proof.
  intros Hn Hc Hread Hdry. simpl.
  destruct (Z.ltb_spec 0 n); [| lia].
  rewrite Hc, Hread. simpl.
  destruct Hdry as [-> | ->]; [done |]. by rewrite orb_true_r.
Qed.

Lemma buffered_fresh (r : R) (buf : list Z) :
  buffered {| source := r; byte_buffer := buf; cursor := -1 |} = [].
Proof. reflexivity. Qed.

Lemma buffered_at (st : BitReader R) :
  cursor st <> -1 ->
  buffered st = drop (Z.to_nat (cursor st)) (bits_of_byte (at_index (byte_buffer st) 0)).
Proof. intros H. unfold buffered. by destruct (Z.eqb_spec (cursor st) (-1)). Qed.

(** The loop of [readBits] when the bits are there. *)
Lemma readBits_loop_spec (final : ReadResult -> Prop) (fuel : nat) (st : BitReader R)
    (n a : Z) (bytes : list Z) :
  bit_reader_ok st -> Forall is_byte bytes ->
  serves reader_read final (source st) (byte_buffer st) bytes ->
  0 <= n -> (Z.to_nat n < fuel)%nat ->
  (Z.to_nat n <= length (upcoming st bytes))%nat ->
  exists st' k,
    readBits_loop reader_read fuel st n (JS.ToInt32 a) =
      Some (st', JS.ToInt32 (a * 2 ^ n +
                             bits_value (take (Z.to_nat n) (upcoming st bytes)))) /\
    bit_reader_ok st' /\
    serves reader_read final (source st') (byte_buffer st') (drop k bytes) /\
    upcoming st' (drop k bytes) = drop (Z.to_nat n) (upcoming st bytes).
Proof.
  revert st n a bytes.
  induction fuel as [| fuel IH]; intros st n a bytes Hok Hbytes Hserves Hn Hfuel Hlen;
    [lia |].
  destruct (Z.eq_dec n 0) as [-> | Hn0].
  { rewrite loop_end by lia. exists st, 0%nat.
    change (Z.to_nat 0) with 0%nat. rewrite take_0, !drop_0.
    change (bits_value []) with 0. rewrite Z.pow_0_r.
    replace (a * 1 + 0) with a by lia. done. }
  (* a state with a buffered byte *)
  assert (Hbuf : forall (st1 : BitReader R) (bytes1 : list Z),
    bit_reader_ok st1 -> cursor st1 <> -1 -> Forall is_byte bytes1 ->
    serves reader_read final (source st1) (byte_buffer st1) bytes1 ->
    (Z.to_nat n <= length (upcoming st1 bytes1))%nat ->
    exists st' k,
      readBits_loop reader_read (S fuel) st1 n (JS.ToInt32 a) =
        Some (st', JS.ToInt32 (a * 2 ^ n +
                               bits_value (take (Z.to_nat n) (upcoming st1 bytes1)))) /\
      bit_reader_ok st' /\
      serves reader_read final (source st') (byte_buffer st') (drop k bytes1) /\
      upcoming st' (drop k bytes1) = drop (Z.to_nat n) (upcoming st1 bytes1)).
  { intros st1 bytes1 (Hl1 & Hb1 & Hc1) Hne Hbytes1 Hserves1 Hlen1.
    assert (Hc : 0 <= cursor st1 <= 7) by (destruct Hc1; [done | lia]).
    rewrite loop_buffered by (done || lia).
    unfold upcoming in Hlen1 |- *. rewrite buffered_at in Hlen1 |- * by done.
    set (own := drop (Z.to_nat (cursor st1)) (bits_of_byte (at_index (byte_buffer st1) 0))) in *.
    assert (Hown : length own = Z.to_nat (8 - cursor st1)).
    { subst own. rewrite length_drop, bits_of_byte_length. lia. }
    destruct (Z.leb_spec (8 - cursor st1) n) as [Hle | Hgt].
    - (* the rest of the buffered byte, then more *)
      rewrite band_mask_rest by (done || lia).
      replace (Z.to_nat (8 - (8 - cursor st1))) with (Z.to_nat (cursor st1)) by lia.
      fold own.
      pose proof (bits_value_bound own) as Hv. rewrite Hown in Hv.
      rewrite Z2Nat.id in Hv by lia.
      rewrite shl_bor by lia.
      destruct (IH {| source := source st1; byte_buffer := byte_buffer st1; cursor := -1 |}
                  (n - (8 - cursor st1)) (a * 2 ^ (8 - cursor st1) + bits_value own)
                  bytes1) as (st' & k & Hrun & Hok' & Hserves' & Hup');
        try done; try lia.
      { unfold bit_reader_ok, cursor_ok. simpl. auto. }
      { unfold upcoming. rewrite buffered_fresh. simpl.
        rewrite length_app in Hlen1. lia. }
      exists st', k. split; [| split; [done | split; [done |]]].
      + rewrite Hrun. do 2 f_equal.
        unfold upcoming. rewrite buffered_fresh. simpl.
        rewrite take_app_ge by lia. rewrite Hown.
        rewrite bits_value_app.
        rewrite length_take_le by (rewrite length_app in Hlen1; lia).
        replace (Z.to_nat n - Z.to_nat (8 - cursor st1))%nat
          with (Z.to_nat (n - (8 - cursor st1))) by lia.
        rewrite Z2Nat.id by lia.
        replace n with ((8 - cursor st1) + (n - (8 - cursor st1))) at 3 by lia.
        f_equal. rewrite Z.pow_add_r by lia. ring.
      + unfold upcoming in Hup'. rewrite Hup', buffered_fresh. simpl.
        rewrite drop_app_ge by lia. rewrite Hown. f_equal. lia.
    - (* some of the buffered bits *)
      rewrite sar_mask_part by (done || lia).
      fold own.
      pose proof (bits_value_bound (take (Z.to_nat n) own)) as Hv.
      rewrite length_take_le in Hv by lia. rewrite Z2Nat.id in Hv by lia.
      rewrite shl_bor by lia.
      destruct fuel as [| fuel']; [lia |].
      rewrite loop_end by lia.
      eexists _, 0%nat. split; [| split; [| split]].
      + do 3 f_equal. by rewrite take_app_le by lia.
      + unfold bit_reader_ok, cursor_ok. simpl.
        split; [done | split; [done | right; lia]].
      + by rewrite drop_0.
      + rewrite drop_0. unfold upcoming. rewrite buffered_at by (simpl; lia).
        simpl. rewrite drop_app_le by lia. f_equal. subst own.
        rewrite drop_drop. f_equal. lia. }
  destruct (Z.eq_dec (cursor st) (-1)) as [Hc | Hc]; [| by apply Hbuf].
  (* nothing buffered: fetch a byte first *)
  destruct Hok as (Hl & Hb & Hcur).
  unfold upcoming in Hlen. unfold buffered in Hlen. rewrite Hc in Hlen. simpl in Hlen.
  destruct bytes as [| byte rest]; [simpl in Hlen; lia |].
  simpl in Hserves.
  destruct (reader_read (source st) (byte_buffer st)) as [[r' buf'] res] eqn:Hread.
  destruct Hserves as (Hdone & Hvlen & Hbl & Hbyte & Hrest).
  rewrite (loop_fetch fuel st n (JS.ToInt32 a) r' buf' res) by (done || lia).
  pose proof (Forall_inv Hbytes) as Hbyte_ok.
  pose proof (Forall_inv_tail Hbytes) as Hrest_ok.
  assert (Hok1 : bit_reader_ok {| source := r'; byte_buffer := buf'; cursor := 0 |}).
  { unfold bit_reader_ok, cursor_ok. simpl. rewrite Hbyte.
    split; [done | split; [done | right; lia]]. }
  assert (Hne1 : cursor {| source := r'; byte_buffer := buf'; cursor := 0 |} <> -1)
    by (simpl; lia).
  assert (Hlen1 : (Z.to_nat n <=
            length (upcoming {| source := r'; byte_buffer := buf'; cursor := 0 |} rest))%nat).
  { unfold upcoming. rewrite buffered_at by exact Hne1. simpl cursor. simpl byte_buffer.
    rewrite Hbyte. simpl Z.to_nat. rewrite drop_0. exact Hlen. }
  destruct (Hbuf _ rest Hok1 Hne1 Hrest_ok Hrest Hlen1)
    as (st' & k & Hrun & Hok' & Hserves' & Hup').
  exists st', (S k).
  assert (Hsame : upcoming {| source := r'; byte_buffer := buf'; cursor := 0 |} rest =
                  upcoming st (byte :: rest)).
  { unfold upcoming. rewrite buffered_at by exact Hne1. simpl cursor. simpl byte_buffer.
    rewrite Hbyte. unfold buffered. rewrite Hc. reflexivity. }
  rewrite Hsame in Hrun, Hup'. done.
Qed.

(** The loop of [readBits] when the reader gives out before the bits
    are there: the answer is [-1] whatever has been gathered. *)
Lemma readBits_loop_dry (final : ReadResult -> Prop) (fuel : nat) (st : BitReader R)
    (n acc : Z) (bytes : list Z) :
  (forall res, final res -> done res = true \/ length (value res) = 0%nat) ->
  cursor_ok st ->
  serves reader_read final (source st) (byte_buffer st) bytes ->
  (length (upcoming st bytes) < Z.to_nat n)%nat -> (Z.to_nat n < fuel)%nat ->
  exists st', readBits_loop reader_read fuel st n acc = Some (st', -1) /\
    cursor st' = -1.
Proof.
  intros Hfinal. revert st n acc bytes.
  induction fuel as [| fuel IH]; intros st n acc bytes Hcur Hserves Hlen Hfuel; [lia |].
  assert (Hbuf : forall (st1 : BitReader R) (bytes1 : list Z) (acc1 : Z),
    0 <= cursor st1 <= 7 ->
    serves reader_read final (source st1) (byte_buffer st1) bytes1 ->
    (length (upcoming st1 bytes1) < Z.to_nat n)%nat ->
    exists st', readBits_loop reader_read (S fuel) st1 n acc1 = Some (st', -1) /\
      cursor st' = -1).
  { intros st1 bytes1 acc1 Hc Hserves1 Hlen1.
    rewrite loop_buffered by lia.
    unfold upcoming in Hlen1. rewrite buffered_at in Hlen1 by lia.
    rewrite length_app, length_drop, bits_of_byte_length in Hlen1.
    destruct (Z.leb_spec (8 - cursor st1) n) as [Hle | Hgt]; [| lia].
    apply (IH _ _ _ bytes1); try done; try lia.
    - by left.
    - unfold upcoming. rewrite buffered_fresh. simpl. lia. }
  destruct (Z.eq_dec (cursor st) (-1)) as [Hc | Hc];
    [| apply (Hbuf _ bytes); try done; destruct Hcur; [done | lia]].
  unfold upcoming, buffered in Hlen. rewrite Hc in Hlen. simpl in Hlen.
  destruct bytes as [| byte rest]; simpl in Hserves;
    destruct (reader_read (source st) (byte_buffer st)) as [[r' buf'] res] eqn:Hread.
  - rewrite (loop_dry fuel st n acc r' buf' res) by (done || lia || by apply Hfinal).
    by eexists.
  - destruct Hserves as (Hdone & Hvlen & Hbl & Hbyte & Hrest).
    rewrite (loop_fetch fuel st n acc r' buf' res) by (done || lia).
    apply (Hbuf _ rest); simpl; try done; try lia.
Qed.

End BitReaderFacts.

(** C7, as the code has it.  For [1 <= n <= 32], when the buffered bits
    and the bytes the reader still hands over hold [n] bits,
    [readBits(n)] returns the number spelled by the next [n] bits, the
    most significant bit of each byte first and earlier bits weighing
    more, brought into the signed 32-bit range: for [n <= 31] that is
    the number itself, for [n = 32] its two's-complement reading.  The
    reader is asked for one byte at a time, the buffer holds one byte,
    and the bits not taken stay buffered.  When the reader reports
    completion before [n] bits are there, the answer is [-1]. *)
Theorem readBits_returns_next_bits {R : Type}
    (reader_read : R -> list Z -> R * list Z * ReadResult)
    (st : BitReader R) (n : Z) (bytes : list Z) :
  bit_reader_ok st -> Forall is_byte bytes ->
  serves reader_read reports_done (source st) (byte_buffer st) bytes ->
  1 <= n <= 32 ->
  ((Z.to_nat n <= length (upcoming st bytes))%nat ->
   exists st' k,
     readBits reader_read st n =
       Some (st', JS.ToInt32 (bits_value (take (Z.to_nat n) (upcoming st bytes)))) /\
     (n <= 31 ->
      JS.ToInt32 (bits_value (take (Z.to_nat n) (upcoming st bytes))) =
        bits_value (take (Z.to_nat n) (upcoming st bytes))) /\
     bit_reader_ok st' /\
     serves reader_read reports_done (source st') (byte_buffer st') (drop k bytes) /\
     upcoming st' (drop k bytes) = drop (Z.to_nat n) (upcoming st bytes)) /\
  ((length (upcoming st bytes) < Z.to_nat n)%nat ->
   exists st', readBits reader_read st n = Some (st', -1) /\ cursor st' = -1).
Proof.
  intros Hok Hbytes Hserves Hn. split.
  - intros Hlen. unfold readBits.
    destruct (readBits_loop_spec reader_read reports_done (S (Z.to_nat n)) st n 0 bytes)
      as (st' & k & Hrun & Hok' & Hserves' & Hup'); try done; try lia.
    change (JS.ToInt32 0) with 0 in Hrun. rewrite Z.mul_0_l, Z.add_0_l in Hrun.
    exists st', k. split; [exact Hrun |]. split; [| done].
    intros Hn31. apply ToInt32_small.
    pose proof (bits_value_bound (take (Z.to_nat n) (upcoming st bytes))) as Hv.
    rewrite length_take_le in Hv by lia. rewrite Z2Nat.id in Hv by lia.
    assert (2 ^ n <= 2 ^ 31) by (apply Z.pow_le_mono_r; lia). lia.
  - intros Hlen. unfold readBits.
    apply (readBits_loop_dry reader_read reports_done _ st n 0 bytes); try done; try lia.
    + intros res Hres. by left.
    + apply Hok.
Qed.

Lemma readBits_returns_next_bits_witness :
  let st := bitReaderFromStreamReader (reader_of [[0xA5; 0x3C]]) in
  bit_reader_ok st /\ Forall is_byte [0xA5; 0x3C] /\
  serves (emulated_read chunks_read) reports_done (source st) (byte_buffer st)
    [0xA5; 0x3C] /\
  1 <= 3 <= 32 /\
  exists st', readBits (emulated_read chunks_read) st 3 = Some (st', 5).
Proof.
  intros st.
  assert (H1 : bit_reader_ok st).
  { unfold bit_reader_ok, cursor_ok, is_byte. vm_compute. repeat split; try discriminate.
    by left. }
  assert (H2 : Forall is_byte [0xA5; 0x3C])
    by (repeat constructor; unfold is_byte; lia).
  assert (H3 : serves (emulated_read chunks_read) reports_done (source st)
                 (byte_buffer st) [0xA5; 0x3C]).
  { simpl. repeat split; discriminate. }
  assert (H4 : 1 <= 3 <= 32) by lia.
  repeat (split; [assumption |]).
  destruct (readBits_returns_next_bits (emulated_read chunks_read) st 3 [0xA5; 0x3C]
              H1 H2 H3 H4) as [Hbits _].
  destruct (Hbits ltac:(simpl; lia)) as (st' & k & Hrun & _).
  exists st'. exact Hrun.
Defined.

(** C7.  The claim has [readBits(n)] return the next [n] bits for every
    [n] up to 32 and keeps [-1] for the end of the stream.  A read of
    32 bits that are all ones succeeds and returns [-1]. *)
Lemma readBits_32_ones_is_minus_one :
  let st := bitReaderFromStreamReader (reader_of [[255; 255; 255; 255; 7]]) in
  bits_value (take 32 (upcoming st [255; 255; 255; 255; 7])) = 4294967295 /\
  exists st', readBits (emulated_read chunks_read) st 32 = Some (st', -1) /\
    pending (source st') = [7].
Proof. vm_compute. split; [reflexivity |]. eexists. split; reflexivity. Qed.

(** C10.  A read of the upstream reader that succeeds with no bytes
    stops [readBits] as the end of the stream does: whether the reader,
    after the bytes it still hands over, reports completion or hands
    over nothing, a read of more bits than are there returns [-1],
    whatever bits the loop has gathered so far, and leaves no bit
    buffered. *)
Theorem readBits_treats_empty_read_as_end {R : Type}
    (reader_read : R -> list Z -> R * list Z * ReadResult)
    (st : BitReader R) (n acc : Z) (bytes : list Z) (fuel : nat) :
  cursor_ok st ->
  serves reader_read reports_done (source st) (byte_buffer st) bytes \/
  serves reader_read hands_over_nothing (source st) (byte_buffer st) bytes ->
  (length (upcoming st bytes) < Z.to_nat n)%nat -> (Z.to_nat n < fuel)%nat ->
  (exists st', readBits_loop reader_read fuel st n acc = Some (st', -1) /\
     cursor st' = -1 /\ buffered st' = []) /\
  (exists st', readBits reader_read st n = Some (st', -1) /\
     cursor st' = -1 /\ buffered st' = []).
Proof.
  intros Hcur Hserves Hlen Hfuel.
  assert (Hgen : forall fuel' acc', (Z.to_nat n < fuel')%nat ->
    exists st', readBits_loop reader_read fuel' st n acc' = Some (st', -1) /\
      cursor st' = -1 /\ buffered st' = []).
  { intros fuel' acc' Hfuel'.
    assert (Hrun : exists st', readBits_loop reader_read fuel' st n acc' = Some (st', -1) /\
                     cursor st' = -1).
    { destruct Hserves as [Hs | Hs].
      - apply (readBits_loop_dry reader_read reports_done _ st n acc' bytes); try done.
        intros res Hres. by left.
      - apply (readBits_loop_dry reader_read hands_over_nothing _ st n acc' bytes);
          try done.
        intros res [_ Hres]. by right. }
    destruct Hrun as (st' & Hrun & Hc). exists st'. split; [done |]. split; [done |].
    unfold buffered. by rewrite Hc. }
  split; [by apply Hgen |]. unfold readBits. apply Hgen. lia.
Qed.

Lemma readBits_treats_empty_read_as_end_witness :
  let st := bitReaderFromStreamReader (reader_of [[0xA5]; []; [0x3C]]) in
  cursor_ok st /\
  serves (emulated_read chunks_read) hands_over_nothing (source st) (byte_buffer st)
    [0xA5] /\
  (length (upcoming st [0xA5%Z]) < Z.to_nat 12)%nat /\ (Z.to_nat 12 < 13)%nat /\
  exists st', readBits (emulated_read chunks_read) st 12 = Some (st', -1).
Proof.
  intros st.
  assert (H1 : cursor_ok st) by (by left).
  assert (H2 : serves (emulated_read chunks_read) hands_over_nothing (source st)
                 (byte_buffer st) [0xA5]).
  { simpl. repeat split; discriminate. }
  assert (H3 : (length (upcoming st [0xA5%Z]) < Z.to_nat 12)%nat) by (simpl; lia).
  assert (H4 : (Z.to_nat 12 < 13)%nat) by lia.
  repeat (split; [assumption |]).
  destruct (readBits_treats_empty_read_as_end (emulated_read chunks_read) st 12 0
              [0xA5] 13 H1 (or_intror H2) H3 H4) as [_ (st' & Hrun & _)].
  exists st'. exact Hrun.
Defined.

(** ** The header *)

Example header_of_demo_patch (b : positive) (bzip2 : list Z -> list (list Z)) :
  bspatch_open b bzip2 []
    [[66; 83; 68; 73; 70; 70; 52; 48]; [0; 0; 0; 0; 0; 0; 0; 0];
     [0; 0; 0; 0; 0; 0; 0; 0; 1; 0; 0; 0; 0; 0; 0; 1]] = Some (inl CorruptPatch).
Proof. vm_compute. reflexivity. Qed.

Example header_with_wrong_magic (b : positive) (bzip2 : list Z -> list (list Z)) :
  bspatch_open b bzip2 []
    [[66; 83; 68; 73; 70; 70; 52; 49;  0; 0; 0; 0; 0; 0; 0; 0;
      0; 0; 0; 0; 0; 0; 0; 0;  3; 0; 0; 0; 0; 0; 0; 0]] = Some (inl CorruptPatch).
Proof. vm_compute. reflexivity. Qed.

(** C4.  The claim: a header that declares a negative size, bit [0x80]
    of the field's eighth byte set over a magnitude that is not zero,
    is rejected with ['Corrupt patch'] before any output.  The header
    below declares [newSize = -1]; the engine decodes it as [1], passes
    the check and enters the loop with one byte to produce. *)
Theorem negative_newSize_passes_header_check (b : positive)
    (bzip2 : list Z -> list (list Z)) (old : list (list Z)) :
  let patch := [[66; 83; 68; 73; 70; 70; 52; 48;  0; 0; 0; 0; 0; 0; 0; 0;
                 0; 0; 0; 0; 0; 0; 0; 0;  1; 0; 0; 0; 0; 0; 0; 0x80]] in
  sign_magnitude64 (concat patch) 24 = -1 /\
  exists s, bspatch_open b bzip2 old patch = Some (inr s) /\
    newSize (header s) = 1 /\ phase s = AtLoop /\ newPos s < newSize (header s).
Proof.
  intros patch. split; [reflexivity |].
  eexists. split; [vm_compute; reflexivity |].
  simpl. repeat split.
Qed.

(** ** The whole application *)

Lemma readHeader_total (r : Reader) :
  offset_ok r -> exists r' res, readHeader r = Some (r', res) /\ offset_ok r'.
Proof.
  intros Hok. unfold readHeader.
  destruct (read_chunks_spec r (new_Uint8Array 32) 32 Hok)
    as (r' & buf' & err & Hread & Hok' & _ & _).
  { unfold new_Uint8Array. rewrite length_replicate. lia. }
  change (length (new_Uint8Array 32)) with 32%nat. rewrite Hread. simpl.
  destruct err; eexists _, _; (split; [reflexivity | done]).
Qed.

(** The start of the generator always comes to an end, and the size of
    the scratch buffers plays no part in it: it fails in the same way
    for every size, or enters the loop on the same header and streams,
    with a size that is not negative. *)
Lemma bspatch_open_entry (b : positive) (bzip2 : list Z -> list (list Z))
    (old patch : list (list Z)) :
  (exists e, forall b', bspatch_open b' bzip2 old patch = Some (inl e)) \/
  (exists h control diff extra, 0 <= newSize h /\
     forall b', bspatch_open b' bzip2 old patch =
                  Some (inr (loop_entry b' h old control diff extra))).
Proof.
  unfold bspatch_open.
  destruct (readHeader_total (emulateBYOB patch) I) as (r1 & res & Hhdr & Hok1).
  rewrite Hhdr. simpl. destruct res as [e | h]; [left; by exists e |].
  destruct (negb (String.eqb (magic h) MAGIC) || (controlSize h <? 0) ||
            (diffSize h <? 0) || (newSize h <? 0)) eqn:Hbad;
    [left; by exists CorruptPatch |].
  apply orb_false_elim in Hbad as [_ Hsize]. apply Z.ltb_ge in Hsize.
  destruct (read_chunks_spec r1 (new_Uint8Array (Z.to_nat (controlSize h)))
              (Z.to_nat (controlSize h)) Hok1)
    as (r2 & control & e2 & Hread2 & Hok2 & _ & _).
  { unfold new_Uint8Array. rewrite length_replicate. lia. }
  rewrite Hread2. simpl. destruct e2 as [e |]; [left; by exists e |].
  destruct (read_chunks_spec r2 (new_Uint8Array (Z.to_nat (diffSize h)))
              (Z.to_nat (diffSize h)) Hok2)
    as (r3 & diff & e3 & Hread3 & Hok3 & _ & _).
  { unfold new_Uint8Array. rewrite length_replicate. lia. }
  rewrite Hread3. simpl. destruct e3 as [e |]; [left; by exists e |].
  right. eexists h, _, _, _. split; [done |]. reflexivity.
Qed.

(** Every state in which the loop is entered has the shape the
    invariants start from. *)
Lemma bspatch_open_initial (b : positive) (bzip2 : list Z -> list (list Z))
    (old patch : list (list Z)) (s : State) :
  bspatch_open b bzip2 old patch = Some (inr s) -> state_ok b s /\ initial s.
Proof.
  intros Hopen.
  destruct (bspatch_open_entry b bzip2 old patch)
    as [(e & He) | (h & control & diff & extra & Hsize & Hentry)].
  - rewrite He in Hopen. discriminate.
  - rewrite Hentry in Hopen. injection Hopen as <-.
    split; [apply loop_entry_state_ok | by apply loop_entry_initial].
Qed.

(** The size of the scratch buffers in a whole application, for any
    decoder: the applications end in the same way, and with the same
    bytes unless a stream ran out. *)
Lemma bspatch_buffer_size (b1 b2 : positive) (bzip2 : list Z -> list (list Z))
    (old patch : list (list Z)) :
  exists tr1 r1 tr2 r2 e,
    bspatch b1 bzip2 old patch = Some (tr1, r1) /\
    bspatch b2 bzip2 old patch = Some (tr2, r2) /\
    outcome r1 = Some e /\ outcome r2 = Some e /\
    (e <> Rejected UnexpectedEOF -> output tr1 = output tr2).
Proof.
  unfold bspatch.
  destruct (bspatch_open_entry b1 bzip2 old patch)
    as [(e & He) | (h & control & diff & extra & Hsize & Hentry)].
  - rewrite !He. simpl. by eexists [], _, [], _, _.
  - rewrite !Hentry. simpl.
    destruct (run_refines_description b1 _ (loop_entry_state_ok b1 h old control diff extra))
      as (e1 & He1 & Hx1 & Hout1).
    destruct (run_refines_description b2 _ (loop_entry_state_ok b2 h old control diff extra))
      as (e2 & He2 & Hx2 & Hout2).
    rewrite expected_loop_entry in *.
    destruct (run b1 _ _) as [tr1 s1]. destruct (run b2 _ _) as [tr2 s2].
    simpl in *. exists tr1, (inr s1), tr2, (inr s2), e1.
    repeat split; try done; [simpl; congruence |].
    intros Hne. rewrite Hout1, Hout2 by congruence. reflexivity.
Qed.

(** ** Where the integer decoder is right *)

Example getInt64_zero : getInt64 [0; 0; 0; 0; 0; 0; 0; 0] 0 = 0.
Proof. reflexivity. Qed.

(** The largest magnitude of the format, [2 ^ 63 - 1], comes out as [1]. *)
Example getInt64_largest_magnitude :
  getInt64 [255; 255; 255; 255; 255; 255; 255; 127] 0 = 1 /\
  sign_magnitude64 [255; 255; 255; 255; 255; 255; 255; 127] 0 = 2 ^ 63 - 1.
Proof. split; reflexivity. Qed.

Lemma band_byte (x : Z) : is_byte x -> JS.band x 0xff = x.
Proof.
  intros Hx. unfold is_byte in Hx. unfold JS.band.
  rewrite (ToInt32_small x) by lia.
  change (JS.ToInt32 255) with (Z.ones 8).
  rewrite Z.land_ones by lia. apply Z.mod_small. change (2 ^ 8) with 256. lia.
Qed.

Lemma shl_small (x k : Z) :
  0 <= k <= 31 -> 0 <= x -> x * 2 ^ k < 2 ^ 31 -> JS.shl x k = x * 2 ^ k.
Proof.
  intros Hk Hx Hlt. unfold JS.shl.
  assert (Hland : Z.land k 31 = k).
  { change 31 with (Z.ones 5). rewrite Z.land_ones by lia.
    apply Z.mod_small. change (2 ^ 5) with 32. lia. }
  assert (Hpk : 0 < 2 ^ k) by (apply Z.pow_pos_nonneg; lia).
  rewrite Hland, (ToInt32_small x) by nia.
  rewrite Z.shiftl_mul_pow2 by lia. apply ToInt32_small. nia.
Qed.

Lemma bor_above (low high k : Z) :
  0 <= k -> 0 <= low < 2 ^ k -> 0 <= high -> low + high * 2 ^ k < 2 ^ 31 ->
  JS.bor low (high * 2 ^ k) = low + high * 2 ^ k.
Proof.
  intros Hk Hlow Hhigh Hlt. unfold JS.bor.
  assert (0 < 2 ^ k) by (apply Z.pow_pos_nonneg; lia).
  rewrite !ToInt32_small by nia.
  pose proof (Z.add_lor_land (high * 2 ^ k) low) as Hadd.
  rewrite land_mul_pow2_small in Hadd by lia.
  rewrite Z.lor_comm. lia.
Qed.

Lemma bor_zero (x : Z) : - 2 ^ 31 <= x < 2 ^ 31 -> JS.bor x 0 = x.
Proof.
  intros Hx. unfold JS.bor. rewrite ToInt32_small by lia.
  change (JS.ToInt32 0) with 0. apply Z.lor_0_r.
Qed.

(** On the encodings of the numbers from [0] to [2 ^ 31 - 1], the
    sizes of every patch of less than two gigabytes, the decoder agrees
    with the format. *)
Lemma getInt64_agrees_below_2_31 (b0 b1 b2 b3 : Z) :
  is_byte b0 -> is_byte b1 -> is_byte b2 -> 0 <= b3 < 128 ->
  getInt64 [b0; b1; b2; b3; 0; 0; 0; 0] 0 = b0 + b1 * 2 ^ 8 + b2 * 2 ^ 16 + b3 * 2 ^ 24 /\
  sign_magnitude64 [b0; b1; b2; b3; 0; 0; 0; 0] 0 =
    b0 + b1 * 2 ^ 8 + b2 * 2 ^ 16 + b3 * 2 ^ 24.
Proof.
  intros H0 H1 H2 H3. split; [| unfold sign_magnitude64, at_index; simpl; rewrite Z.land_0_l; lia].
  assert (H3' : is_byte b3) by (unfold is_byte; lia).
  unfold getInt64, at_index. simpl lookup. simpl default.
  rewrite !band_byte by done.
  unfold is_byte in H0, H1, H2.
  change (JS.band 0 255) with 0. change (JS.band 0 127) with 0.
  change (JS.shl 0 (4 * 8)) with 0. change (JS.shl 0 (5 * 8)) with 0.
  change (JS.shl 0 (6 * 8)) with 0. change (JS.shl 0 (7 * 8)) with 0.
  change (JS.band 0 (JS.of_bool (JS.neq 128 0))) with 0.
  change (JS.truthy 0) with false. cbv iota.
  change (0 * 8) with 0. change (1 * 8) with 8. change (2 * 8) with 16.
  change (3 * 8) with 24.
  rewrite (shl_small b0 0), (shl_small b1 8), (shl_small b2 16), (shl_small b3 24) by lia.
  rewrite Z.pow_0_r, Z.mul_1_r.
  rewrite (bor_above b0 b1 8) by lia.
  rewrite (bor_above (b0 + b1 * 2 ^ 8) b2 16) by lia.
  rewrite (bor_above (b0 + b1 * 2 ^ 8 + b2 * 2 ^ 16) b3 24) by lia.
  rewrite !(bor_zero (b0 + b1 * 2 ^ 8 + b2 * 2 ^ 16 + b3 * 2 ^ 24)) by lia.
  reflexivity.
Qed.

(** * Further properties *)

(** ** The bytes yielded and the position in the new file *)

Lemma Step_header (b : positive) (s s' : State) (evs : list Event) :
  Step b s evs s' -> header s' = header s.
Proof. intros HS. destruct HS; try done; by destruct (_ || _) || by destruct (_ <? _). Qed.

Lemma Step_newPos_output (b : positive) (s s' : State) (evs : list Event) :
  Step b s evs s' -> newPos s' = newPos s + Z.of_nat (length (output evs)).
Proof.
  intros HS. unfold output.
  step_inversion HS as i c s'; simpl; rewrite ?app_nil_r; try lia.
  - rewrite length_zip_with, !length_take. lia.
  - rewrite length_take. lia.
Qed.

Lemma Step_finished (b : positive) (s s' : State) (evs : list Event) :
  (phase s = Finished -> newSize (header s) <= newPos s) ->
  Step b s evs s' -> phase s' = Finished -> newSize (header s') <= newPos s'.
Proof.
  intros Hinv HS.
  step_inversion HS as i c s'; simpl; try done; try (rewrite H4; done);
    try (by destruct (_ || _)); by destruct (_ <? _).
Qed.

Lemma new_span_app (cs1 cs2 : list ControlRecord) :
  new_span (cs1 ++ cs2) = new_span cs1 + new_span cs2.
Proof. induction cs1 as [| c cs1 IH]; simpl; lia. Qed.

Lemma Step_new_inv (b : positive) (s s' : State) (tr evs : list Event) :
  new_inv tr s -> Step b s evs s' -> new_inv (tr ++ evs) s'.
Proof.
  intros Hinv HS. unfold new_inv in *.
  step_inversion HS as i c s';
    rewrite ?H0 in Hinv; try (rewrite H4; done);
    rewrite ?app_nil_r, ?records_read_app; simpl.
  - destruct Hinv as (Hall & Hspan). repeat split; try done; lia.
  - done.
  - destruct Hinv as (Hall & Hspan).
    destruct ((newSize (header s) <? newPos s + addSize c) || (addSize c <? 0)) eqn:Hbad;
      [done |].
    apply orb_false_elim in Hbad as [_ Hneg]. apply Z.ltb_ge in Hneg.
    exists (records_read tr). repeat split; try done; lia.
  - destruct Hinv as (cs & Hrec & Hall & Hi & Ha & Hspan).
    rewrite app_nil_r. exists cs. repeat split; try done; lia.
  - destruct Hinv as (cs & Hrec & Hall & Hi & Ha & Hspan).
    destruct ((newSize (header s) <? newPos s + copySize c) || (copySize c <? 0)) eqn:Hbad;
      [done |].
    apply orb_false_elim in Hbad as [_ Hneg]. apply Z.ltb_ge in Hneg.
    exists cs. repeat split; try done; lia.
  - destruct Hinv as (cs & Hrec & Hall & Hi & Ha & Hc & Hspan).
    rewrite app_nil_r. exists cs. repeat split; try done; lia.
  - destruct Hinv as (cs & Hrec & Hall & Hi & Ha & Hc & Hspan).
    destruct (Z.ltb_spec (seekSize c) 0); [done |].
    exists cs. repeat split; try done; lia.
  - destruct Hinv as (cs & Hrec & Hall & Ha & Hc & Hs & Hspan).
    rewrite app_nil_r. exists cs. repeat split; try done; lia.
  - destruct Hinv as (cs & Hrec & Hall & Ha & Hc & Hs & Hspan).
    rewrite Hrec. split.
    + apply Forall_app. split; [done |]. by repeat constructor.
    + rewrite new_span_app. unfold new_span at 2. simpl. lia.
  - unfold terminal in H0. destruct (phase s); try done.
Qed.

Lemma Trace_new_inv (b : positive) (s0 s : State) (tr : list Event) :
  state_ok b s0 -> initial s0 -> Trace b s0 tr s -> new_inv tr s.
Proof.
  intros Hok (Hph & Hn & Ho & Hsize) HT.
  induction HT as [| tr evs s1 s2 HT IH Hstep].
  - unfold new_inv. rewrite Hph. simpl. split; [constructor | done].
  - eapply Step_new_inv; [exact IH |].
    apply step_Step; [by eapply Trace_state_ok | done].
Qed.

Lemma Trace_output_newPos (b : positive) (s0 s : State) (tr : list Event) :
  state_ok b s0 -> Trace b s0 tr s ->
  header s = header s0 /\ newPos s = newPos s0 + Z.of_nat (length (output tr)).
Proof.
  intros Hok HT. induction HT as [| tr evs s1 s2 HT [IHh IHn] Hstep].
  - split; [done | simpl; lia].
  - pose proof (step_Step b s1 s2 evs (Trace_state_ok b s0 s1 tr Hok HT) Hstep) as HS.
    rewrite (Step_header b s1 s2 evs HS), (Step_newPos_output b s1 s2 evs HS).
    rewrite output_app, length_app. split; [done | lia].
Qed.

(** X1.  The bytes a run has yielded are, in number, its [newPos]: from
    the loop entry to any state, the output so far is [newPos] bytes long
    and never longer than the [newSize] of the header, which no step
    changes; when the generator has returned, the output is exactly
    [newSize] bytes long. *)
Theorem output_length_is_newPos (b : positive) (s0 s : State) (tr : list Event) :
  state_ok b s0 -> initial s0 -> Trace b s0 tr s ->
  header s = header s0 /\
  Z.of_nat (length (output tr)) = newPos s /\
  Z.of_nat (length (output tr)) <= newSize (header s0) /\
  (phase s = Finished -> Z.of_nat (length (output tr)) = newSize (header s0)).
Proof.
  intros Hok Hinit HT.
  destruct (Trace_output_newPos b s0 s tr Hok HT) as [Hh Hn].
  destruct (Trace_inv b s0 s tr Hok (initial_pos_inv s0 Hinit) HT) as [_ [Hpos _]].
  pose proof (Trace_new_inv b s0 s tr Hok Hinit HT) as Hnew.
  destruct Hinit as (_ & Hn0 & _ & _). rewrite Hh in Hpos.
  split; [done |]. split; [lia |]. split; [lia |].
  intros Hfin. unfold new_inv in Hnew. rewrite Hfin, Hh in Hnew.
  destruct Hnew as (_ & _ & Hge). lia.
Qed.

Lemma output_length_is_newPos_witness :
  let s0 := demo_entry 2 in
  let r := run 2 20 s0 in
  state_ok 2 s0 /\ initial s0 /\ Trace 2 s0 r.1 r.2 /\ phase r.2 = Finished /\
  Z.of_nat (length (output r.1)) = newSize (header s0).
Proof.
  intros s0 r.
  assert (H1 : state_ok 2 s0) by apply loop_entry_state_ok.
  assert (H2 : initial s0) by (apply loop_entry_initial; simpl; lia).
  assert (H3 : Trace 2 s0 r.1 r.2) by apply run_is_Trace.
  assert (Hph : phase r.2 = Finished) by (vm_compute; reflexivity).
  split; [exact H1 |]. split; [exact H2 |]. split; [exact H3 |]. split; [exact Hph |].
  exact (proj2 (proj2 (proj2 (output_length_is_newPos 2 s0 r.2 r.1 H1 H2 H3))) Hph).
Defined.

(** X2.  When the generator has returned, every record it decoded had
    sizes that are not negative, and the add and copy sizes of the
    decoded records add up to the [newSize] of the header: the loop
    never stops in the middle of a record and never yields a byte no
    record accounts for. *)
Theorem finished_run_accounts_for_newSize (b : positive) (s0 s : State)
    (tr : list Event) :
  state_ok b s0 -> initial s0 -> Trace b s0 tr s -> phase s = Finished ->
  Forall accepted (records_read tr) /\
  new_span (records_read tr) = newSize (header s0) /\
  Z.of_nat (length (output tr)) = new_span (records_read tr).
Proof.
  intros Hok Hinit HT Hfin.
  destruct (Trace_output_newPos b s0 s tr Hok HT) as [Hh Hn].
  destruct (Trace_inv b s0 s tr Hok (initial_pos_inv s0 Hinit) HT) as [_ [Hpos _]].
  pose proof (Trace_new_inv b s0 s tr Hok Hinit HT) as Hnew.
  destruct Hinit as (_ & Hn0 & _ & _).
  unfold new_inv in Hnew. rewrite Hfin in Hnew. destruct Hnew as (Hall & Hspan & Hge).
  rewrite Hh in *. split; [done |]. split; lia.
Qed.

Lemma finished_run_accounts_for_newSize_witness :
  let s0 := demo_entry 2 in
  let r := run 2 20 s0 in
  state_ok 2 s0 /\ initial s0 /\ Trace 2 s0 r.1 r.2 /\ phase r.2 = Finished /\
  new_span (records_read r.1) = newSize (header s0).
Proof.
  intros s0 r.
  assert (H1 : state_ok 2 s0) by apply loop_entry_state_ok.
  assert (H2 : initial s0) by (apply loop_entry_initial; simpl; lia).
  assert (H3 : Trace 2 s0 r.1 r.2) by apply run_is_Trace.
  assert (Hph : phase r.2 = Finished) by (vm_compute; reflexivity).
  split; [exact H1 |]. split; [exact H2 |]. split; [exact H3 |]. split; [exact Hph |].
  exact (proj1 (proj2 (finished_run_accounts_for_newSize 2 s0 r.2 r.1 H1 H2 H3 Hph))).
Defined.

(** ** The end of a run *)

Lemma run_more_fuel (b : positive) (fuel : nat) (s : State) :
  terminal (run b fuel s).2 = true ->
  forall fuel', (fuel <= fuel')%nat -> run b fuel' s = run b fuel s.
Proof.
  revert s. induction fuel as [| fuel IH]; intros s Hterm fuel' Hle.
  - simpl in *. destruct fuel'; simpl; [done | by rewrite Hterm].
  - destruct fuel' as [| fuel']; [lia |]. simpl in *.
    destruct (terminal s) eqn:Hs; [done |].
    destruct (step b s) as [[evs s1] |]; [| simpl in Hterm; congruence].
    pose proof (IH s1) as IH1.
    destruct (run b fuel s1) as [tr s2]. simpl in *.
    rewrite (IH1 Hterm fuel') by lia. reflexivity.
Qed.

(** X3.  The loop always comes to an end.  From any well-shaped state
    the generator returns or throws within [steps_bound] steps, a bound
    that counts the bytes its four readers have yet to deliver: every
    step before the last takes bytes from a reader or moves on within
    its record, so a record of three zero sizes cannot stall it.  Steps
    granted beyond the bound change neither the events nor the final
    state. *)
Theorem run_ends_within_steps_bound (b : positive) (fuel : nat) (s : State) :
  state_ok b s -> (steps_bound s <= fuel)%nat ->
  (exists e, ending (run b fuel s).2 = Some e) /\
  run b fuel s = run b (steps_bound s) s.
Proof.
  intros Hok Hfuel. split.
  - apply terminal_ending. by apply run_terminates.
  - apply run_more_fuel; [| done]. by apply run_terminates.
Qed.

Lemma run_ends_within_steps_bound_witness :
  let s := demo_entry 1 in
  state_ok 1 s /\ (steps_bound s <= 40)%nat /\
  (exists e, ending (run 1 40 s).2 = Some e) /\
  run 1 40 s = run 1 (steps_bound s) s.
Proof.
  intros s.
  assert (H1 : state_ok 1 s) by apply loop_entry_state_ok.
  assert (H2 : (steps_bound s <= 40)%nat) by (vm_compute; lia).
  split; [exact H1 |]. split; [exact H2 |].
  exact (run_ends_within_steps_bound 1 40 s H1 H2).
Defined.

(** ** The new file *)

(** X5.  The chunks in which the old file and the decompressed streams
    arrive are not observable: two applications whose inputs hold the
    same bytes, cut differently, and whose buffers may differ in size,
    end in the same way, and unless they end with a stream running out
    they yield the same bytes. *)
Theorem input_chunking_is_unobservable (b1 b2 : positive) (h : Header)
    (old1 control1 diff1 extra1 old2 control2 diff2 extra2 : list (list Z)) :
  concat old1 = concat old2 -> concat control1 = concat control2 ->
  concat diff1 = concat diff2 -> concat extra1 = concat extra2 ->
  let r1 := bspatch_loop b1 h old1 control1 diff1 extra1 in
  let r2 := bspatch_loop b2 h old2 control2 diff2 extra2 in
  exists e, ending r1.2 = Some e /\ ending r2.2 = Some e /\
    (e <> Rejected UnexpectedEOF -> output r1.1 = output r2.1).
Proof.
  intros Ho Hc Hd Hx r1 r2. subst r1 r2. unfold bspatch_loop.
  destruct (run_refines_description b1 _
              (loop_entry_state_ok b1 h old1 control1 diff1 extra1))
    as (e1 & He1 & Hx1 & Hout1).
  destruct (run_refines_description b2 _
              (loop_entry_state_ok b2 h old2 control2 diff2 extra2))
    as (e2 & He2 & Hx2 & Hout2).
  rewrite expected_loop_entry in *. rewrite Ho, Hc, Hd, Hx in *.
  exists e1. split; [done |]. split; [congruence |].
  intros Hne. rewrite Hout1, Hout2 by congruence. reflexivity.
Qed.

Lemma input_chunking_is_unobservable_witness :
  let control := [[2; 0; 0; 0; 0; 0; 0; 0; 1; 0; 0; 0; 0; 0; 0; 0;
                   0; 0; 0; 0; 0; 0; 0; 0]] in
  let r1 := bspatch_loop 2 demo_header demo_old demo_control demo_diff demo_extra in
  let r2 := bspatch_loop 1 demo_header [[97]; []; [98; 99; 100]] control [[1]; [1]]
              [[]; [120]] in
  exists e, ending r1.2 = Some e /\ ending r2.2 = Some e /\
    (e <> Rejected UnexpectedEOF -> output r1.1 = output r2.1).
Proof.
  intros control.
  exact (input_chunking_is_unobservable 2 1 demo_header
           demo_old demo_control demo_diff demo_extra
           [[97]; []; [98; 99; 100]] control [[1]; [1]] [[]; [120]]
           eq_refl eq_refl eq_refl eq_refl).
Defined.

(** ** The start of the generator *)

Lemma at_index_take (n i : nat) (bytes : list Z) :
  (i < n)%nat -> at_index (take n bytes) i = at_index bytes i.
Proof. intros Hi. unfold at_index. by rewrite lookup_take_lt. Qed.

Lemma getInt64_take (n : nat) (bytes : list Z) (off : nat) :
  (off + 8 <= n)%nat -> getInt64 (take n bytes) off = getInt64 bytes off.
Proof. intros Hn. unfold getInt64. rewrite !at_index_take by lia. reflexivity. Qed.

Lemma getAsciiString_from_take (count n : nat) (bytes : list Z) (i : nat) :
  (i + count <= n)%nat ->
  getAsciiString_from count (take n bytes) i = getAsciiString_from count bytes i.
Proof.
  revert i. induction count as [| count IH]; intros i Hn; [done |].
  simpl. rewrite at_index_take by lia. rewrite IH by lia. reflexivity.
Qed.





(** ** The range of the integer decoder *)

Lemma int32_by_shift (x : Z) :
  - 2 ^ 31 <= x < 2 ^ 31 <-> (Z.shiftr x 31 = 0 \/ Z.shiftr x 31 = -1).
Proof.
  rewrite Z.shiftr_div_pow2 by lia.
  pose proof (Z.div_mod x (2 ^ 31) ltac:(lia)) as Hdm.
  pose proof (Z.mod_pos_bound x (2 ^ 31) ltac:(lia)) as Hm.
  lia.
Qed.

Lemma lor_int32 (x y : Z) :
  - 2 ^ 31 <= x < 2 ^ 31 -> - 2 ^ 31 <= y < 2 ^ 31 ->
  - 2 ^ 31 <= Z.lor x y < 2 ^ 31.
Proof.
  rewrite !int32_by_shift, Z.shiftr_lor.
  intros [-> | ->] [-> | ->]; simpl; auto.
Qed.

Lemma bor_range (x y : Z) : - 2 ^ 31 <= JS.bor x y < 2 ^ 31.
Proof. apply lor_int32; apply ToInt32_range. Qed.

(** X7.  Whatever the eight bytes, the number [getInt64] returns lies
    between [- 2 ^ 31] and [2 ^ 31]: the bit operators of the language
    work on 32 bits, so no size of two gigabytes or more is ever
    decoded as itself. *)
Theorem getInt64_within_32_bits (bytes : list Z) (offset : nat) :
  - 2 ^ 31 <= getInt64 bytes offset <= 2 ^ 31.
Proof.
  unfold getInt64. cbv zeta.
  match goal with
  | |- context [if _ then - (JS.bor ?x ?y) else _] =>
      pose proof (bor_range x y) as Hr; destruct (JS.truthy _); lia
  end.
Qed.

(** ** Where the integer decoder agrees with the format *)

Lemma getInt64_window (bytes : list Z) (offset : nat) :
  getInt64 bytes offset =
    getInt64 [at_index bytes (offset + 0); at_index bytes (offset + 1);
              at_index bytes (offset + 2); at_index bytes (offset + 3);
              at_index bytes (offset + 4); at_index bytes (offset + 5);
              at_index bytes (offset + 6); at_index bytes (offset + 7)] 0.
Proof. reflexivity. Qed.

Lemma sign_magnitude64_window (bytes : list Z) (offset : nat) :
  sign_magnitude64 bytes offset =
    sign_magnitude64 [at_index bytes (offset + 0); at_index bytes (offset + 1);
                      at_index bytes (offset + 2); at_index bytes (offset + 3);
                      at_index bytes (offset + 4); at_index bytes (offset + 5);
                      at_index bytes (offset + 6); at_index bytes (offset + 7)] 0.
Proof. reflexivity. Qed.

Lemma byte_sign_split_table :
  forallb (fun b => Z.land b 0x7f + Z.land b 0x80 =? b) (seqZ 0 256) = true.
Proof. vm_compute. reflexivity. Qed.

Lemma byte_sign_split (b : Z) : is_byte b -> Z.land b 0x7f + Z.land b 0x80 = b.
Proof.
  intros Hb. apply Z.eqb_eq.
  exact (forallb_seqZ _ 0 256 b byte_sign_split_table Hb).
Qed.

Lemma getInt64_on_small_sizes (bytes : list Z) (offset : nat) :
  (forall k, (k < 8)%nat -> is_byte (at_index bytes (offset + k))) ->
  0 <= sign_magnitude64 bytes offset < 2 ^ 31 ->
  getInt64 bytes offset = sign_magnitude64 bytes offset.
Proof.
  intros Hbytes. rewrite getInt64_window, sign_magnitude64_window.
  pose proof (Hbytes 0%nat ltac:(lia)) as H0. pose proof (Hbytes 1%nat ltac:(lia)) as H1.
  pose proof (Hbytes 2%nat ltac:(lia)) as H2. pose proof (Hbytes 3%nat ltac:(lia)) as H3.
  pose proof (Hbytes 4%nat ltac:(lia)) as H4. pose proof (Hbytes 5%nat ltac:(lia)) as H5.
  pose proof (Hbytes 6%nat ltac:(lia)) as H6. pose proof (Hbytes 7%nat ltac:(lia)) as H7.
  clear Hbytes.
  generalize dependent (at_index bytes (offset + 0)). intros b0.
  generalize dependent (at_index bytes (offset + 1)). intros b1.
  generalize dependent (at_index bytes (offset + 2)). intros b2.
  generalize dependent (at_index bytes (offset + 3)). intros b3.
  generalize dependent (at_index bytes (offset + 4)). intros b4.
  generalize dependent (at_index bytes (offset + 5)). intros b5.
  generalize dependent (at_index bytes (offset + 6)). intros b6.
  generalize dependent (at_index bytes (offset + 7)). intros b7.
  intros H7 H6 H5 H4 H3 H2 H1 H0 Hv.
  pose proof (byte_sign_split b7 H7) as Hsplit.
  pose proof (Z.land_nonneg b7 0x7f) as Hlo.
  pose proof (Z.land_nonneg b7 0x80) as Hhi.
  unfold is_byte in *.
  assert (Hsm : sign_magnitude64 [b0; b1; b2; b3; b4; b5; b6; b7] 0 =
                if negb (Z.land b7 0x80 =? 0)
                then - (b0 + b1 * 2 ^ 8 + b2 * 2 ^ 16 + b3 * 2 ^ 24 + b4 * 2 ^ 32 +
                        b5 * 2 ^ 40 + b6 * 2 ^ 48 + Z.land b7 0x7f * 2 ^ 56)
                else b0 + b1 * 2 ^ 8 + b2 * 2 ^ 16 + b3 * 2 ^ 24 + b4 * 2 ^ 32 +
                     b5 * 2 ^ 40 + b6 * 2 ^ 48 + Z.land b7 0x7f * 2 ^ 56)
    by reflexivity.
  rewrite Hsm in Hv.
  destruct (Z.eqb_spec (Z.land b7 0x80) 0) as [Hpos | Hneg]; simpl negb in Hv; cbv iota in Hv.
  - assert (b4 = 0 /\ b5 = 0 /\ b6 = 0 /\ b7 = 0 /\ b3 < 128) as (-> & -> & -> & -> & Hb3)
      by lia.
    assert (Hb : is_byte b0 /\ is_byte b1 /\ is_byte b2) by (unfold is_byte; lia).
    destruct Hb as (Hb0 & Hb1 & Hb2).
    destruct (getInt64_agrees_below_2_31 b0 b1 b2 b3 Hb0 Hb1 Hb2 ltac:(lia)) as [Hg Hs].
    by rewrite Hg, Hs.
  - assert (b0 = 0 /\ b1 = 0 /\ b2 = 0 /\ b3 = 0 /\ b4 = 0 /\ b5 = 0 /\ b6 = 0 /\
            Z.land b7 0x7f = 0) as (-> & -> & -> & -> & -> & -> & -> & Hz) by lia.
    assert (Hb7 : b7 = 128).
    { assert (Z.land b7 128 = 128); [| lia].
      assert (Ht : forallb (fun b => (Z.land b 128 =? 0) || (Z.land b 128 =? 128))
                     (seqZ 0 256) = true) by (vm_compute; reflexivity).
      pose proof (forallb_seqZ _ 0 256 b7 Ht ltac:(lia)) as Hc. cbv beta in Hc.
      apply orb_true_iff in Hc as [Hc | Hc]; apply Z.eqb_eq in Hc; lia. }
    subst b7. reflexivity.
Qed.

(** X8.  On every field that encodes a number from [0] to [2 ^ 31 - 1]
    in the sign-magnitude convention of the format, at any offset of the
    array, [getInt64] returns that number: the sizes of a patch for
    files of less than two gigabytes are decoded as the format means
    them. *)
Theorem getInt64_decodes_sizes_below_2_31 (bytes : list Z) (offset : nat) :
  (forall k, (k < 8)%nat -> is_byte (at_index bytes (offset + k))) ->
  0 <= sign_magnitude64 bytes offset < 2 ^ 31 ->
  getInt64 bytes offset = sign_magnitude64 bytes offset.
Proof. apply getInt64_on_small_sizes. Qed.

Lemma getInt64_decodes_sizes_below_2_31_witness :
  let bytes := [9; 9; 0x39; 0x30; 0; 0; 0; 0; 0; 0; 9] in
  sign_magnitude64 bytes 2 = 12345 /\ getInt64 bytes 2 = sign_magnitude64 bytes 2.
Proof.
  intros bytes.
  assert (H1 : forall k, (k < 8)%nat -> is_byte (at_index bytes (2 + k))).
  { intros k Hk.
    do 8 (destruct k as [| k]; [vm_compute; split; [discriminate | reflexivity] |]).
    lia. }
  assert (H2 : 0 <= sign_magnitude64 bytes 2 < 2 ^ 31)
    by (vm_compute; split; [discriminate | reflexivity]).
  split; [reflexivity |].
  exact (getInt64_decodes_sizes_below_2_31 bytes 2 H1 H2).
Defined.

(** ** The byte-wise sum at any offset *)

Lemma add_from_lookup (count : nat) (left right : list Z) (i j : nat) :
  (i + count <= length left)%nat -> (i + count <= length right)%nat ->
  add_from count left right i !! j =
    if (i <=? j)%nat && (j <? i + count)%nat
    then Some ((at_index left j + at_index right j) `mod` 256)
    else left !! j.
Proof.
  revert left i. induction count as [| count IH]; intros left i Hlen Hr; simpl.
  - destruct (Nat.leb_spec i j), (Nat.ltb_spec j (i + 0)); simpl; try done; lia.
  - rewrite IH by (rewrite ?length_insert; lia).
    destruct (Nat.leb_spec (S i) j) as [Hlt | Hge]; simpl.
    + destruct (Nat.leb_spec i j); [| lia]. simpl.
      replace (i + S count)%nat with (S (i + count)) by lia.
      unfold at_index. rewrite !list_lookup_insert_ne by lia. reflexivity.
    + destruct (Nat.leb_spec i j) as [Hle | Hlt]; simpl.
      * assert (j = i) as -> by lia.
        destruct (Nat.ltb_spec i (i + S count)); [| lia].
        rewrite list_lookup_insert_eq by lia.
        destruct (lookup_lt_is_Some_2 right i ltac:(lia)) as [r Hri].
        unfold add_at, at_index. rewrite Hri. reflexivity.
      * rewrite list_lookup_insert_ne by lia. reflexivity.
Qed.

Lemma add_from_length (count : nat) (left right : list Z) (i : nat) :
  length (add_from count left right i) = length left.
Proof.
  revert left i. induction count as [| count IH]; intros left i; simpl; [done |].
  by rewrite IH, length_insert.
Qed.

(** X9.  [add(left, right, offset, end)] on arrays that hold the range:
    the array handed back is as long as [left]; at each index from
    [offset] up to [end] it holds the sum modulo 256 of the two bytes
    there, and every other byte of [left] is as it was.  With [end] not
    above [offset] nothing changes. *)
Theorem add_sums_the_range_only (left right : list Z) (offset end_ : nat) :
  (end_ <= length left)%nat -> (end_ <= length right)%nat ->
  length (add left right offset end_) = length left /\
  forall i, (i < length left)%nat ->
    at_index (add left right offset end_) i =
      if (offset <=? i)%nat && (i <? end_)%nat
      then (at_index left i + at_index right i) `mod` 256
      else at_index left i.
Proof.
  intros Hl Hr. unfold add. split; [apply add_from_length |].
  intros i Hi. destruct (Nat.le_gt_cases offset end_) as [Hoe | Hoe].
  - unfold at_index at 1. rewrite add_from_lookup by lia.
    replace (offset + (end_ - offset))%nat with end_ by lia.
    by destruct ((offset <=? i)%nat && (i <? end_)%nat).
  - replace (end_ - offset)%nat with 0%nat by lia. simpl.
    destruct (Nat.leb_spec offset i), (Nat.ltb_spec i end_); simpl; try done; lia.
Qed.

Lemma add_sums_the_range_only_witness :
  let left := [10; 250; 30; 40] in
  let right := [1; 10; 100; 7] in
  (3 <= length left)%nat /\ (3 <= length right)%nat /\
  add left right 1 3 = [10; 4; 130; 40] /\
  length (add left right 1 3) = length left.
Proof.
  intros left right.
  assert (H1 : (3 <= length left)%nat) by (simpl; lia).
  assert (H2 : (3 <= length right)%nat) by (simpl; lia).
  split; [exact H1 |]. split; [exact H2 |]. split; [reflexivity |].
  exact (proj1 (add_sums_the_range_only left right 1 3 H1 H2)).
Defined.

(** ** The characters of a string *)

Lemma code_of_byte (x : Z) :
  is_byte x -> Z.of_N (N_of_ascii (ascii_of_N (Z.to_N (x `mod` 256)))) = x.
Proof.
  intros Hx. unfold is_byte in Hx. rewrite Z.mod_small by lia.
  rewrite N_ascii_embedding by lia. lia.
Qed.

Lemma getAsciiString_from_codes (count : nat) (bytes : list Z) (i : nat) :
  Forall is_byte bytes -> (i + count <= length bytes)%nat ->
  codes_of (getAsciiString_from count bytes i) = take count (drop i bytes).
Proof.
  intros Hbytes. revert i. induction count as [| count IH]; intros i Hlen;
    [by rewrite take_0 |].
  destruct (lookup_lt_is_Some_2 bytes i ltac:(lia)) as [x Hx].
  rewrite (drop_S bytes x i Hx). simpl. unfold codes_of in *. simpl.
  rewrite IH by lia. unfold at_index. rewrite Hx. simpl.
  rewrite code_of_byte; [done |]. by eapply Forall_lookup_1.
Qed.

(** X10.  [getAsciiString(bytes, offset, end)] keeps the bytes it is
    given: the string has one character for each index from [offset] up
    to [end], and the codes of its characters are the bytes of that
    range, so two ranges give the same string only when they hold the
    same bytes. *)
Theorem getAsciiString_keeps_the_bytes (bytes : list Z) (offset end_ : nat) :
  Forall is_byte bytes -> (end_ <= length bytes)%nat ->
  codes_of (getAsciiString bytes offset end_) = subarray bytes offset end_ /\
  String.length (getAsciiString bytes offset end_) = (end_ - offset)%nat.
Proof.
  intros Hbytes Hlen. unfold getAsciiString, subarray. split.
  - destruct (Nat.le_gt_cases offset end_) as [Hle | Hgt].
    + apply getAsciiString_from_codes; [done | lia].
    + replace (end_ - offset)%nat with 0%nat by lia. by rewrite take_0.
  - generalize (end_ - offset)%nat as count. generalize offset as i.
    intros i count. revert i. induction count as [| count IH]; intros i; simpl; [done |].
    by rewrite IH.
Qed.

Lemma getAsciiString_keeps_the_bytes_witness :
  let bytes := [0; 66; 83; 68; 255] in
  Forall is_byte bytes /\ (4 <= length bytes)%nat /\
  getAsciiString bytes 1 4 = "BSD"%string /\
  codes_of (getAsciiString bytes 1 4) = [66; 83; 68].
Proof.
  intros bytes.
  assert (H1 : Forall is_byte bytes) by (repeat constructor; unfold is_byte; lia).
  assert (H2 : (4 <= length bytes)%nat) by (simpl; lia).
  split; [exact H1 |]. split; [exact H2 |]. split; [reflexivity |].
  exact (proj1 (getAsciiString_keeps_the_bytes bytes 1 4 H1 H2)).
Defined.

(** X11.  The check of the magic is exact: on a header of bytes, the
    string decoded from the first eight equals ["BSDIFF40"] exactly when
    those bytes are 66, 83, 68, 73, 70, 70, 52 and 48. *)
Theorem magic_is_checked_byte_for_byte (data : list Z) :
  Forall is_byte data -> (8 <= length data)%nat ->
  String.eqb (getAsciiString data 0 8) MAGIC = true <->
  take 8 data = [66; 83; 68; 73; 70; 70; 52; 48].
Proof.
  intros Hdata Hlen. rewrite String.eqb_eq.
  assert (Hcodes : codes_of (getAsciiString data 0 8) = take 8 data).
  { unfold getAsciiString. rewrite getAsciiString_from_codes by (done || lia).
    by rewrite drop_0. }
  split.
  - intros Heq. rewrite <- Hcodes, Heq. reflexivity.
  - intros Htake. unfold getAsciiString.
    rewrite <- (getAsciiString_from_take (8 - 0) 8 data 0) by lia.
    rewrite Htake. reflexivity.
Qed.

Lemma magic_is_checked_byte_for_byte_witness :
  let data := [66; 83; 68; 73; 70; 70; 52; 48; 1; 2] in
  Forall is_byte data /\ (8 <= length data)%nat /\
  String.eqb (getAsciiString data 0 8) MAGIC = true.
Proof.
  intros data.
  assert (H1 : Forall is_byte data) by (repeat constructor; unfold is_byte; lia).
  assert (H2 : (8 <= length data)%nat) by (simpl; lia).
  split; [exact H1 |]. split; [exact H2 |].
  exact (proj2 (magic_is_checked_byte_for_byte data H1 H2) eq_refl).
Defined.

(** ** Reads in terms of bytes *)

(** X12.  [read(streamReader, buffer, offset, end)] sees the bytes of
    its reader and not its chunks.  Two readers with the same bytes to
    deliver, cut into chunks differently, give the same answer: when
    at least [end - offset] bytes are left, the range from [offset] to
    [end] of the buffer is filled with the next [end - offset] bytes,
    the rest of the buffer is untouched and both readers are left with
    the same bytes; when fewer are left, and only then, the call throws
    ['Unexpected EOF']. *)
Theorem read_sees_bytes_not_chunks (r1 r2 : Reader) (buf : list Z) (off end_ : nat) :
  offset_ok r1 -> offset_ok r2 -> pending r1 = pending r2 ->
  (off <= end_)%nat -> (end_ <= length buf)%nat ->
  exists r1' r2' buf1 buf2 err,
    read_chunks r1 buf off end_ = Some (r1', buf1, err) /\
    read_chunks r2 buf off end_ = Some (r2', buf2, err) /\
    length buf1 = length buf /\ length buf2 = length buf /\
    (err = Some UnexpectedEOF <-> (length (pending r1) < end_ - off)%nat) /\
    (err = None ->
     buf1 = take off buf ++ take (end_ - off) (pending r1) ++ drop end_ buf /\
     buf2 = buf1 /\
     pending r1' = drop (end_ - off) (pending r1) /\ pending r2' = pending r1').
Proof.
  intros Hok1 Hok2 Hpend Hoff Hend. unfold read_chunks, read_fuel.
  destruct (read_spec (S (end_ - off + length (upstream r1))) r1 buf off end_
              Hok1 Hoff Hend ltac:(lia))
    as (r1' & buf1 & err1 & Hread1 & _ & Hlen1 & Hcases1).
  destruct (read_spec (S (end_ - off + length (upstream r2))) r2 buf off end_
              Hok2 Hoff Hend ltac:(lia))
    as (r2' & buf2 & err2 & Hread2 & _ & Hlen2 & Hcases2).
  rewrite <- Hpend in Hcases2.
  destruct Hcases1 as [(Hle1 & -> & Hbuf1 & Hp1) | (Hlt1 & ->)];
    destruct Hcases2 as [(Hle2 & -> & Hbuf2 & Hp2) | (Hlt2 & ->)]; try lia.
  - exists r1', r2', buf1, buf2, None. repeat split; try done; try lia; congruence.
  - exists r1', r2', buf1, buf2, (Some UnexpectedEOF). repeat split; done.
Qed.

Lemma read_sees_bytes_not_chunks_witness :
  let r1 := reader_of [[1; 2]; [3]] in
  let r2 := reader_of [[1]; []; [2; 3]] in
  offset_ok r1 /\ offset_ok r2 /\ pending r1 = pending r2 /\
  exists r1' r2' buf1 buf2 err,
    read_chunks r1 [9; 9; 9; 9] 1 3 = Some (r1', buf1, err) /\
    read_chunks r2 [9; 9; 9; 9] 1 3 = Some (r2', buf2, err) /\
    length buf1 = 4%nat /\ length buf2 = 4%nat /\
    (err = Some UnexpectedEOF <-> (length (pending r1) < 3 - 1)%nat) /\
    (err = None ->
     buf1 = take 1 [9; 9; 9; 9] ++ take (3 - 1) (pending r1) ++ drop 3 [9; 9; 9; 9] /\
     buf2 = buf1 /\
     pending r1' = drop (3 - 1) (pending r1) /\ pending r2' = pending r1').
Proof.
  intros r1 r2.
  assert (H1 : offset_ok r1) by exact I.
  assert (H2 : offset_ok r2) by exact I.
  assert (H3 : pending r1 = pending r2) by reflexivity.
  split; [exact H1 |]. split; [exact H2 |]. split; [exact H3 |].
  exact (read_sees_bytes_not_chunks r1 r2 [9; 9; 9; 9] 1 3 H1 H2 H3
           ltac:(lia) ltac:(simpl; lia)).
Defined.

(** ** The shim over many reads *)

(** X13.  The shim delivers the bytes of its upstream chunks in order,
    each once: after any number of reads, into destinations of any
    sizes, the bytes handed over so far followed by the bytes still to
    deliver are the bytes there were to deliver at the start; no read
    hands over more than its destination holds. *)
Theorem emulated_reads_deliver_in_order (r : Reader) (destinations : list (list Z)) :
  offset_ok r ->
  let '(r', results) := emulated_reads chunks_read r destinations in
  offset_ok r' /\
  concat (map value results) ++ pending r' = pending r /\
  Forall2 (fun res destination => (length (value res) <= length destination)%nat)
    results destinations.
Proof.
  revert r. induction destinations as [| destination rest IH]; intros r Hok; simpl.
  - repeat split; [done | constructor].
  - pose proof (reader_read_step r destination Hok) as Hstep.
    destruct (emulated_read chunks_read r destination) as [[r1 destination'] res].
    destruct Hstep as (Hok1 & _ & Hfit & _ & Hcases).
    pose proof (IH r1 Hok1) as Hrest.
    destruct (emulated_reads chunks_read r1 rest) as [r2 results].
    destruct Hrest as (Hok2 & Hbytes & Hfits).
    split; [done |]. split; [| by constructor].
    simpl. rewrite <- app_assoc, Hbytes.
    destruct (done res).
    + destruct Hcases as (-> & -> & ->). reflexivity.
    + destruct Hcases as (Hv & _ & -> & _). rewrite Hv at 1. apply take_drop.
Qed.

Lemma emulated_reads_deliver_in_order_witness :
  let r := reader_of [[1; 2; 3]; []; [4; 5]] in
  offset_ok r /\
  let '(r', results) := emulated_reads chunks_read r [[0; 0]; [0; 0]; [0]; [0; 0; 0]] in
  map value results = [[1; 2]; [3]; []; [4; 5]] /\
  concat (map value results) ++ pending r' = pending r.
Proof.
  intros r.
  assert (H1 : offset_ok r) by exact I.
  split; [exact H1 |].
  pose proof (emulated_reads_deliver_in_order r [[0; 0]; [0; 0]; [0]; [0; 0; 0]] H1) as H.
  destruct (emulated_reads chunks_read r [[0; 0]; [0; 0]; [0]; [0; 0; 0]])
    as [r' results] eqn:Hrun.
  split; [| exact (proj1 (proj2 H))].
  vm_compute in Hrun. by simplify_eq.
Defined.

(** X14.  Once the shim has reported completion it keeps doing so: the
    reader it is left in answers every later read, for any destination,
    with [done] and no bytes, writes nothing and stays as it is; it
    holds no stale chunk to hand out again. *)
Theorem emulated_read_stays_done (r : Reader) (destination later : list Z) :
  let '(r', _, res) := emulated_read chunks_read r destination in
  done res = true ->
  pending r' = [] /\
  emulated_read chunks_read r' later = (r', later, {| done := true; value := [] |}).
Proof.
  unfold emulated_read, refill.
  destruct (buffer r) as [b |] eqn:Hb.
  - destruct (Nat.eqb_spec (length b) (offset r)).
    + destruct (upstream r) as [| chunk chunks] eqn:Hu; simpl; [| discriminate].
      intros _. split; reflexivity.
    + simpl. discriminate.
  - destruct (upstream r) as [| chunk chunks] eqn:Hu; simpl; [| discriminate].
    intros _. split; reflexivity.
Qed.

Lemma emulated_read_stays_done_witness :
  let r := reader_of [[7]] in
  let '(r1, _, _) := emulated_read chunks_read r [0; 0] in
  let '(r2, _, res) := emulated_read chunks_read r1 [0; 0] in
  done res = true /\
  emulated_read chunks_read r2 [0] = (r2, [0], {| done := true; value := [] |}).
Proof.
  intros r.
  destruct (emulated_read chunks_read r [0; 0]) as [[r1 d1] res1] eqn:H1.
  pose proof (emulated_read_stays_done r1 [0; 0] [0]) as H.
  destruct (emulated_read chunks_read r1 [0; 0]) as [[r2 d2] res] eqn:H2.
  assert (Hdone : done res = true)
    by (vm_compute in H1; simplify_eq; vm_compute in H2; by simplify_eq).
  split; [exact Hdone |]. exact (proj2 (H Hdone)).
Defined.

(** ** Whole bytes through the bit reader *)

Lemma bits_value_of_byte_table :
  forallb (fun byte => bits_value (bits_of_byte byte) =? byte) (seqZ 0 256) = true.
Proof. vm_compute. reflexivity. Qed.

Lemma bits_value_of_byte (byte : Z) : is_byte byte -> bits_value (bits_of_byte byte) = byte.
Proof.
  intros Hb. apply Z.eqb_eq.
  exact (forallb_seqZ _ 0 256 byte bits_value_of_byte_table Hb).
Qed.

Section WholeBytes.
Context {R : Type} (reader_read : R -> list Z -> R * list Z * ReadResult).

Lemma loop_whole_bytes (final : ReadResult -> Prop) (m : nat) :
  forall (fuel : nat) (st : BitReader R) (acc : Z) (bytes : list Z),
  cursor st = -1 -> Forall is_byte bytes ->
  serves reader_read final (source st) (byte_buffer st) bytes ->
  (m <= length bytes)%nat -> (m < fuel)%nat ->
  exists st',
    readBits_loop reader_read fuel st (8 * Z.of_nat m) (JS.ToInt32 acc) =
      Some (st', JS.ToInt32 (big_endian_from acc (take m bytes))) /\
    cursor st' = -1 /\
    serves reader_read final (source st') (byte_buffer st') (drop m bytes).
Proof.
  induction m as [| m IH]; intros fuel st acc bytes Hc Hbytes Hserves Hlen Hfuel.
  - destruct fuel as [| fuel]; [lia |]. rewrite loop_end by lia.
    exists st. rewrite take_0, drop_0. done.
  - destruct bytes as [| byte rest]; [simpl in Hlen; lia |].
    destruct fuel as [| fuel]; [lia |].
    simpl in Hserves.
    destruct (reader_read (source st) (byte_buffer st)) as [[r' buf'] res] eqn:Hread.
    destruct Hserves as (Hdone & Hvlen & Hbl & Hbyte & Hrest).
    rewrite (loop_fetch reader_read fuel st _ _ r' buf' res) by (done || lia).
    rewrite loop_buffered by (simpl; lia). simpl cursor. simpl source. simpl byte_buffer.
    destruct (Z.leb_spec (8 - 0) (8 * Z.of_nat (S m))) as [_ | Hgt]; [| lia].
    rewrite Hbyte.
    assert (Hb : is_byte byte) by (by apply Forall_inv in Hbytes).
    rewrite (band_mask_rest byte (8 - 0)) by (done || lia).
    change (Z.to_nat (8 - (8 - 0))) with 0%nat. rewrite drop_0, bits_value_of_byte by done.
    rewrite (shl_bor acc (8 - 0) byte) by (unfold is_byte in Hb; simpl; lia).
    replace (8 * Z.of_nat (S m) - (8 - 0)) with (8 * Z.of_nat m) by lia.
    assert (Hrest_bytes : Forall is_byte rest) by (by apply Forall_inv_tail in Hbytes).
    assert (Hlen' : (m <= length rest)%nat) by (simpl in Hlen; lia).
    assert (Hfuel' : (m < fuel)%nat) by lia.
    destruct (IH fuel {| source := r'; byte_buffer := buf'; cursor := -1 |}
                (acc * 2 ^ (8 - 0) + byte) rest eq_refl Hrest_bytes Hrest Hlen' Hfuel')
      as (st' & Hrun & Hc' & Hserves').
    exists st'. rewrite Hrun. simpl take. simpl drop.
    unfold big_endian_from. simpl fold_left.
    replace (256 * acc + byte) with (acc * 2 ^ (8 - 0) + byte)
      by (change (2 ^ (8 - 0)) with 256; lia).
    done.
Qed.

End WholeBytes.

Lemma big_endian_bound (bytes : list Z) (acc : Z) :
  Forall is_byte bytes -> 0 <= acc ->
  0 <= big_endian_from acc bytes < (acc + 1) * 256 ^ Z.of_nat (length bytes).
Proof.
  revert acc. induction bytes as [| byte rest IH]; intros acc Hbytes Hacc.
  - simpl. lia.
  - pose proof (Forall_inv Hbytes) as Hb. unfold is_byte in Hb.
    apply Forall_inv_tail in Hbytes.
    unfold big_endian_from in *. simpl fold_left.
    specialize (IH (256 * acc + byte) Hbytes ltac:(lia)).
    replace (Z.of_nat (length (byte :: rest))) with (Z.of_nat (length rest) + 1)
      by (simpl length; lia).
    rewrite Z.pow_add_r by lia.
    assert (0 < 256 ^ Z.of_nat (length rest)) by (apply Z.pow_pos_nonneg; lia).
    nia.
Qed.

(** X15.  Whole bytes through the bit reader.  Called between bytes for
    [8 * m] bits, with [m] bytes still to come, [readBits] asks its
    reader for exactly [m] bytes, returns the number they spell with the
    first byte weighing most (for up to three bytes the number itself,
    beyond that its reading as a signed 32-bit integer) and is again
    between bytes: a read of 32 bits that starts between bytes, as the
    one over the checksum does when the decoder stops at the end of a
    byte, takes four bytes off the stream and no more. *)
Theorem readBits_whole_bytes {R : Type}
    (reader_read : R -> list Z -> R * list Z * ReadResult)
    (final : ReadResult -> Prop) (st : BitReader R) (m : nat) (bytes : list Z) :
  cursor st = -1 -> Forall is_byte bytes ->
  serves reader_read final (source st) (byte_buffer st) bytes ->
  (m <= length bytes)%nat ->
  exists st',
    readBits reader_read st (8 * Z.of_nat m) =
      Some (st', JS.ToInt32 (big_endian (take m bytes))) /\
    cursor st' = -1 /\
    serves reader_read final (source st') (byte_buffer st') (drop m bytes) /\
    ((m <= 3)%nat -> JS.ToInt32 (big_endian (take m bytes)) = big_endian (take m bytes)).
Proof.
  intros Hc Hbytes Hserves Hlen. unfold readBits.
  destruct (loop_whole_bytes reader_read final m (S (Z.to_nat (8 * Z.of_nat m))) st 0 bytes
              Hc Hbytes Hserves Hlen ltac:(lia))
    as (st' & Hrun & Hc' & Hserves').
  change (JS.ToInt32 0) with 0 in Hrun.
  exists st'. split; [exact Hrun |]. split; [done |]. split; [done |].
  intros Hm. apply ToInt32_small.
  pose proof (big_endian_bound (take m bytes) 0 (Forall_take _ m _ Hbytes) ltac:(lia)) as Hb.
  fold (big_endian (take m bytes)) in Hb. rewrite length_take_le in Hb by lia.
  assert (256 ^ Z.of_nat m <= 256 ^ 3) by (apply Z.pow_le_mono_r; lia).
  lia.
Qed.

Lemma readBits_whole_bytes_witness :
  let st := bitReaderFromStreamReader (reader_of [[0x12; 0x34]; [0x56; 0x78; 0x9A]]) in
  cursor st = -1 /\
  exists st',
    readBits (emulated_read chunks_read) st 32 = Some (st', 0x12345678) /\
    cursor st' = -1 /\ pending (source st') = [0x9A].
Proof.
  intros st.
  assert (H1 : cursor st = -1) by reflexivity.
  assert (H2 : Forall is_byte [0x12; 0x34; 0x56; 0x78; 0x9A])
    by (repeat constructor; unfold is_byte; lia).
  assert (H3 : serves (emulated_read chunks_read) reports_done (source st)
                 (byte_buffer st) [0x12; 0x34; 0x56; 0x78; 0x9A]).
  { simpl. repeat split; discriminate. }
  split; [exact H1 |].
  destruct (readBits_whole_bytes (emulated_read chunks_read) reports_done st 4
              [0x12; 0x34; 0x56; 0x78; 0x9A] H1 H2 H3 ltac:(simpl; lia))
    as (st' & Hrun & Hc & _).
  exists st'. split; [exact Hrun |]. split; [exact Hc |].
  vm_compute in Hrun. by simplify_eq.
Defined.

(** ** One bit read after another *)

(** X16.  Reads of the bit reader follow one another on the stream.
    When [a + b] bits are there, with [a + b <= 31], a read of [a] bits
    followed by a read of [b] bits returns the number spelled by the
    next [a] bits and then the number spelled by the [b] bits after
    them, and one read of [a + b] bits returns the first number shifted
    left by [b] plus the second; either way the same bits are left. *)
Theorem readBits_reads_compose {R : Type}
    (reader_read : R -> list Z -> R * list Z * ReadResult)
    (final : ReadResult -> Prop) (st : BitReader R) (a b : Z) (bytes : list Z) :
  bit_reader_ok st -> Forall is_byte bytes ->
  serves reader_read final (source st) (byte_buffer st) bytes ->
  0 <= a -> 0 <= b -> a + b <= 31 ->
  (Z.to_nat (a + b) <= length (upcoming st bytes))%nat ->
  let va := bits_value (take (Z.to_nat a) (upcoming st bytes)) in
  let vb := bits_value (take (Z.to_nat b) (drop (Z.to_nat a) (upcoming st bytes))) in
  exists st1 st2 st12 k2 k12,
    readBits reader_read st a = Some (st1, va) /\
    readBits reader_read st1 b = Some (st2, vb) /\
    readBits reader_read st (a + b) = Some (st12, va * 2 ^ b + vb) /\
    upcoming st2 (drop k2 bytes) = drop (Z.to_nat (a + b)) (upcoming st bytes) /\
    upcoming st12 (drop k12 bytes) = drop (Z.to_nat (a + b)) (upcoming st bytes).
Proof.
  intros Hok Hbytes Hserves Ha Hb Hab Hlen va vb. unfold readBits.
  assert (Hsmall : forall (bits : list bool) (n : Z),
            0 <= n <= 31 -> (length bits <= Z.to_nat n)%nat ->
            JS.ToInt32 (0 * 2 ^ n + bits_value bits) = bits_value bits).
  { intros bits n Hn Hbits. rewrite Z.mul_0_l, Z.add_0_l. apply ToInt32_small.
    pose proof (bits_value_bound bits) as Hv.
    assert (2 ^ Z.of_nat (length bits) <= 2 ^ 31) by (apply Z.pow_le_mono_r; lia).
    lia. }
  destruct (readBits_loop_spec reader_read final (S (Z.to_nat a)) st a 0 bytes
              Hok Hbytes Hserves Ha ltac:(lia) ltac:(lia))
    as (st1 & k1 & Hrun1 & Hok1 & Hserves1 & Hup1).
  assert (Hlen1 : (Z.to_nat b <= length (upcoming st1 (drop k1 bytes)))%nat)
    by (rewrite Hup1, length_drop; lia).
  destruct (readBits_loop_spec reader_read final (S (Z.to_nat b)) st1 b 0 (drop k1 bytes)
              Hok1 (Forall_drop _ k1 _ Hbytes) Hserves1 Hb ltac:(lia) Hlen1)
    as (st2 & k2 & Hrun2 & Hok2 & Hserves2 & Hup2).
  destruct (readBits_loop_spec reader_read final (S (Z.to_nat (a + b))) st (a + b) 0 bytes
              Hok Hbytes Hserves ltac:(lia) ltac:(lia) Hlen)
    as (st12 & k12 & Hrun12 & Hok12 & Hserves12 & Hup12).
  change (JS.ToInt32 0) with 0 in Hrun1, Hrun2, Hrun12.
  rewrite Hup1 in Hrun2, Hup2.
  rewrite (Hsmall _ a) in Hrun1 by (rewrite ?length_take; lia).
  rewrite (Hsmall _ b) in Hrun2 by (rewrite ?length_take; lia).
  rewrite (Hsmall _ (a + b)) in Hrun12 by (rewrite ?length_take; lia).
  rewrite !drop_drop in Hup2.
  exists st1, st2, st12, (k1 + k2)%nat, k12.
  split; [exact Hrun1 |]. split; [exact Hrun2 |]. split; [| split].
  - rewrite Hrun12. f_equal. f_equal.
    rewrite Z2Nat.inj_add by lia. rewrite <- take_take_drop, bits_value_app.
    rewrite length_take_le by (rewrite length_drop; lia).
    rewrite Z2Nat.id by lia. reflexivity.
  - rewrite Hup2. f_equal. lia.
  - exact Hup12.
Qed.

Lemma readBits_reads_compose_witness :
  let st := bitReaderFromStreamReader (reader_of [[0xA5; 0x3C]]) in
  bit_reader_ok st /\
  exists st1 st2 st12,
    readBits (emulated_read chunks_read) st 3 = Some (st1, 5) /\
    readBits (emulated_read chunks_read) st1 7 = Some (st2, 20) /\
    readBits (emulated_read chunks_read) st 10 = Some (st12, 5 * 2 ^ 7 + 20).
Proof.
  intros st.
  assert (H1 : bit_reader_ok st).
  { unfold bit_reader_ok, cursor_ok, is_byte. vm_compute. repeat split; try discriminate.
    by left. }
  assert (H2 : Forall is_byte [0xA5; 0x3C])
    by (repeat constructor; unfold is_byte; lia).
  assert (H3 : serves (emulated_read chunks_read) reports_done (source st)
                 (byte_buffer st) [0xA5; 0x3C]).
  { simpl. repeat split; discriminate. }
  split; [exact H1 |].
  destruct (readBits_reads_compose (emulated_read chunks_read) reports_done st 3 7
              [0xA5; 0x3C] H1 H2 H3 ltac:(lia) ltac:(lia) ltac:(lia) ltac:(simpl; lia))
    as (st1 & st2 & st12 & _ & _ & Hr1 & Hr2 & Hr12 & _).
  exists st1, st2, st12. split; [exact Hr1 |]. split; [exact Hr2 |]. exact Hr12.
Defined.

(** ** The source of the stream *)

Section AdapterFacts.
Context {I V E : Type} (resume : I -> Adapter.Resume V E -> option (Adapter.Yield V E * I)).

Lemma deliver_spec (it : I) (pr : option (Adapter.Settled V E)) (slice : list Z)
    (cur : nat) (request : option (list Z)) :
  (cur <= length slice)%nat ->
  let '(st', out) := Adapter.deliver it pr slice cur request in
  Adapter.iterator st' = it /\ Adapter.promiseResult st' = pr /\
  Adapter.delivered out ++ Adapter.unread st' = drop cur slice /\
  match request with
  | Some view =>
      exists written,
        out = Adapter.Responded (take (length view) (drop cur slice) ++ drop written view)
                written /\
        written = (length (drop cur slice) `min` length view)%nat
  | None => out = Adapter.Enqueued (drop cur slice) /\ Adapter.unread st' = []
  end.
Proof.
  intros Hcur. unfold Adapter.deliver. destruct request as [view |]; simpl.
  - set (w := ((length slice - cur) `min` length view)%nat).
    assert (HT : take (length view) (drop cur slice) = take w (drop cur slice)).
    { subst w. rewrite <- (length_drop slice cur), Nat.min_comm.
      symmetry. apply take_min_length. }
    assert (Hlen : length (take w (drop cur slice)) = w).
    { rewrite length_take, length_drop. lia. }
    assert (Hsub : subarray slice cur (cur + w) = take w (drop cur slice)).
    { unfold subarray. f_equal. lia. }
    rewrite Hsub, typed_set_fits by (rewrite Hlen; lia). rewrite Hlen, HT.
    repeat split.
    + unfold Adapter.unread. simpl. rewrite take_app_length' by done.
      rewrite <- drop_drop. apply take_drop.
    + exists w. split; [reflexivity |]. rewrite length_drop. reflexivity.
  - unfold subarray. rewrite take_ge by (rewrite length_drop; lia).
    unfold Adapter.unread. simpl. rewrite app_nil_r. done.
Qed.

Lemma unread_used_up (st : Adapter.Closure I V E) :
  match Adapter.prevSlice st with
  | None => True
  | Some slice => (length slice <= Adapter.cursor st)%nat
  end ->
  Adapter.unread st = [].
Proof.
  unfold Adapter.unread. destruct (Adapter.prevSlice st); [| done].
  intros H. by apply drop_ge.
Qed.

(** One call of [pull] on an iterator that hands over chunks. *)
Lemma pull_of_chunks (fuel : nat) (st : Adapter.Closure I V E) (chunks : list (list Z))
    (request : option (list Z)) :
  Adapter.produces resume fuel (Adapter.iterator st) (Adapter.promiseResult st) chunks ->
  exists st' out chunks',
    Adapter.pull resume fuel st request = Some (st', out) /\
    Adapter.delivered out ++ Adapter.unread st' ++ concat chunks' =
      Adapter.unread st ++ concat chunks /\
    Adapter.produces resume fuel (Adapter.iterator st') (Adapter.promiseResult st')
      chunks' /\
    (forall e, out <> Adapter.Rejects e) /\
    (forall view, request = Some view ->
       (length (Adapter.delivered out) <= length view)%nat) /\
    (forall b, out = Adapter.Closed b ->
       Adapter.unread st ++ concat chunks = [] /\ Adapter.unread st' = [] /\ chunks' = []).
Proof.
  intros Hproduces. unfold Adapter.pull.
  assert (Hrenew :
    Adapter.unread st = [] ->
    exists st' out chunks',
      Adapter.renew resume fuel st request = Some (st', out) /\
      Adapter.delivered out ++ Adapter.unread st' ++ concat chunks' =
        Adapter.unread st ++ concat chunks /\
      Adapter.produces resume fuel (Adapter.iterator st') (Adapter.promiseResult st')
        chunks' /\
      (forall e, out <> Adapter.Rejects e) /\
      (forall view, request = Some view ->
         (length (Adapter.delivered out) <= length view)%nat) /\
      (forall b, out = Adapter.Closed b ->
         Adapter.unread st ++ concat chunks = [] /\ Adapter.unread st' = [] /\
         chunks' = [])).
  { intros Hun. rewrite Hun. unfold Adapter.renew.
    destruct chunks as [| chunk rest]; simpl in Hproduces;
      destruct Hproduces as (it' & pr' & Hfetch & Hrest); rewrite Hfetch; simpl.
    - eexists _, _, []. split; [reflexivity |].
      simpl. unfold Adapter.unread. simpl.
      repeat split; try done; [by exists it', pr' |]. intros view _. lia.
    - pose proof (deliver_spec it' pr' chunk 0 request ltac:(lia)) as Hd.
      destruct (Adapter.deliver it' pr' chunk 0 request) as [st' out].
      destruct Hd as (Hit & Hpr' & Hbytes & Hout). rewrite drop_0 in *.
      exists st', out, rest. split; [reflexivity |].
      split; [by rewrite app_assoc, Hbytes |].
      split; [by rewrite Hit, Hpr' |].
      destruct request as [view |].
      + destruct Hout as (written & -> & Hw). simpl.
        repeat split; try done.
        intros view' [= <-]. rewrite length_take, length_app, length_take. lia.
      + destruct Hout as [-> Hun']. repeat split; try done. }
  destruct (Adapter.prevSlice st) as [slice |] eqn:Hslice.
  - destruct (Nat.leb_spec (length slice) (Adapter.cursor st)) as [Hle | Hgt].
    + apply Hrenew. apply unread_used_up. by rewrite Hslice.
    + pose proof (deliver_spec (Adapter.iterator st) (Adapter.promiseResult st) slice
                    (Adapter.cursor st) request ltac:(lia)) as Hd.
      destruct (Adapter.deliver _ _ slice (Adapter.cursor st) request) as [st' out].
      destruct Hd as (Hit & Hpr' & Hbytes & Hout).
      exists st', out, chunks. split; [reflexivity |].
      assert (Hun : Adapter.unread st = drop (Adapter.cursor st) slice)
        by (unfold Adapter.unread; by rewrite Hslice).
      split; [by rewrite app_assoc, Hbytes, Hun |].
      split; [by rewrite Hit, Hpr' |].
      destruct request as [view |].
      * destruct Hout as (written & -> & Hw). simpl.
        repeat split; try done.
        intros view' [= <-]. rewrite length_take, length_app, length_take. lia.
      * destruct Hout as [-> Hun']. repeat split; try done.
  - apply Hrenew. apply unread_used_up. by rewrite Hslice.
Qed.

(** X17.  The source of the stream hands on the chunks of its iterator
    in order, each byte once, whatever the mix of requests.  When the
    iterator hands over [chunks], with or without promises in between,
    then after any number of calls of [pull], with a view to fill or
    without one, the bytes handed to the consumer followed by the rest
    of the current chunk and the chunks not yet handed over are the
    bytes there were at the start; a call with a view writes no more
    than the view holds; no call rejects; and the stream is closed only
    when nothing is left. *)
Theorem pulls_deliver_chunks_in_order (fuel : nat) (st : Adapter.Closure I V E)
    (chunks : list (list Z)) (requests : list (option (list Z))) :
  Adapter.produces resume fuel (Adapter.iterator st) (Adapter.promiseResult st) chunks ->
  exists st' outs chunks',
    Adapter.pulls resume fuel st requests = Some (st', outs) /\
    concat (map Adapter.delivered outs) ++ Adapter.unread st' ++ concat chunks' =
      Adapter.unread st ++ concat chunks /\
    Adapter.produces resume fuel (Adapter.iterator st') (Adapter.promiseResult st')
      chunks' /\
    Forall2 (fun out request =>
               (forall e, out <> Adapter.Rejects e) /\
               (forall view, request = Some view ->
                  (length (Adapter.delivered out) <= length view)%nat))
      outs requests /\
    (forall b, list.last outs = Some (Adapter.Closed b) ->
       concat (map Adapter.delivered outs) = Adapter.unread st ++ concat chunks).
Proof.
  revert st chunks.
  induction requests as [| request rest IH]; intros st chunks Hproduces.
  - exists st, [], chunks. simpl. repeat split; try done; constructor.
  - destruct (pull_of_chunks fuel st chunks request Hproduces)
      as (st1 & out & chunks1 & Hpull & Hbytes & Hproduces1 & Hrej & Hfit & Hclosed).
    destruct (IH st1 chunks1 Hproduces1)
      as (st2 & outs & chunks2 & Hpulls & Hbytes2 & Hproduces2 & Hall & Hlast).
    exists st2, (out :: outs), chunks2. simpl. rewrite Hpull. simpl.
    split.
    { destruct out; try (rewrite Hpulls; reflexivity). by destruct (Hrej error). }
    split; [by rewrite <- app_assoc, Hbytes2 |].
    split; [done |].
    split; [by constructor |].
    intros b Hb. rewrite last_cons in Hb.
    destruct (list.last outs) as [final |] eqn:Hfinal.
    + rewrite (Hlast b Hb). exact Hbytes.
    + apply last_None in Hfinal. subst outs. simpl in *.
      injection Hb as ->. destruct (Hclosed b eq_refl) as (Hnone & _ & _).
      by rewrite Hnone.
Qed.

Lemma pulls_cons (fuel : nat) (st st1 st2 : Adapter.Closure I V E)
    (request : option (list Z)) (rest : list (option (list Z)))
    (out : Adapter.Pulled E) (outs : list (Adapter.Pulled E)) :
  Adapter.pull resume fuel st request = Some (st1, out) ->
  (forall e, out <> Adapter.Rejects e) ->
  Adapter.pulls resume fuel st1 rest = Some (st2, outs) ->
  Adapter.pulls resume fuel st (request :: rest) = Some (st2, out :: outs).
Proof.
  intros Hpull Hout Hpulls. simpl. rewrite Hpull. simpl.
  destruct out; try (rewrite Hpulls; reflexivity). by destruct (Hout error).
Qed.

(** X23.  Pulled without a view, the source of the stream passes the
    chunks of its iterator on as they are: starting with no chunk in
    hand, one call for each chunk and one more enqueue the chunks whole,
    one for each call and in order, and then close the stream.  A reader
    of the stream so sees the chunks of the iterator and then its end. *)
Theorem pulls_without_views_enqueue_each_chunk (fuel : nat) (chunks : list (list Z)) :
  forall st : Adapter.Closure I V E,
  Adapter.produces resume fuel (Adapter.iterator st) (Adapter.promiseResult st) chunks ->
  match Adapter.prevSlice st with
  | None => True
  | Some slice => (length slice <= Adapter.cursor st)%nat
  end ->
  exists st',
    Adapter.pulls resume fuel st (replicate (S (length chunks)) None) =
      Some (st', map Adapter.Enqueued chunks ++ [Adapter.Closed false]) /\
    Adapter.prevSlice st' = None.
Proof.
  induction chunks as [| chunk rest IH]; intros st Hproduces Hused;
    simpl in Hproduces; destruct Hproduces as (it' & pr' & Hfetch & Hrest).
  - exists {| Adapter.iterator := it'; Adapter.prevSlice := None;
              Adapter.cursor := Adapter.cursor st; Adapter.promiseResult := pr' |}.
    split; [| reflexivity].
    change (replicate (S (length (@nil (list Z)))) None) with [@None (list Z)].
    eapply pulls_cons; [| | reflexivity]; [| done].
    unfold Adapter.pull.
    assert (Hrenew : Adapter.renew resume fuel st None =
              Some ({| Adapter.iterator := it'; Adapter.prevSlice := None;
                       Adapter.cursor := Adapter.cursor st;
                       Adapter.promiseResult := pr' |}, Adapter.Closed false))
      by (unfold Adapter.renew; by rewrite Hfetch).
    destruct (Adapter.prevSlice st) as [slice |]; [| exact Hrenew].
    by destruct (Nat.leb_spec (length slice) (Adapter.cursor st)); [| lia].
  - destruct (IH {| Adapter.iterator := it'; Adapter.prevSlice := None;
                    Adapter.cursor := 0; Adapter.promiseResult := pr' |} Hrest Logic.I)
      as (st' & Hpulls & Hnone).
    exists st'. split; [| exact Hnone].
    change (replicate (S (length (chunk :: rest))) None)
      with (@None (list Z) :: replicate (S (length rest)) None).
    eapply pulls_cons; [| | exact Hpulls]; [| done].
    unfold Adapter.pull.
    assert (Hrenew : Adapter.renew resume fuel st None =
              Some ({| Adapter.iterator := it'; Adapter.prevSlice := None;
                       Adapter.cursor := 0; Adapter.promiseResult := pr' |},
                    Adapter.Enqueued chunk)).
    { unfold Adapter.renew. rewrite Hfetch. simpl.
      unfold subarray. by rewrite drop_0, Nat.sub_0_r, firstn_all. }
    destruct (Adapter.prevSlice st) as [slice |]; [| exact Hrenew].
    by destruct (Nat.leb_spec (length slice) (Adapter.cursor st)); [| lia].
Qed.

End AdapterFacts.

Lemma pulls_deliver_chunks_in_order_witness :
  let st := Adapter.asyncIteratorToStream [[1; 2; 3]; [4]] in
  Adapter.produces Adapter.array_iterator 1 (Adapter.iterator st)
    (Adapter.promiseResult st) [[1; 2; 3]; [4]] /\
  exists st' outs,
    Adapter.pulls Adapter.array_iterator 1 st [Some [0; 0]; None; Some [0; 0]; None] =
      Some (st', outs) /\
    map Adapter.delivered outs = [[1; 2]; [3]; [4]; []] /\
    list.last outs = Some (Adapter.Closed false).
Proof.
  intros st.
  assert (H1 : Adapter.produces Adapter.array_iterator 1 (Adapter.iterator st)
                 (Adapter.promiseResult st) [[1; 2; 3]; [4]]).
  { simpl. eexists _, _. split; [reflexivity |]. eexists _, _. split; [reflexivity |].
    eexists _, _. split; reflexivity. }
  split; [exact H1 |].
  destruct (pulls_deliver_chunks_in_order Adapter.array_iterator 1 st [[1; 2; 3]; [4]]
              [Some [0; 0]; None; Some [0; 0]; None] H1)
    as (st' & outs & chunks' & Hpulls & _).
  exists st', outs. split; [exact Hpulls |].
  vm_compute in Hpulls. by simplify_eq.
Defined.

Lemma pulls_without_views_enqueue_each_chunk_witness :
  let st := Adapter.asyncIteratorToStream [[1; 2; 3]] in
  exists st',
    Adapter.pulls Adapter.array_iterator 1 st [None; None] =
      Some (st', [Adapter.Enqueued [1; 2; 3]; Adapter.Closed false]) /\
    Adapter.prevSlice st' = None.
Proof.
  intros st.
  assert (H1 : Adapter.produces Adapter.array_iterator 1 (Adapter.iterator st)
                 (Adapter.promiseResult st) [[1; 2; 3]]).
  { simpl. eexists _, _. split; [reflexivity |]. eexists _, _. split; reflexivity. }
  exact (pulls_without_views_enqueue_each_chunk Adapter.array_iterator 1 [[1; 2; 3]]
           st H1 I).
Defined.


(** ** The decompressed streams *)

Section Bzip2Facts.
Context {R E : Type}.
Variable reader_read : R -> list Z -> R * list Z * ReadResult.
Variable header : BitReader R -> Adapter.Settled Resolution E * BitReader R.
Variable decompress :
  BitReader R -> option Resolution -> Adapter.Settled Resolution E * BitReader R.
Variable TypeError : E.

Lemma produces_from_block (size : option Resolution) (bitReader1 bitReader2 : BitReader R)
    (crc : Z) (chunks : list (list Z)) :
  readBits reader_read bitReader1 (8 * 4) = Some (bitReader2, crc) ->
  forall (bitReader : BitReader R) (stale : Resolution),
  decodes decompress bitReader size chunks bitReader1 ->
  Adapter.produces (bzip2_resume reader_read header decompress TypeError) 4
    (BzAtBlock bitReader size)
    (Some (Adapter.Resolved stale)) (map block_of chunks).
Proof.
  intros Hcrc. induction chunks as [| codes rest IH]; intros bitReader stale Hdec;
    simpl in Hdec.
  - simpl. unfold bzip2_decompress. rewrite Hdec. simpl. rewrite Hcrc. simpl.
    eexists _, _. split; reflexivity.
  - destruct Hdec as (bitReader' & Hdec & Hrest).
    simpl. unfold bzip2_decompress. rewrite Hdec. simpl.
    eexists _, _. split; [reflexivity |]. by apply IH.
Qed.

Lemma pulls_from_block (size : option Resolution) (bitReader1 bitReader2 : BitReader R)
    (crc : Z) (chunks : list (list Z)) :
  readBits reader_read bitReader1 (8 * 4) = Some (bitReader2, crc) ->
  forall (bitReader : BitReader R) (stale : Resolution) (cur : nat),
  decodes decompress bitReader size chunks bitReader1 ->
  exists st',
    Adapter.pulls (bzip2_resume reader_read header decompress TypeError) 4
      {| Adapter.iterator := BzAtBlock bitReader size; Adapter.prevSlice := None;
         Adapter.cursor := cur; Adapter.promiseResult := Some (Adapter.Resolved stale) |}
      (replicate (S (length chunks)) None) =
      Some (st', map (fun codes => Adapter.Enqueued (block_of codes)) chunks ++
                 [Adapter.Closed false]) /\
    Adapter.iterator st' = BzReturned (Some bitReader2).
Proof.
  intros Hcrc. induction chunks as [| codes rest IH]; intros bitReader stale cur Hdec;
    simpl in Hdec.
  - simpl. unfold Adapter.pull, Adapter.renew. simpl.
    unfold bzip2_decompress. rewrite Hdec. simpl. rewrite Hcrc. simpl.
    eexists. split; reflexivity.
  - destruct Hdec as (bitReader' & Hdec & Hrest).
    destruct (IH bitReader' (Text codes) 0%nat Hrest) as (st' & Hpulls & Hit).
    exists st'. split; [| exact Hit].
    change (replicate (S (length (codes :: rest))) None)
      with (@None (list Z) :: replicate (S (length rest)) None).
    eapply pulls_cons; [| | exact Hpulls]; [| done].
    unfold Adapter.pull, Adapter.renew. simpl.
    unfold bzip2_decompress. rewrite Hdec. simpl.
    unfold subarray. rewrite drop_0, Nat.sub_0_r, firstn_all. reflexivity.
Qed.

(** X19.  The decompressed stream.  When [header] resolves to a size
    and [decompress], called on the bit reader as the call before left
    it, returns one string after the other and then [-1], the generator
    run by the loop of [pull] hands over one block for each string, as
    long as the string and holding the low eight bits of each of its
    char codes, then reads 32 bits from the bit reader, the checksum,
    and is done.  Pulled without a view once for each string and once
    more, the stream enqueues these blocks in order and closes, with
    the bit reader as that read left it; the values the source of the
    stream sends back into the generator with each [next] do no harm. *)
Theorem bzip2Stream_hands_over_the_blocks (streamReader : R) (size : Resolution)
    (bitReader0 bitReader1 bitReader2 : BitReader R) (chunks : list (list Z)) (crc : Z) :
  header (bitReaderFromStreamReader streamReader) = (Adapter.Resolved size, bitReader0) ->
  decodes decompress bitReader0 (Some size) chunks bitReader1 ->
  readBits reader_read bitReader1 (8 * 4) = Some (bitReader2, crc) ->
  Adapter.produces (bzip2_resume reader_read header decompress TypeError) 4
    (bzip2 streamReader) None (map block_of chunks) /\
  exists st',
    Adapter.pulls (bzip2_resume reader_read header decompress TypeError) 4
      (bzip2Stream streamReader)
      (replicate (S (length chunks)) None) =
      Some (st', map (fun codes => Adapter.Enqueued (block_of codes)) chunks ++
                 [Adapter.Closed false]) /\
    Adapter.iterator st' = BzReturned (Some bitReader2).
Proof.
  intros Hheader Hdec Hcrc. split.
  - destruct chunks as [| codes rest]; simpl in Hdec.
    + simpl. rewrite Hheader. simpl. unfold bzip2_decompress. rewrite Hdec. simpl.
      rewrite Hcrc. simpl. eexists _, _. split; reflexivity.
    + destruct Hdec as (bitReader' & Hdec & Hrest).
      simpl. rewrite Hheader. simpl. unfold bzip2_decompress. rewrite Hdec. simpl.
      eexists _, _. split; [reflexivity |].
      by apply (produces_from_block (Some size) bitReader1 bitReader2 crc).
  - destruct chunks as [| codes rest]; simpl in Hdec.
    + simpl. unfold Adapter.pull, Adapter.renew. simpl.
      rewrite Hheader. simpl. unfold bzip2_decompress. rewrite Hdec. simpl.
      rewrite Hcrc. simpl. eexists. split; reflexivity.
    + destruct Hdec as (bitReader' & Hdec & Hrest).
      destruct (pulls_from_block (Some size) bitReader1 bitReader2 crc rest Hcrc
                  bitReader' (Text codes) 0%nat Hrest) as (st' & Hpulls & Hit).
      exists st'. split; [| exact Hit].
      change (replicate (S (length (codes :: rest))) None)
        with (@None (list Z) :: replicate (S (length rest)) None).
      eapply pulls_cons; [| | exact Hpulls]; [| done].
      unfold Adapter.pull, Adapter.renew. simpl.
      rewrite Hheader. simpl. unfold bzip2_decompress. rewrite Hdec. simpl.
      unfold subarray. rewrite drop_0, Nat.sub_0_r, firstn_all. reflexivity.
Qed.

End Bzip2Facts.

Lemma bzip2Stream_hands_over_the_blocks_witness :
  let r := reader_of [[65; 66; 0]; [1; 2; 3; 4; 9]] in
  exists st',
    Adapter.pulls
      (bzip2_resume (emulated_read chunks_read) demo_bz_header demo_bz_decompress tt) 4
      (bzip2Stream r) [None; None; None] =
      Some (st', [Adapter.Enqueued [65]; Adapter.Enqueued [66]; Adapter.Closed false]) /\
    option_map (fun bitReader => pending (source bitReader))
      (bitReader_of (Adapter.iterator st')) = Some [9].
Proof.
  intros r.
  assert (Hdec : exists bitReader1,
            decodes demo_bz_decompress (bitReaderFromStreamReader r) (Some (Number 0))
              [[65 + 256]; [66 + 256]] bitReader1 /\
            exists bitReader2 crc,
              readBits (emulated_read chunks_read) bitReader1 (8 * 4) =
                Some (bitReader2, crc) /\
              pending (source bitReader2) = [9]).
  { eexists. split.
    - simpl. eexists. split; [vm_compute; reflexivity |].
      eexists. split; [vm_compute; reflexivity |]. vm_compute. reflexivity.
    - eexists _, _. split; vm_compute; reflexivity. }
  destruct Hdec as (bitReader1 & Hdec & bitReader2 & crc & Hcrc & Hleft).
  destruct (bzip2Stream_hands_over_the_blocks (emulated_read chunks_read)
              demo_bz_header demo_bz_decompress tt r (Number 0)
              (bitReaderFromStreamReader r) bitReader1 bitReader2
              [[65 + 256]; [66 + 256]] crc eq_refl Hdec Hcrc)
    as [_ (st' & Hpulls & Hit)].
  exists st'. split; [exact Hpulls |]. rewrite Hit. simpl. by rewrite Hleft.
Defined.

(** ** Control records, in terms of bytes *)

(** X20.  [readControlHeader] takes 24 bytes off its reader, wherever
    the chunk boundaries fall, and decodes the three sizes from the
    bytes at offsets 0, 8 and 16; with fewer than 24 bytes left, and only
    then, it throws ['Unexpected EOF'].  Two readers with the same bytes
    to deliver give the same record and are left with the same bytes. *)
Theorem readControlHeader_takes_24_bytes (r1 r2 : Reader) :
  offset_ok r1 -> offset_ok r2 -> pending r1 = pending r2 ->
  exists r1' r2' res,
    readControlHeader r1 = Some (r1', res) /\
    readControlHeader r2 = Some (r2', res) /\
    (res = inl UnexpectedEOF <-> (length (pending r1) < 24)%nat) /\
    ((24 <= length (pending r1))%nat ->
     res = inr {| addSize := getInt64 (pending r1) 0;
                  copySize := getInt64 (pending r1) 8;
                  seekSize := getInt64 (pending r1) 16 |} /\
     pending r1' = drop 24 (pending r1) /\ pending r2' = pending r1').
Proof.
  intros Hok1 Hok2 Hpend.
  destruct (readControlHeader_spec r1 Hok1) as (r1' & res1 & Hread1 & _ & Hcases1).
  destruct (readControlHeader_spec r2 Hok2) as (r2' & res2 & Hread2 & _ & Hcases2).
  rewrite <- Hpend in Hcases2.
  destruct Hcases1 as [(Hle1 & -> & Hp1) | (Hlt1 & ->)];
    destruct Hcases2 as [(Hle2 & -> & Hp2) | (Hlt2 & ->)]; try lia.
  - exists r1', r2', (inr (control_of_bytes (take 24 (pending r1)))).
    split; [done |]. split; [done |]. split; [split; [done | lia] |].
    intros _. split; [| split; congruence].
    unfold control_of_bytes. by rewrite !getInt64_take by lia.
  - exists r1', r2', (inl UnexpectedEOF).
    split; [done |]. split; [done |]. split; [done |]. lia.
Qed.

Lemma readControlHeader_takes_24_bytes_witness :
  let r1 := reader_of demo_control in
  let r2 := reader_of [concat demo_control] in
  offset_ok r1 /\ offset_ok r2 /\ pending r1 = pending r2 /\
  exists r1' r2',
    readControlHeader r1 =
      Some (r1', inr {| addSize := 2; copySize := 1; seekSize := 0 |}) /\
    readControlHeader r2 =
      Some (r2', inr {| addSize := 2; copySize := 1; seekSize := 0 |}).
Proof.
  intros r1 r2.
  assert (H1 : offset_ok r1) by exact I.
  assert (H2 : offset_ok r2) by exact I.
  assert (H3 : pending r1 = pending r2) by reflexivity.
  split; [exact H1 |]. split; [exact H2 |]. split; [exact H3 |].
  destruct (readControlHeader_takes_24_bytes r1 r2 H1 H2 H3)
    as (r1' & r2' & res & Hr1 & Hr2 & _ & Hres).
  destruct (Hres ltac:(simpl; lia)) as (-> & _).
  exists r1', r2'. split; [exact Hr1 | exact Hr2].
Defined.

(** ** An empty new file *)

(** X21.  When the header declares a new file of no bytes, the loop is
    over at its first test: the generator returns without an event,
    without decoding a control record and without a read from any of
    its four readers, whatever the streams hold. *)
Theorem empty_new_file_reads_nothing (b : positive) (h : Header)
    (old control diff extra : list (list Z)) :
  newSize h <= 0 ->
  bspatch_loop b h old control diff extra =
    ([], set_phase (loop_entry b h old control diff extra) Finished).
Proof.
  intros Hsize. unfold bspatch_loop.
  assert (Hstep : step b (loop_entry b h old control diff extra) =
                  Some ([], set_phase (loop_entry b h old control diff extra) Finished)).
  { unfold step, step_loop. simpl.
    by destruct (Z.ltb_spec 0 (newSize h)); [lia |]. }
  destruct (steps_bound (loop_entry b h old control diff extra)) as [| fuel] eqn:Hbound;
    [unfold steps_bound in Hbound; lia |].
  unfold run; fold run.
  change (terminal (loop_entry b h old control diff extra)) with false.
  cbv iota. rewrite Hstep. destruct fuel; reflexivity.
Qed.

Lemma empty_new_file_reads_nothing_witness :
  let h := {| magic := MAGIC; controlSize := 0; diffSize := 0; newSize := 0 |} in
  newSize h <= 0 /\
  bspatch_loop 4 h demo_old demo_control demo_diff demo_extra =
    ([], set_phase (loop_entry 4 h demo_old demo_control demo_diff demo_extra) Finished).
Proof.
  intros h.
  assert (H1 : newSize h <= 0) by (simpl; lia).
  split; [exact H1 |].
  exact (empty_new_file_reads_nothing 4 h demo_old demo_control demo_diff demo_extra H1).
Defined.

(** ** The whole application, from patch to end *)

(** X22.  An application always comes to an end, for every old file,
    patch, decoder and buffer size.  When the start of the generator
    fails, on a short patch or a header that does not pass the check,
    nothing at all has happened: no control record decoded, no byte read
    from the old file, no chunk yielded.  Otherwise the loop was
    entered in a well-shaped state and ran until the generator returned
    or threw, and what it yielded is no longer than the [newSize] of the
    header, and exactly that long when the generator returned. *)
Theorem bspatch_always_ends (b : positive) (bzip2 : list Z -> list (list Z))
    (old patch : list (list Z)) :
  exists tr r e,
    bspatch b bzip2 old patch = Some (tr, r) /\ outcome r = Some e /\
    match r with
    | inl error => tr = [] /\ bspatch_open b bzip2 old patch = Some (inl error)
    | inr s =>
        exists s0, bspatch_open b bzip2 old patch = Some (inr s0) /\
          Trace b s0 tr s /\ header s = header s0 /\
          Z.of_nat (length (output tr)) <= newSize (header s0) /\
          (e = Complete -> Z.of_nat (length (output tr)) = newSize (header s0))
    end.
Proof.
  unfold bspatch.
  destruct (bspatch_open_entry b bzip2 old patch)
    as [(error & He) | (h & control & diff & extra & Hsize & Hentry)].
  - rewrite He. simpl. exists [], (inl error), (Rejected error). done.
  - rewrite Hentry. simpl.
    set (s0 := loop_entry b h old control diff extra).
    pose proof (loop_entry_state_ok b h old control diff extra) as Hok.
    pose proof (loop_entry_initial b h old control diff extra Hsize) as Hinit.
    fold s0 in Hok, Hinit.
    destruct (terminal_ending _ (run_terminates b (steps_bound s0) s0 Hok ltac:(lia)))
      as [e He].
    pose proof (run_is_Trace b (steps_bound s0) s0) as HT.
    destruct (run b (steps_bound s0) s0) as [tr s]. simpl in *.
    exists tr, (inr s), e. split; [done |]. split; [done |].
    exists s0. split; [done |]. split; [done |].
    destruct (Trace_output_newPos b s0 s tr Hok HT) as [Hh Hn].
    destruct (Trace_inv b s0 s tr Hok (initial_pos_inv s0 Hinit) HT) as [_ [Hpos _]].
    pose proof (Trace_new_inv b s0 s tr Hok Hinit HT) as Hnew.
    destruct Hinit as (_ & Hn0 & _ & _). rewrite Hh in Hpos.
    split; [done |]. split; [lia |].
    intros ->. unfold ending in He. unfold new_inv in Hnew.
    destruct (phase s); try discriminate.
    rewrite Hh in Hnew. destruct Hnew as (_ & _ & Hge). lia.
Qed.

(** ** A view filled from one chunk *)

Section AdapterViews.
Context {I V E : Type} (resume : I -> Adapter.Resume V E -> option (Adapter.Yield V E * I)).

(** X24.  A call of [pull] with a view fills it from one chunk only.
    While the chunk in hand has bytes left, the call copies the smaller
    of the view's length and the number of those bytes to the start of
    the view, leaves the rest of the view alone, answers with that count
    and advances the cursor by it, without a word to the iterator; it
    never goes on to the next chunk to fill the room left in the view.
    With no byte in hand it takes one chunk from the iterator and does
    the same from the start of that chunk. *)
Theorem pull_fills_a_view_from_one_chunk (fuel : nat) (st : Adapter.Closure I V E)
    (view : list Z) :
  (Adapter.unread st <> [] ->
   exists st',
     Adapter.pull resume fuel st (Some view) =
       Some (st', Adapter.Responded
                    (take (length view) (Adapter.unread st) ++
                     drop (length view `min` length (Adapter.unread st)) view)
                    (length view `min` length (Adapter.unread st))) /\
     Adapter.iterator st' = Adapter.iterator st /\
     Adapter.prevSlice st' = Adapter.prevSlice st /\
     Adapter.cursor st' =
       (Adapter.cursor st + length view `min` length (Adapter.unread st))%nat /\
     Adapter.unread st' = drop (length view) (Adapter.unread st)) /\
  (Adapter.unread st = [] ->
   forall it pr chunk,
     Adapter.fetch resume fuel (Adapter.iterator st) (Adapter.promiseResult st) =
       Some (it, pr, Adapter.FetchedChunk chunk) ->
     exists st',
       Adapter.pull resume fuel st (Some view) =
         Some (st', Adapter.Responded
                      (take (length view) chunk ++
                       drop (length view `min` length chunk) view)
                      (length view `min` length chunk)) /\
       Adapter.iterator st' = it /\ Adapter.prevSlice st' = Some chunk /\
       Adapter.cursor st' = (length view `min` length chunk)%nat /\
       Adapter.unread st' = drop (length view) chunk).
Proof.
  assert (Hdeliver : forall (it : I) (pr : option (Adapter.Settled V E))
                            (slice : list Z) (cur : nat),
    (cur <= length slice)%nat ->
    Adapter.deliver it pr slice cur (Some view) =
      ({| Adapter.iterator := it; Adapter.prevSlice := Some slice;
          Adapter.cursor := cur + length view `min` length (drop cur slice);
          Adapter.promiseResult := pr |},
       Adapter.Responded
         (take (length view) (drop cur slice) ++
          drop (length view `min` length (drop cur slice)) view)
         (length view `min` length (drop cur slice)))).
  { intros it pr slice cur Hcur.
    pose proof (deliver_spec it pr slice cur (Some view) Hcur) as Hspec.
    unfold Adapter.deliver in *. simpl in Hspec |- *.
    destruct Hspec as (_ & _ & _ & w & Hout & Hw).
    injection Hout as Hview Hwritten. rewrite Hview, <- Hwritten.
    rewrite length_drop, (Nat.min_comm (length view)). reflexivity. }
  assert (Hdrop : forall (l : list Z) (n : nat), drop (n `min` length l) l = drop n l)
    by (intros l n; apply drop_min_length).
  split.
  - intros Hun. unfold Adapter.pull, Adapter.unread in *.
    destruct (Adapter.prevSlice st) as [slice |] eqn:Hslice; [| done].
    destruct (Nat.leb_spec (length slice) (Adapter.cursor st)) as [Hle | Hgt].
    { by rewrite drop_ge in Hun by lia. }
    rewrite Hdeliver by lia. eexists. split; [reflexivity |]. simpl.
    repeat split. by rewrite <- drop_drop, Hdrop.
  - intros Hun it pr chunk Hfetch. unfold Adapter.pull.
    assert (Hrenew : Adapter.renew resume fuel st (Some view) =
              Some (Adapter.deliver it pr chunk 0 (Some view)))
      by (unfold Adapter.renew; by rewrite Hfetch).
    rewrite Hdeliver, drop_0 in Hrenew by lia.
    assert (Hpull : Adapter.pull resume fuel st (Some view) =
                    Adapter.renew resume fuel st (Some view)).
    { unfold Adapter.pull, Adapter.unread in *.
      destruct (Adapter.prevSlice st) as [slice |]; [| done].
      destruct (Nat.leb_spec (length slice) (Adapter.cursor st)) as [Hle | Hgt]; [done |].
      apply drop_empty_ge in Hun. lia. }
    fold (Adapter.pull resume fuel st (Some view)). rewrite Hpull, Hrenew.
    eexists. split; [reflexivity |]. simpl. repeat split.
    unfold Adapter.unread. simpl. apply Hdrop.
Qed.

End AdapterViews.

Lemma pull_fills_a_view_from_one_chunk_witness :
  let st := {| Adapter.iterator := [[4; 5]]; Adapter.prevSlice := Some [1; 2; 3];
               Adapter.cursor := 1; Adapter.promiseResult := None |} in
  Adapter.unread st <> [] /\
  exists st',
    Adapter.pull Adapter.array_iterator 1 st (Some [0; 0; 0; 0]) =
      Some (st', Adapter.Responded [2; 3; 0; 0] 2) /\
    Adapter.iterator st' = [[4; 5]] /\ Adapter.unread st' = [].
Proof.
  intros st.
  assert (H1 : Adapter.unread st <> []) by discriminate.
  split; [exact H1 |].
  destruct (proj1 (pull_fills_a_view_from_one_chunk Adapter.array_iterator 1 st
                     [0; 0; 0; 0]) H1)
    as (st' & Hpull & Hit & _ & _ & Hun).
  exists st'. split; [exact Hpull |]. split; [exact Hit | exact Hun].
Defined.

(** ** The engine against the format *)

Lemma at_index_is_byte (bytes : list Z) (i : nat) :
  Forall is_byte bytes -> is_byte (at_index bytes i).
Proof.
  intros Hbytes. unfold at_index. destruct (bytes !! i) as [x |] eqn:Hx; simpl.
  - by eapply Forall_lookup_1.
  - unfold is_byte. lia.
Qed.

Lemma control_of_bytes_plain (data : list Z) :
  Forall is_byte data -> plain (format_control_of_bytes data) ->
  control_of_bytes data = format_control_of_bytes data.
Proof.
  intros Hdata (Ha & Hc & Hs). unfold control_of_bytes, format_control_of_bytes in *.
  simpl in Ha, Hc, Hs. unfold plain_size in *.
  rewrite !getInt64_on_small_sizes; try done; intros k _; by apply at_index_is_byte.
Qed.

Lemma control_records_plain (count : nat) (control : list Z) :
  Forall is_byte control -> Forall plain (format_control_records count control) ->
  control_records count control = format_control_records count control.
Proof.
  revert control. induction count as [| count IH]; intros control Hbytes Hplain; [done |].
  simpl in *. pose proof (Forall_inv Hplain) as Hhead.
  pose proof (Forall_inv_tail Hplain) as Htail.
  rewrite control_of_bytes_plain by (try done; by apply Forall_take).
  rewrite IH by (try done; by apply Forall_drop). reflexivity.
Qed.

(** X4.  The loop against the format.  On a control stream of bytes all
    of whose records hold, in the sign-magnitude convention of the
    format, three sizes from [0] to [2 ^ 31 - 1], the loop does what
    those records say: it ends as the account a record at a time ends
    on the records as the format writes them and the bytes of the
    streams, and unless it ends with a stream running out the bytes it
    yields are those of the account: for each record the sums modulo 256
    of [addSize] old and diff bytes, then [copySize] extra bytes, the old
    file being advanced by [addSize + seekSize]. *)
Theorem bspatch_loop_follows_the_format (b : positive) (h : Header)
    (old control diff extra : list (list Z)) :
  Forall is_byte (concat control) ->
  Forall plain (format_records (concat control)) ->
  let r := bspatch_loop b h old control diff extra in
  let x := apply_records (newSize h) (format_records (concat control)) 0
             (concat old) (concat diff) (concat extra) in
  ending r.2 = Some x.2 /\
  (x.2 <> Rejected UnexpectedEOF -> output r.1 = x.1).
Proof.
  intros Hbytes Hplain r x. subst r x. unfold bspatch_loop.
  destruct (run_refines_description b _ (loop_entry_state_ok b h old control diff extra))
    as (e & He & Hx & Hout).
  rewrite expected_loop_entry in *.
  assert (Hrec : records_of (concat control) = format_records (concat control))
    by (by apply control_records_plain).
  rewrite Hrec in *. subst e. split; [done |]. exact Hout.
Qed.

Lemma bspatch_loop_follows_the_format_witness :
  let r := bspatch_loop 2 seek_header demo_old seek_control demo_diff [] in
  Forall is_byte (concat seek_control) /\
  format_records (concat seek_control) =
    [{| addSize := 1; copySize := 0; seekSize := 2 |};
     {| addSize := 1; copySize := 0; seekSize := 0 |}] /\
  ending r.2 = Some Complete /\ output r.1 = [98; 101].
Proof.
  intros r.
  assert (H1 : Forall is_byte (concat seek_control))
    by (repeat constructor; unfold is_byte; lia).
  assert (H2 : format_records (concat seek_control) =
               [{| addSize := 1; copySize := 0; seekSize := 2 |};
                {| addSize := 1; copySize := 0; seekSize := 0 |}]) by reflexivity.
  assert (H3 : Forall plain (format_records (concat seek_control))).
  { rewrite H2. repeat constructor; simpl; lia. }
  split; [exact H1 |]. split; [exact H2 |].
  destruct (bspatch_loop_follows_the_format 2 seek_header demo_old seek_control demo_diff []
              H1 H3) as [Hend Hout].
  split; [exact Hend |]. exact (Hout ltac:(discriminate)).
Defined.

(** ** How the iterator is resumed *)

Section ResumptionFacts.
Context {I V E : Type} (resume : I -> Adapter.Resume V E -> option (Adapter.Yield V E * I)).

Lemma settled_after_app (pr : option (Adapter.Settled V E))
    (log1 log2 : list (Adapter.Resume V E * Adapter.Yield V E)) :
  Adapter.settled_after pr (log1 ++ log2) =
    Adapter.settled_after (Adapter.settled_after pr log1) log2.
Proof.
  revert pr. induction log1 as [| [how y] log1 IH]; intros pr; [done |].
  simpl. destruct y; apply IH.
Qed.

Lemma well_resumed_app (pr : option (Adapter.Settled V E))
    (log1 log2 : list (Adapter.Resume V E * Adapter.Yield V E)) :
  Adapter.well_resumed pr log1 ->
  Adapter.well_resumed (Adapter.settled_after pr log1) log2 ->
  Adapter.well_resumed pr (log1 ++ log2).
Proof.
  revert pr. induction log1 as [| [how y] log1 IH]; intros pr H1 H2; [done |].
  simpl in *. destruct H1 as [Hhow Hrest]. split; [done |].
  apply IH; [done |]. by destruct y.
Qed.

Lemma fetch_recording (fuel : nat) (it it' : I)
    (log log' : list (Adapter.Resume V E * Adapter.Yield V E))
    (pr pr' : option (Adapter.Settled V E)) (fetched : Adapter.Fetched E) :
  Adapter.fetch (Adapter.recording resume) fuel (it, log) pr =
    Some ((it', log'), pr', fetched) ->
  Adapter.fetch resume fuel it pr = Some (it', pr', fetched) /\
  exists calls, log' = log ++ calls /\
    Adapter.well_resumed pr calls /\ pr' = Adapter.settled_after pr calls.
Proof.
  revert it log pr. induction fuel as [| fuel IH]; intros it log pr Hfetch; [done |].
  simpl in Hfetch.
  destruct (resume it (Adapter.resumption pr)) as [[y it1] |] eqn:Hres.
  2: { unfold Adapter.recording in Hfetch. simpl in Hfetch.
       rewrite Hres in Hfetch. done. }
  assert (Hrec : Adapter.recording resume (it, log) (Adapter.resumption pr) =
                 Some (y, (it1, log ++ [(Adapter.resumption pr, y)]))).
  { unfold Adapter.recording. simpl. by rewrite Hres. }
  rewrite Hrec in Hfetch. simpl in Hfetch.
  simpl. rewrite Hres. simpl.
  destruct y as [| chunk | settles | error].
  - injection Hfetch as <- <- <- <-. split; [done |].
    by exists [(Adapter.resumption pr, Adapter.Done)].
  - injection Hfetch as <- <- <- <-. split; [done |].
    by exists [(Adapter.resumption pr, Adapter.Chunk chunk)].
  - destruct (IH _ _ _ Hfetch) as (Hplain & calls & -> & Hwell & ->).
    split; [exact Hplain |].
    exists ((Adapter.resumption pr, Adapter.Thenable settles) :: calls).
    rewrite <- app_assoc. done.
  - injection Hfetch as <- <- <- <-. split; [done |].
    by exists [(Adapter.resumption pr, Adapter.Raises error)].
Qed.

Lemma pull_recording (fuel : nat)
    (st st' : Adapter.Closure (I * list (Adapter.Resume V E * Adapter.Yield V E)) V E)
    (request : option (list Z)) (out : Adapter.Pulled E) :
  Adapter.pull (Adapter.recording resume) fuel st request = Some (st', out) ->
  Adapter.pull resume fuel (Adapter.unrecorded st) request =
    Some (Adapter.unrecorded st', out) /\
  exists calls, (Adapter.iterator st').2 = (Adapter.iterator st).2 ++ calls /\
    Adapter.well_resumed (Adapter.promiseResult st) calls /\
    Adapter.promiseResult st' =
      Adapter.settled_after (Adapter.promiseResult st) calls.
Proof.
  intros Hpull.
  assert (Hdeliver : forall it pr slice cur,
    Adapter.deliver it pr slice cur request = (st', out) ->
    Adapter.deliver it.1 pr slice cur request = (Adapter.unrecorded st', out) /\
    Adapter.iterator st' = it /\ Adapter.promiseResult st' = pr).
  { intros it pr slice cur Hd. unfold Adapter.deliver in *.
    destruct request; by simplify_eq. }
  assert (Hrenew :
    Adapter.renew (Adapter.recording resume) fuel st request = Some (st', out) ->
    Adapter.renew resume fuel (Adapter.unrecorded st) request =
      Some (Adapter.unrecorded st', out) /\
    exists calls, (Adapter.iterator st').2 = (Adapter.iterator st).2 ++ calls /\
      Adapter.well_resumed (Adapter.promiseResult st) calls /\
      Adapter.promiseResult st' =
        Adapter.settled_after (Adapter.promiseResult st) calls).
  { unfold Adapter.renew. intros Hr. simpl.
    destruct (Adapter.iterator st) as [it log] eqn:Hit.
    destruct (Adapter.fetch (Adapter.recording resume) fuel (it, log)
                (Adapter.promiseResult st)) as [[[[it1 log1] pr1] fetched] |] eqn:Hfetch;
      [| done].
    destruct (fetch_recording _ _ _ _ _ _ _ _ Hfetch)
      as (Hplain & calls & -> & Hwell & ->).
    simpl. rewrite Hplain. simpl. simpl in Hr.
    destruct fetched; simplify_eq; try (split; [done | by exists calls]).
    destruct (Hdeliver _ _ _ _ Hr) as (Hd & -> & ->).
    split; [by rewrite <- Hd | by exists calls]. }
  unfold Adapter.pull in *. simpl.
  destruct (Adapter.prevSlice st) as [slice |]; [| by apply Hrenew].
  destruct (length slice <=? Adapter.cursor st)%nat; [by apply Hrenew |].
  injection Hpull as Hd. destruct (Hdeliver _ _ _ _ Hd) as (Hd' & -> & ->).
  split; [by rewrite <- Hd' |].
  exists []. by rewrite app_nil_r.
Qed.

(** X18.  How the iterator is resumed.  With a record kept of every
    call made to the iterator, over any number of calls of [pull] each
    call resumes it as lines 22-24 say for what the last promise
    yielded before that call settled to, whether in the same call of
    [pull] or an earlier one and whatever chunks were yielded since:
    [next()] while no promise has been yielded, [next(result)] after one
    that resolved, [throw(error)] after one that was rejected; and
    [promiseResult] is left holding what the last promise settled to.
    So [promiseResult] is never reset: once a promise has been yielded,
    the iterator is never again resumed by a plain [next()].  The
    record only observes: without it the same calls of [pull] answer
    the same and leave the same closure. *)
Theorem pulls_resume_with_the_last_settled_promise (fuel : nat)
    (st st' : Adapter.Closure (I * list (Adapter.Resume V E * Adapter.Yield V E)) V E)
    (requests : list (option (list Z))) (outs : list (Adapter.Pulled E)) :
  Adapter.pulls (Adapter.recording resume) fuel st requests = Some (st', outs) ->
  Adapter.pulls resume fuel (Adapter.unrecorded st) requests =
    Some (Adapter.unrecorded st', outs) /\
  exists calls, (Adapter.iterator st').2 = (Adapter.iterator st).2 ++ calls /\
    Adapter.well_resumed (Adapter.promiseResult st) calls /\
    Adapter.promiseResult st' =
      Adapter.settled_after (Adapter.promiseResult st) calls /\
    (is_Some (Adapter.promiseResult st) ->
     Forall (fun call => call.1 <> Adapter.Next None) calls).
Proof.
  assert (Hnever : forall (calls : list (Adapter.Resume V E * Adapter.Yield V E)) pr,
            Adapter.well_resumed pr calls -> is_Some pr ->
            Forall (fun call => call.1 <> Adapter.Next None) calls).
  { induction calls as [| [how y] calls IH]; intros pr Hwell Hpr; [constructor |].
    simpl in Hwell. destruct Hwell as [-> Hrest]. constructor.
    - destruct Hpr as [[result | error] ->]; done.
    - apply (IH _ Hrest). by destruct y. }
  intros Hpulls.
  cut (Adapter.pulls resume fuel (Adapter.unrecorded st) requests =
         Some (Adapter.unrecorded st', outs) /\
       exists calls, (Adapter.iterator st').2 = (Adapter.iterator st).2 ++ calls /\
         Adapter.well_resumed (Adapter.promiseResult st) calls /\
         Adapter.promiseResult st' =
           Adapter.settled_after (Adapter.promiseResult st) calls).
  { intros (Hplain & calls & Hlog & Hwell & Hpr). split; [exact Hplain |].
    exists calls. repeat split; try done. by apply Hnever. }
  revert st outs Hpulls.
  induction requests as [| request rest IH]; intros st outs Hpulls; simpl in Hpulls.
  - simplify_eq. split; [done |]. exists []. by rewrite app_nil_r.
  - destruct (Adapter.pull (Adapter.recording resume) fuel st request)
      as [[st1 out] |] eqn:Hpull; [| done].
    destruct (pull_recording _ _ _ _ _ Hpull)
      as (Hplain1 & calls1 & Hlog1 & Hwell1 & Hpr1).
    simpl in Hpulls. simpl. rewrite Hplain1. simpl.
    assert (Hgo : forall outs',
      Adapter.pulls (Adapter.recording resume) fuel st1 rest = Some (st', outs') ->
      Adapter.pulls resume fuel (Adapter.unrecorded st1) rest =
        Some (Adapter.unrecorded st', outs') /\
      exists calls, (Adapter.iterator st').2 = (Adapter.iterator st).2 ++ calls /\
        Adapter.well_resumed (Adapter.promiseResult st) calls /\
        Adapter.promiseResult st' =
          Adapter.settled_after (Adapter.promiseResult st) calls).
    { intros outs' Hrest.
      destruct (IH _ _ Hrest) as (Hplain2 & calls2 & Hlog2 & Hwell2 & Hpr2).
      split; [exact Hplain2 |].
      exists (calls1 ++ calls2). rewrite Hlog2, Hlog1, app_assoc.
      split; [done |]. split.
      - apply well_resumed_app; [done |]. by rewrite <- Hpr1.
      - by rewrite settled_after_app, <- Hpr1. }
    destruct out;
      try (destruct (Adapter.pulls (Adapter.recording resume) fuel st1 rest)
             as [[st2 outs2] |] eqn:Hrest; [| done];
           simpl in Hpulls; simplify_eq;
           destruct (Hgo _ eq_refl) as (Hplain2 & Hcalls);
           rewrite Hplain2; split; [done | exact Hcalls]).
    simplify_eq. split; [done |]. by exists calls1.
Qed.

End ResumptionFacts.

Lemma pulls_resume_with_the_last_settled_promise_witness :
  let r := reader_of [[65; 66; 0]; [1; 2; 3; 4; 9]] in
  let resume :=
    Adapter.recording
      (bzip2_resume (emulated_read chunks_read) demo_bz_header demo_bz_decompress tt) in
  let st := Adapter.asyncIteratorToStream (bzip2 r, []) in
  exists st' outs,
    Adapter.pulls resume 4 st [None; None] = Some (st', outs) /\
    outs = [Adapter.Enqueued [65]; Adapter.Enqueued [66]] /\
    map fst (Adapter.iterator st').2 =
      [Adapter.Next None; Adapter.Next (Some (Number 0));
       Adapter.Next (Some (Text [321])); Adapter.Next (Some (Text [321]));
       Adapter.Next (Some (Text [322]))] /\
    Adapter.well_resumed None (Adapter.iterator st').2 /\
    Adapter.promiseResult st' = Some (Adapter.Resolved (Text [322])) /\
    Adapter.pulls
      (bzip2_resume (emulated_read chunks_read) demo_bz_header demo_bz_decompress tt)
      4 (Adapter.unrecorded st) [None; None] = Some (Adapter.unrecorded st', outs).
Proof.
  intros r resume st.
  destruct (Adapter.pulls resume 4 st [None; None]) as [[st' outs] |] eqn:Hpulls;
    [| vm_compute in Hpulls; discriminate].
  destruct (pulls_resume_with_the_last_settled_promise _ 4 st st' [None; None] outs Hpulls)
    as (Hplain & calls & Hlog & Hwell & Hpr & _).
  simpl in Hlog. subst calls.
  exists st', outs. split; [reflexivity |].
  vm_compute in Hpulls. injection Hpulls as <- <-.
  split; [reflexivity |]. split; [reflexivity |]. split; [exact Hwell |].
  split; [reflexivity |]. exact Hplain.
Defined.
